(** * A verification development for the Brainfuck x86-64 JIT (bf_jit64.cpp)

    The code generator of [BrainfuckProgram] is embedded as executable Rocq
    functions over byte lists; the generated machine code is given meaning by
    a small-step interpreter for exactly the instruction encodings that the
    generator's templates contain. *)

From Stdlib Require Import ZArith Ascii String List Bool Lia.
Import ListNotations.
Local Open Scope Z_scope.

(** ** Machine integers

    Sizes are [size_t] (64 bit, unsigned), offsets kept in [int] variables are
    32-bit signed, and displacements are [uint32_t].  Conversions between them
    are modular and written out. *)

Module MachInt.

Definition to_size_t (x : Z) : Z := x mod 2 ^ 64.
Definition to_uint32 (x : Z) : Z := x mod 2 ^ 32.
Definition to_int (x : Z) : Z :=
  let u := x mod 2 ^ 32 in if u <? 2 ^ 31 then u else u - 2 ^ 32.
Definition INT_MAX : Z := 2 ^ 31 - 1.

(** [string((char* ) &x, n)] on the little-endian host the code targets. *)
Fixpoint le_bytes (n : nat) (x : Z) : list Z :=
  match n with
  | O => []
  | S n' => x mod 256 :: le_bytes n' (x / 256)
  end.

(** Unsigned and signed reading of a little-endian byte field. *)
Fixpoint le_value (bs : list Z) : Z :=
  match bs with
  | [] => 0
  | b :: bs' => b + 256 * le_value bs'
  end.

Definition signed (w : Z) (u : Z) : Z :=
  if u <? 2 ^ (w - 1) then u else u - 2 ^ w.

Definition le_signed32 (bs : list Z) : Z := signed 32 (le_value bs).

End MachInt.
Import MachInt.

(** ** The code buffer ([std::string]) *)

Definition code_buffer := list Z.

Definition size (code : code_buffer) : Z := Z.of_nat (length code).

(** [std::string::replace(pos, len, str)]: throws [std::out_of_range] when
    [pos > size()], otherwise replaces [min(len, size() - pos)] characters. *)
Definition string_replace (pos len : Z) (str s : code_buffer) : option code_buffer :=
  if size s <? pos then None
  else Some (firstn (Z.to_nat pos) s ++ str ++ skipn (Z.to_nat (pos + len)) s).

(** [slice o n c]: the [n] bytes of [c] starting at offset [o]. *)
Definition slice (o n : nat) (c : code_buffer) : code_buffer := firstn n (skipn o c).

(** ** Instruction templates (the [const char] arrays, without the final NUL) *)

Module Template.

Definition START : code_buffer :=
  [0x41; 0x54;  0x41; 0x55;  0x41; 0x56;  0x55;  0x53;
   0x49; 0x89; 0xfc;  0x49; 0x89; 0xf5;  0x49; 0x89; 0xd6;
   0x48; 0x89; 0xcd;  0x4c; 0x89; 0xc3].

Definition EXIT : code_buffer :=
  [0x5b;  0x5d;  0x41; 0x5e;  0x41; 0x5d;  0x41; 0x5c;  0xc3].

Definition LEFT : code_buffer := [0x48; 0x83; 0xeb; 0x01].
Definition RIGHT : code_buffer := [0x48; 0x83; 0xc3; 0x01].
Definition SUBTRACT : code_buffer := [0x8a; 0x03;  0x2c; 0x01;  0x88; 0x03].
Definition ADD : code_buffer := [0x8a; 0x03;  0x04; 0x01;  0x88; 0x03].
Definition READ : code_buffer :=
  [0x48; 0x89; 0xef;  0x41; 0xff; 0xd6;  0x48; 0x83; 0xf8; 0x00].
Definition READ_STORE : code_buffer := [0x48; 0x89; 0x03].
Definition WRITE : code_buffer :=
  [0x4c; 0x89; 0xef;  0x48; 0x0f; 0xb6; 0x33;  0x41; 0xff; 0xd4;
   0x48; 0x83; 0xf8; 0x01].
Definition LOOP_CMP : code_buffer := [0x80; 0x3b; 0x00].

(** The six bytes reserved for the loop's [je]. *)
Definition PLACEHOLDER : code_buffer := [0xde; 0xad; 0xbe; 0xef; 0xde; 0xad].

Definition JNE : code_buffer := [0x0f; 0x85].
Definition JL : code_buffer := [0x0f; 0x8c].
Definition JE : code_buffer := [0x0f; 0x84].
Definition JMP : code_buffer := [0xe9].
Definition JMP_SHORT : code_buffer := [0xeb].

End Template.
Import Template.

(** ** Source ranges

    An iterator range [[first, last)] of the source string is modelled by the
    list of characters it denotes; an iterator inside the range by its offset
    from [first]. *)

Definition source := list ascii.

Definition src (s : string) : source := list_ascii_of_string s.

Definition is_open (c : ascii) : bool := Ascii.eqb c "["%char.
Definition is_close (c : ascii) : bool := Ascii.eqb c "]"%char.

(** ** Build outcomes

    [Done] is a [true] return with the buffer; [Failed] is a [false] return,
    carrying the text printed on stderr; [Thrown] is the [std::out_of_range]
    of [string::replace]; [OutOfFuel] belongs to the model only. *)

Inductive outcome : Type :=
| Done (code : code_buffer)
| Failed (rest : source)
| Thrown
| OutOfFuel.

(** ** find_loop_end

    [s] is the range [[loop_start, string_end)].  The result is the offset of
    [*loop_end] from [loop_start].  [level] is a C [int]; it is kept as an
    unbounded integer (its overflow, which needs 2^31 open brackets, is
    undefined in C++). *)

Fixpoint find_loop_end_from (level : Z) (it : nat) (rest : source) : option nat :=
  match rest with
  | [] => None
  | c :: rest' =>
      if is_open c then find_loop_end_from (level + 1) (S it) rest'
      else if is_close c then
        let level := level - 1 in
        if level =? 0 then Some it
        else find_loop_end_from level (S it) rest'
      else find_loop_end_from level (S it) rest'
  end.

Definition find_loop_end (s : source) : option nat :=
  match s with
  | [] => None
  | _ :: rest => find_loop_end_from 1 1 rest
  end.

(** ** The relocation patcher and the emitters *)

Section Generator.

(** The member [exit_offset_] (declared in bf_jit.h as an integer). *)
Variable exit_offset_ : Z.

Definition add_jne_to_exit (code : code_buffer) : code_buffer :=
  let code := code ++ JNE in
  let relative_address :=
    to_uint32 (to_size_t (to_size_t exit_offset_ - (size code + 4))) in
  code ++ le_bytes 4 relative_address.

Definition add_jl_to_exit (code : code_buffer) : code_buffer :=
  let code := code ++ JL in
  let relative_address :=
    to_uint32 (to_size_t (to_size_t exit_offset_ - (size code + 4))) in
  code ++ le_bytes 4 relative_address.

Definition add_jmp_to_offset (offset : Z) (code : code_buffer) : code_buffer :=
  let code := code ++ JMP in
  let relative_address :=
    to_uint32 (to_size_t (to_size_t offset - (size code + 4))) in
  code ++ le_bytes 4 relative_address.

Definition add_jmp_to_exit (code : code_buffer) : code_buffer :=
  add_jmp_to_offset exit_offset_ code.

Definition generate_left_code (code : code_buffer) : code_buffer := code ++ LEFT.
Definition generate_right_code (code : code_buffer) : code_buffer := code ++ RIGHT.
Definition generate_subtract_code (code : code_buffer) : code_buffer := code ++ SUBTRACT.
Definition generate_add_code (code : code_buffer) : code_buffer := code ++ ADD.

Definition generate_read_code (code : code_buffer) : code_buffer :=
  add_jl_to_exit (code ++ READ) ++ READ_STORE.

Definition generate_write_code (code : code_buffer) : code_buffer :=
  add_jne_to_exit (code ++ WRITE).

(** [generate_loop_code(start, end, code)], with the recursive call to
    [generate_sequence_code] passed as [gen].  [range] is [[start, end)]:
    its head is the open bracket, its tail the loop body. *)
Definition generate_loop_code_with
    (gen : source -> code_buffer -> outcome)
    (range : source) (code : code_buffer) : outcome :=
  let loop_start := to_int (size code) in
  let code := code ++ LOOP_CMP in
  let jump_start := to_int (size code) in
  let code := code ++ PLACEHOLDER in
  match gen (tl range) code with
  | Done code =>
      let code := add_jmp_to_offset loop_start code in
      let jump_to_end := JE in
      let relative_end_of_loop :=
        to_uint32 (to_size_t
          (size code - to_size_t (to_size_t jump_start + size jump_to_end + 4))) in
      let jump_to_end := jump_to_end ++ le_bytes 4 relative_end_of_loop in
      match string_replace (to_size_t jump_start) (size jump_to_end) jump_to_end code with
      | Some code => Done code
      | None => Thrown
      end
  | other => other
  end.

(** [generate_sequence_code(start, end, code)] on the range [s].  One unit of
    fuel is spent per iteration of the [for] loop. *)
Fixpoint generate_sequence_code_fuel (fuel : nat) (s : source) (code : code_buffer)
  : outcome :=
  match fuel with
  | O => OutOfFuel
  | S fuel' =>
      match s with
      | [] => Done code
      | c :: rest =>
          if Ascii.eqb c "<" then
            generate_sequence_code_fuel fuel' rest (generate_left_code code)
          else if Ascii.eqb c ">" then
            generate_sequence_code_fuel fuel' rest (generate_right_code code)
          else if Ascii.eqb c "-" then
            generate_sequence_code_fuel fuel' rest (generate_subtract_code code)
          else if Ascii.eqb c "+" then
            generate_sequence_code_fuel fuel' rest (generate_add_code code)
          else if Ascii.eqb c "," then
            generate_sequence_code_fuel fuel' rest (generate_read_code code)
          else if Ascii.eqb c "." then
            generate_sequence_code_fuel fuel' rest (generate_write_code code)
          else if Ascii.eqb c "[" then
            match find_loop_end s with
            | None => Failed s
            | Some loop_end =>
                match generate_loop_code_with (generate_sequence_code_fuel fuel')
                        (firstn loop_end s) code with
                | Done code' =>
                    generate_sequence_code_fuel fuel' (skipn (S loop_end) s) code'
                | other => other
                end
            end
          else generate_sequence_code_fuel fuel' rest code
      end
  end.

(** The loop runs at most [length s] times and the recursion is on strictly
    shorter ranges, so [S (length s)] units always suffice. *)
Definition generate_sequence_code (s : source) (code : code_buffer) : outcome :=
  generate_sequence_code_fuel (S (length s)) s code.

Definition generate_loop_code (range : source) (code : code_buffer) : outcome :=
  generate_loop_code_with generate_sequence_code range code.

End Generator.

(** ** The operating system and the compiled-program object *)

Definition NULL : Z := 0.
Definition MAP_FAILED : Z := 2 ^ 64 - 1.   (* (void * ) -1 *)

(** What the host answers: [sysconf(_SC_PAGESIZE)], the pointer returned by
    [mmap] for a requested length, and the status returned by [mprotect]. *)
Record OS : Type := {
  os_pagesize : Z;
  os_mmap : Z -> Z;
  os_mprotect : Z -> Z -> Z
}.

(** What [fprintf] prints for a [%s] argument [string(it, end).c_str()]: the
    characters of the string up to its first NUL character. *)
Fixpoint c_str (s : source) : source :=
  match s with
  | [] => []
  | c :: s' => if Ascii.eqb c Ascii.zero then [] else c :: c_str s'
  end.

(** A diagnostic carries the text that is printed for its [%s]. *)
Inductive diagnostic : Type :=
| DiagLoopEnd (text : source)    (* "Unable to find loop end in block starting with: %s" *)
| DiagMmap                       (* "Error making memory executable: %s" *)
| DiagMprotect.                  (* "mprotect failed: %s" *)

Inductive event : Type :=
| EvStderr (d : diagnostic)
| EvMmap (len : Z)
| EvMemmove (dst : Z) (bytes : code_buffer)
| EvMprotect (addr len : Z).

Record BrainfuckProgram : Type := {
  exit_offset_ : Z;
  executable_ : Z
}.

(** [BrainfuckProgram::BrainfuckProgram() : executable_(NULL)]; the other
    member is left uninitialised and is passed in here. *)
Definition new_program (uninit : Z) : BrainfuckProgram :=
  {| exit_offset_ := uninit; executable_ := NULL |}.

(** The result of a call of [init]: [Some b] when it returns [b], [None] when
    it is left by an exception; the object afterwards; what it did. *)
Record init_result : Type := {
  returned : option bool;
  object : BrainfuckProgram;
  log : list event
}.

(** The buffer at the point where [generate_sequence_code] is called. *)
Definition init_prefix : code_buffer :=
  (START ++ JMP_SHORT ++ [size EXIT]) ++ EXIT.

Definition init_exit_offset : Z := size (START ++ JMP_SHORT ++ [size EXIT]).

(** The local [code] of [init] after [add_jmp_to_exit]. *)
Definition init_code (source : source) : outcome :=
  match generate_sequence_code init_exit_offset source init_prefix with
  | Done code => Done (add_jmp_to_exit init_exit_offset code)
  | other => other
  end.

Definition init (os : OS) (self : BrainfuckProgram) (source : source) : init_result :=
  let self := {| exit_offset_ := init_exit_offset; executable_ := executable_ self |} in
  match init_code source with
  | Done code =>
      let required_memory :=
        to_int (to_size_t ((size code / to_size_t (os_pagesize os) + 1)
                           * to_size_t (os_pagesize os))) in
      let len := to_size_t required_memory in
      let self := {| exit_offset_ := exit_offset_ self; executable_ := os_mmap os len |} in
      if executable_ self =? NULL then
        {| returned := Some false; object := self;
           log := [EvMmap len; EvStderr DiagMmap] |}
      else
        if negb (os_mprotect os (executable_ self) len =? 0) then
          {| returned := Some false; object := self;
             log := [EvMmap len; EvMemmove (executable_ self) code;
                     EvMprotect (executable_ self) len; EvStderr DiagMprotect] |}
        else
          {| returned := Some true; object := self;
             log := [EvMmap len; EvMemmove (executable_ self) code;
                     EvMprotect (executable_ self) len] |}
  | Failed rest =>
      {| returned := Some false; object := self;
         log := [EvStderr (DiagLoopEnd (c_str rest))] |}
  | Thrown | OutOfFuel =>
      {| returned := None; object := self; log := [] |}
  end.

(** ** Nesting depth of a source range, as the specification words it *)

Definition bracket_value (c : ascii) : Z :=
  if is_open c then 1 else if is_close c then -1 else 0.

(** Opens minus closes. *)
Fixpoint depth (l : source) : Z :=
  match l with
  | [] => 0
  | c :: l' => bracket_value c + depth l'
  end.

(** The depth after the characters [chars] that follow an open bracket: it
    starts at 1, goes up on an open and down on a close bracket. *)
Definition nesting_depth (chars : source) : Z := 1 + depth chars.

(** An open bracket followed by [post] is unmatched when the depth never
    falls back below its own level. *)
Definition unmatched_after (post : source) : Prop :=
  forall k : nat, 0 <= depth (firstn k post).

Definition matched_after (post : source) : Prop :=
  exists k : nat, depth (firstn k post) < 0.

Definition has_unmatched_open (s : source) : Prop :=
  exists pre post, s = pre ++ "["%char :: post /\ unmatched_after post.

Definition all_open_matched (s : source) : Prop :=
  forall pre post, s = pre ++ "["%char :: post -> matched_after post.

(** A close bracket preceded by [pre] is unmatched when no open bracket
    before it is still waiting for it. *)
Definition unmatched_close_before (pre : source) : Prop :=
  forall k : nat, depth (skipn k pre) <= 0.

(** ** Arithmetic of the displacement fields *)

Section Arithmetic.

Lemma le_value_le_bytes (n : nat) : forall x, le_value (le_bytes n x) = x mod 256 ^ Z.of_nat n.
Proof.
  induction n as [|n IH]; intro x.
  - simpl. now rewrite Z.mod_1_r.
  - cbn [le_bytes le_value]. rewrite IH.
    rewrite Nat2Z.inj_succ, Z.pow_succ_r by lia.
    rewrite Z.rem_mul_r; [reflexivity | lia | apply Z.pow_pos_nonneg; lia].
Qed.

Lemma le_value_le_bytes4 x : le_value (le_bytes 4 x) = x mod 2 ^ 32.
Proof. now rewrite le_value_le_bytes. Qed.

Lemma length_le_bytes n x : length (le_bytes n x) = n.
Proof. revert x; induction n; intro x; simpl; [reflexivity | now rewrite IHn]. Qed.

Lemma mod64_mod32 x : (x mod 2 ^ 64) mod 2 ^ 32 = x mod 2 ^ 32.
Proof.
  change (2 ^ 64) with (2 ^ 32 * 2 ^ 32).
  rewrite Z.rem_mul_r by lia.
  rewrite Z.mul_comm, Z.mod_add by lia. apply Z.mod_mod; lia.
Qed.

(** The three conversions of [uint32_t r = target - (size + 4)] collapse to
    one reduction modulo 2^32. *)
Lemma relative_address_eq target sz :
  to_uint32 (to_size_t (to_size_t target - (sz + 4))) = to_uint32 (target - (sz + 4)).
Proof.
  unfold to_uint32, to_size_t. rewrite mod64_mod32.
  rewrite Zminus_mod, mod64_mod32, <- Zminus_mod. reflexivity.
Qed.

Lemma signed32_wrap x :
  - 2 ^ 31 <= x < 2 ^ 31 -> signed 32 (to_uint32 x) = x.
Proof.
  intros Hx. unfold signed, to_uint32. change (2 ^ (32 - 1)) with (2 ^ 31).
  destruct (Z_lt_ge_dec x 0) as [Hneg|Hpos].
  - replace (x mod 2 ^ 32) with (x + 2 ^ 32).
    + destruct (Z.ltb_spec (x + 2 ^ 32) (2 ^ 31)); lia.
    + apply Z.mod_unique with (q := -1); lia.
  - rewrite Z.mod_small by lia.
    destruct (Z.ltb_spec x (2 ^ 31)); lia.
Qed.

Lemma to_int_small x : 0 <= x <= INT_MAX -> to_int x = x.
Proof.
  unfold to_int, INT_MAX. intros Hx. rewrite Z.mod_small by lia.
  destruct (Z.ltb_spec x (2 ^ 31)); lia.
Qed.

Lemma to_size_t_small x : 0 <= x < 2 ^ 64 -> to_size_t x = x.
Proof. intros; unfold to_size_t; now apply Z.mod_small. Qed.

Lemma size_app (a b : code_buffer) : size (a ++ b) = size a + size b.
Proof. unfold size. rewrite length_app. lia. Qed.

Lemma size_nonneg (a : code_buffer) : 0 <= size a.
Proof. unfold size. lia. Qed.

Lemma slice_app_exact (a b : code_buffer) :
  slice (length a) (length b) (a ++ b) = b.
Proof.
  unfold slice. rewrite skipn_app, skipn_all, Nat.sub_diag. simpl.
  apply firstn_all.
Qed.

End Arithmetic.

(** ** Relocations *)

(** The 4-byte field at offset [field] of [buf] is the last thing in the
    buffer and holds [target - (field + 4)] in two's complement, little
    endian: its bytes are those of the value reduced modulo 2^32, and read
    back as a signed number they give the value itself whenever a signed
    32-bit number can hold it. *)
Definition displacement_written (buf : code_buffer) (field target : Z) : Prop :=
  size buf = field + 4 /\
  slice (Z.to_nat field) 4 buf = le_bytes 4 (to_uint32 (target - (field + 4))) /\
  (- 2 ^ 31 <= target - (field + 4) < 2 ^ 31 ->
   le_signed32 (slice (Z.to_nat field) 4 buf) = target - (field + 4)).

Lemma displacement_written_intro (code opcode : code_buffer) (target : Z) :
  displacement_written
    ((code ++ opcode) ++
       le_bytes 4 (to_uint32 (to_size_t (to_size_t target - (size (code ++ opcode) + 4)))))
    (size code + size opcode) target.
Proof.
  rewrite relative_address_eq, size_app.
  set (field := size code + size opcode).
  set (v := to_uint32 (target - (field + 4))).
  assert (Hs : slice (Z.to_nat field) 4 ((code ++ opcode) ++ le_bytes 4 v) = le_bytes 4 v).
  { replace (Z.to_nat field) with (length (code ++ opcode)).
    - change 4%nat with (length (le_bytes 4 v)) at 1. apply slice_app_exact.
    - unfold field, size. rewrite length_app. lia. }
  repeat split.
  - rewrite size_app. fold (size code). unfold size at 2.
    rewrite length_le_bytes. rewrite size_app. reflexivity.
  - exact Hs.
  - intros Hr. rewrite Hs. unfold le_signed32.
    rewrite le_value_le_bytes4. unfold v.
    unfold to_uint32 at 1. unfold to_uint32. rewrite Z.mod_mod by lia.
    now apply signed32_wrap.
Qed.

(** C4.  Each patcher appends its opcode and then a 4-byte little-endian
    two's-complement field holding target - (field offset + 4): the
    conditional jumps to the exit ([jne], [jl]) and the unconditional jump to
    a known offset. *)
Theorem relocation_displacement (exit_offset offset : Z) (code : code_buffer) :
  (firstn (length code + 2) (add_jne_to_exit exit_offset code) = code ++ JNE /\
   displacement_written (add_jne_to_exit exit_offset code) (size code + 2) exit_offset) /\
  (firstn (length code + 2) (add_jl_to_exit exit_offset code) = code ++ JL /\
   displacement_written (add_jl_to_exit exit_offset code) (size code + 2) exit_offset) /\
  (firstn (length code + 1) (add_jmp_to_offset offset code) = code ++ JMP /\
   displacement_written (add_jmp_to_offset offset code) (size code + 1) offset).
Proof.
  unfold add_jne_to_exit, add_jl_to_exit, add_jmp_to_offset.
  repeat split;
    try (rewrite firstn_app, firstn_all2 by (rewrite length_app; simpl; lia);
         rewrite length_app; simpl length;
         match goal with |- _ ++ firstn ?k _ = _ => replace k with 0%nat by lia end;
         simpl; now rewrite app_nil_r);
    try apply (displacement_written_intro code JNE exit_offset);
    try apply (displacement_written_intro code JL exit_offset);
    try apply (displacement_written_intro code JMP offset).
Qed.

(** ** The loop matcher *)

Section LoopMatcher.

Lemma depth_app (a b : source) : depth (a ++ b) = depth a + depth b.
Proof. induction a as [|c a IH]; simpl; [reflexivity | rewrite IH; lia]. Qed.

Lemma bracket_value_open : bracket_value "[" = 1.
Proof. reflexivity. Qed.

Lemma bracket_value_close : bracket_value "]" = -1.
Proof. reflexivity. Qed.

Lemma is_open_true c : is_open c = true -> c = "["%char.
Proof. unfold is_open. now intros H%Ascii.eqb_eq. Qed.

Lemma is_close_true c : is_close c = true -> c = "]"%char.
Proof. unfold is_close. now intros H%Ascii.eqb_eq. Qed.

(** What the scan returns, in terms of the running level
    [level + depth (firstn m rest)] after [m] characters. *)
Lemma find_loop_end_from_spec (rest : source) :
  forall level it, 1 <= level ->
  match find_loop_end_from level it rest with
  | Some k =>
      exists j : nat,
        k = (it + j)%nat /\ (j < length rest)%nat /\
        nth j rest "0"%char = "]"%char /\
        level + depth (firstn (S j) rest) = 0 /\
        forall m : nat, (m <= j)%nat -> 1 <= level + depth (firstn m rest)
  | None => forall m : nat, 1 <= level + depth (firstn m rest)
  end.
Proof.
  induction rest as [|c rest IH]; intros level it Hl.
  - simpl. intro m. rewrite firstn_nil. simpl. lia.
  - cbn [find_loop_end_from].
    destruct (is_open c) eqn:Ho.
    + specialize (IH (level + 1) (S it) ltac:(lia)).
      assert (Hv : bracket_value c = 1) by (unfold bracket_value; now rewrite Ho).
      destruct (find_loop_end_from (level + 1) (S it) rest) as [k|].
      * destruct IH as (j & -> & Hj & Hn & Hz & Hpos).
        exists (S j). repeat split; [lia | simpl; lia | exact Hn | |].
        -- cbn [firstn depth]. rewrite Hv. cbn [firstn] in Hz. lia.
        -- intros [|m] Hm; simpl; [lia|]. rewrite Hv.
           specialize (Hpos m ltac:(lia)). lia.
      * intros [|m]; simpl; [lia|]. rewrite Hv. specialize (IH m). lia.
    + destruct (is_close c) eqn:Hc.
      * assert (Hv : bracket_value c = -1)
          by (unfold bracket_value; now rewrite Ho, Hc).
        cbv zeta. destruct (Z.eqb_spec (level - 1) 0) as [Hz|Hnz].
        -- exists 0%nat. repeat split; [lia | simpl; lia | | |].
           ++ simpl. now apply is_close_true.
           ++ simpl. rewrite Hv. lia.
           ++ intros m Hm. replace m with 0%nat by lia. simpl. lia.
        -- specialize (IH (level - 1) (S it) ltac:(lia)).
           destruct (find_loop_end_from (level - 1) (S it) rest) as [k|].
           ++ destruct IH as (j & -> & Hj & Hn & Hz & Hpos).
              exists (S j). repeat split; [lia | simpl; lia | exact Hn | |].
              ** cbn [firstn depth]. rewrite Hv. cbn [firstn] in Hz. lia.
              ** intros [|m] Hm; simpl; [lia|]. rewrite Hv.
                 specialize (Hpos m ltac:(lia)). lia.
           ++ intros [|m]; simpl; [lia|]. rewrite Hv. specialize (IH m). lia.
      * assert (Hv : bracket_value c = 0)
          by (unfold bracket_value; now rewrite Ho, Hc).
        specialize (IH level (S it) Hl).
        destruct (find_loop_end_from level (S it) rest) as [k|].
        -- destruct IH as (j & -> & Hj & Hn & Hz & Hpos).
           exists (S j). repeat split; [lia | simpl; lia | exact Hn | |].
           ++ cbn [firstn depth]. rewrite Hv. cbn [firstn] in Hz. lia.
           ++ intros [|m] Hm; simpl; [lia|]. rewrite Hv.
              specialize (Hpos m ltac:(lia)). lia.
        -- intros [|m]; simpl; [lia|]. rewrite Hv. specialize (IH m). lia.
Qed.

(** The two results of [find_loop_end] on a range [c0 :: rest]. *)
Lemma find_loop_end_some (c0 : ascii) (rest : source) (k : nat) :
  find_loop_end (c0 :: rest) = Some k ->
  (1 <= k <= length rest)%nat /\
  nth (k - 1) rest "0"%char = "]"%char /\
  depth (firstn k rest) = -1 /\
  forall m : nat, (m < k)%nat -> 0 <= depth (firstn m rest).
Proof.
  intro H. unfold find_loop_end in H.
  pose proof (find_loop_end_from_spec rest 1 1 ltac:(lia)) as S.
  rewrite H in S. destruct S as (j & -> & Hj & Hn & Hz & Hpos).
  replace (1 + j - 1)%nat with j by lia.
  repeat split; [lia | lia | exact Hn | change (1 + j)%nat with (S j); lia |].
  intros m Hm. specialize (Hpos m ltac:(lia)). lia.
Qed.

Lemma find_loop_end_none (c0 : ascii) (rest : source) :
  find_loop_end (c0 :: rest) = None -> unmatched_after rest.
Proof.
  intros H k. unfold find_loop_end in H.
  pose proof (find_loop_end_from_spec rest 1 1 ltac:(lia)) as S.
  rewrite H in S. specialize (S k). lia.
Qed.

Lemma find_loop_end_matched (c0 : ascii) (rest : source) :
  matched_after rest -> exists k, find_loop_end (c0 :: rest) = Some k.
Proof.
  intros [k Hk]. destruct (find_loop_end (c0 :: rest)) as [j|] eqn:E.
  - now exists j.
  - apply find_loop_end_none in E. specialize (E k). lia.
Qed.

End LoopMatcher.

(** C6.  On the range that starts at the open bracket [c0] and continues with
    [rest], [find_loop_end] follows a depth that starts at 1, goes up on an
    open and down on a close bracket; it returns the offset [k] (from the
    open bracket) of the character at which the depth is 0 for the first
    time, and it reports not-found exactly when the range ends before the
    depth has reached 0. *)
Theorem find_loop_end_first_zero_depth (c0 : ascii) (rest : source) :
  nesting_depth [] = 1 /\
  (forall c l, nesting_depth (l ++ [c]) =
     nesting_depth l + (if is_open c then 1 else if is_close c then -1 else 0)) /\
  match find_loop_end (c0 :: rest) with
  | Some k =>
      (1 <= k <= length rest)%nat /\
      nth k (c0 :: rest) "0"%char = "]"%char /\
      nesting_depth (firstn k rest) = 0 /\
      forall m : nat, (m < k)%nat -> 0 < nesting_depth (firstn m rest)
  | None =>
      forall m : nat, 0 < nesting_depth (firstn m rest)
  end.
Proof.
  split; [reflexivity|]. split.
  { intros c l. unfold nesting_depth. rewrite depth_app. cbn [depth].
    unfold bracket_value. destruct (is_open c), (is_close c); lia. }
  destruct (find_loop_end (c0 :: rest)) as [k|] eqn:E.
  - apply find_loop_end_some in E. destruct E as (Hk & Hn & Hd & Hpos).
    unfold nesting_depth. repeat split; try lia.
    + destruct k as [|k]; [lia|]. simpl. now replace (S k - 1)%nat with k in Hn by lia.
    + intros m Hm. specialize (Hpos m Hm). lia.
  - apply find_loop_end_none in E. intro m. unfold nesting_depth.
    specialize (E m). lia.
Qed.

(** ** Structure of the generated code *)

(** What a character other than an open bracket appends. *)
Inductive fragment : Type :=
| FLeft | FRight | FSubtract | FAdd | FRead | FWrite | FNone.

Definition fragment_of (c : ascii) : option fragment :=
  if Ascii.eqb c "<" then Some FLeft
  else if Ascii.eqb c ">" then Some FRight
  else if Ascii.eqb c "-" then Some FSubtract
  else if Ascii.eqb c "+" then Some FAdd
  else if Ascii.eqb c "," then Some FRead
  else if Ascii.eqb c "." then Some FWrite
  else if Ascii.eqb c "[" then None
  else Some FNone.

(** A relative jump whose displacement field starts at [field]. *)
Definition rel32 (target field : Z) : code_buffer :=
  le_bytes 4 (to_uint32 (target - (field + 4))).

Definition fragment_bytes (exit lo : Z) (f : fragment) : code_buffer :=
  match f with
  | FLeft => LEFT
  | FRight => RIGHT
  | FSubtract => SUBTRACT
  | FAdd => ADD
  | FRead => READ ++ (JL ++ rel32 exit (lo + 12)) ++ READ_STORE
  | FWrite => WRITE ++ (JNE ++ rel32 exit (lo + 16))
  | FNone => []
  end.

Definition fragment_size (f : fragment) : Z :=
  match f with
  | FLeft | FRight => 4
  | FSubtract | FAdd => 6
  | FRead => 19
  | FWrite => 20
  | FNone => 0
  end.

(** The shape of the code of a source range: fragments and loops. *)
Inductive layout : Type :=
| LEnd
| LFrag (f : fragment) (k : layout)
| LLoop (body k : layout).

Fixpoint layout_size (p : layout) : Z :=
  match p with
  | LEnd => 0
  | LFrag f k => fragment_size f + layout_size k
  | LLoop b k => 9 + layout_size b + 5 + layout_size k
  end.

(** The bytes of a layout placed at offset [lo]. *)
Fixpoint encode (exit lo : Z) (p : layout) : code_buffer :=
  match p with
  | LEnd => []
  | LFrag f k => fragment_bytes exit lo f ++ encode exit (lo + fragment_size f) k
  | LLoop b k =>
      let after := lo + 9 + layout_size b + 5 in
      LOOP_CMP ++ (JE ++ rel32 after (lo + 5))
        ++ encode exit (lo + 9) b
        ++ (JMP ++ rel32 lo (lo + 9 + layout_size b + 1))
        ++ encode exit after k
  end.

Section GeneratorFacts.

Variable exit : Z.

Local Abbreviation gen := (generate_sequence_code_fuel exit).

Lemma size_le_bytes n x : size (le_bytes n x) = Z.of_nat n.
Proof. unfold size. now rewrite length_le_bytes. Qed.

Lemma size_fragment_bytes lo f : size (fragment_bytes exit lo f) = fragment_size f.
Proof. destruct f; reflexivity. Qed.

Lemma layout_size_nonneg p : 0 <= layout_size p.
Proof.
  induction p as [|f k IH|b IHb k IHk]; cbn [layout_size]; [lia | | lia].
  destruct f; cbn [fragment_size]; lia.
Qed.

Lemma size_encode p : forall lo, size (encode exit lo p) = layout_size p.
Proof.
  induction p as [|f k IH|b IHb k IHk]; intro lo; cbn [encode layout_size].
  - reflexivity.
  - now rewrite size_app, size_fragment_bytes, IH.
  - unfold rel32. rewrite !size_app, IHb, IHk, !size_le_bytes.
    change (size LOOP_CMP) with 3. change (size JE) with 2.
    change (size JMP) with 1. lia.
Qed.

(** One iteration of the [for] loop, by the kind of the character. *)
Lemma generate_sequence_code_step (fuel : nat) (c : ascii) (rest : source)
      (code : code_buffer) :
  gen (S fuel) (c :: rest) code =
  match fragment_of c with
  | Some f => gen fuel rest (code ++ fragment_bytes exit (size code) f)
  | None =>
      match find_loop_end (c :: rest) with
      | None => Failed (c :: rest)
      | Some loop_end =>
          match generate_loop_code_with (gen fuel)
                  (firstn loop_end (c :: rest)) code with
          | Done code' => gen fuel (skipn (S loop_end) (c :: rest)) code'
          | other => other
          end
      end
  end.
Proof.
  cbn [generate_sequence_code_fuel]. unfold fragment_of.
  repeat match goal with
         | |- context [Ascii.eqb c ?x] => destruct (Ascii.eqb c x)
         end; try reflexivity.
  - unfold generate_read_code, add_jl_to_exit, fragment_bytes, rel32.
    rewrite relative_address_eq, !size_app.
    change (size READ) with 10. change (size JL) with 2.
    rewrite <- !app_assoc. do 7 f_equal. lia.
  - unfold generate_write_code, add_jne_to_exit, fragment_bytes, rel32.
    rewrite relative_address_eq, !size_app.
    change (size WRITE) with 14. change (size JNE) with 2.
    rewrite <- !app_assoc. do 7 f_equal. lia.
  - now rewrite app_nil_r.
Qed.

Lemma fragment_of_open c : fragment_of c = None -> c = "["%char.
Proof.
  unfold fragment_of.
  repeat match goal with
         | |- context [Ascii.eqb c ?x] => destruct (Ascii.eqb_spec c x)
         end; congruence.
Qed.

(** Fuel beyond the length of the range changes nothing. *)
Lemma generate_sequence_code_fuel_enough (fuel : nat) :
  forall fuel' s code,
    (length s < fuel)%nat -> (length s < fuel')%nat ->
    gen fuel s code = gen fuel' s code /\ gen fuel s code <> OutOfFuel.
Proof.
  induction fuel as [|fuel IH]; intros fuel' s code Hf Hf'; [lia|].
  destruct fuel' as [|fuel']; [lia|].
  destruct s as [|c rest]; [split; [reflexivity | discriminate]|].
  rewrite !generate_sequence_code_step. simpl in Hf, Hf'.
  destruct (fragment_of c) as [f|].
  - apply IH; lia.
  - destruct (find_loop_end (c :: rest)) as [k|] eqn:E;
      [|split; [reflexivity | discriminate]].
    apply find_loop_end_some in E. destruct E as (Hk & _).
    unfold generate_loop_code_with.
    assert (Hb : (length (tl (firstn k (c :: rest))) < fuel)%nat).
    { destruct k as [|k]; [lia|]. cbn [firstn tl]. rewrite length_firstn. lia. }
    assert (Hb' : (length (tl (firstn k (c :: rest))) < fuel')%nat).
    { destruct k as [|k]; [lia|]. cbn [firstn tl]. rewrite length_firstn. lia. }
    destruct (IH fuel' (tl (firstn k (c :: rest)))
                ((code ++ LOOP_CMP) ++ PLACEHOLDER) Hb Hb') as [-> Hne].
    destruct (gen fuel' (tl (firstn k (c :: rest))) ((code ++ LOOP_CMP) ++ PLACEHOLDER))
      as [out| | |]; try (split; [reflexivity | congruence]).
    match goal with
    | |- context [string_replace ?a ?b ?c ?d] => destruct (string_replace a b c d)
    end; [|split; [reflexivity | discriminate]].
    apply IH; cbn [skipn]; rewrite length_skipn; lia.
Qed.

Lemma generate_sequence_code_fuel_eq (fuel : nat) (s : source) (code : code_buffer) :
  (length s < fuel)%nat -> gen fuel s code = generate_sequence_code exit s code.
Proof.
  intro H. unfold generate_sequence_code.
  apply generate_sequence_code_fuel_enough; lia.
Qed.

(** C++ [replace] in the middle of a buffer. *)
Lemma string_replace_mid (a b str c : code_buffer) :
  string_replace (size a) (size b) str (a ++ b ++ c) = Some (a ++ str ++ c).
Proof.
  unfold string_replace.
  destruct (Z.ltb_spec (size (a ++ b ++ c)) (size a)) as [H|H].
  - rewrite !size_app in H. pose proof (size_nonneg b). pose proof (size_nonneg c). lia.
  - f_equal. unfold size. rewrite Nat2Z.id.
    rewrite firstn_app, firstn_all, Nat.sub_diag. cbn [firstn]. rewrite app_nil_r.
    f_equal. f_equal.
    replace (Z.to_nat (Z.of_nat (length a) + Z.of_nat (length b)))
      with (length a + length b)%nat by lia.
    rewrite app_assoc, skipn_app, skipn_all2 by (rewrite length_app; lia).
    rewrite length_app, Nat.sub_diag. reflexivity.
Qed.

(** The loop generator on a buffer small enough for [int] offsets, when the
    body has been generated as an extension [ext] of the buffer. *)
Lemma generate_loop_code_with_done
      (g : source -> code_buffer -> outcome) (range : source)
      (code ext : code_buffer) :
  size code + 9 + size ext + 5 <= INT_MAX ->
  g (tl range) ((code ++ LOOP_CMP) ++ PLACEHOLDER)
    = Done (((code ++ LOOP_CMP) ++ PLACEHOLDER) ++ ext) ->
  generate_loop_code_with g range code =
  Done (code ++ LOOP_CMP
          ++ (JE ++ rel32 (size code + 9 + size ext + 5) (size code + 5))
          ++ ext
          ++ (JMP ++ rel32 (size code) (size code + 9 + size ext + 1))).
Proof.
  intros Hsz Hg. unfold generate_loop_code_with. rewrite Hg.
  pose proof (size_nonneg code) as Hc. pose proof (size_nonneg ext) as He.
  unfold INT_MAX in Hsz.
  rewrite !size_app. change (size LOOP_CMP) with 3.
  rewrite (to_int_small (size code)) by (unfold INT_MAX; lia).
  rewrite (to_int_small (size code + 3)) by (unfold INT_MAX; lia).
  unfold add_jmp_to_offset. rewrite relative_address_eq.
  rewrite (to_size_t_small (size code + 3)) by lia.
  rewrite !size_app. change (size LOOP_CMP) with 3. change (size PLACEHOLDER) with 6.
  change (size JMP) with 1. change (size JE) with 2.
  rewrite (to_size_t_small (size code + 3 + 2 + 4)) by lia.
  rewrite !size_le_bytes. change (Z.of_nat 4) with 4.
  rewrite (to_size_t_small (size code + 3 + 6 + size ext + 1 + 4 - (size code + 3 + 2 + 4))) by lia.
  replace (((((code ++ LOOP_CMP) ++ PLACEHOLDER) ++ ext) ++ JMP) ++
           le_bytes 4 (to_uint32 (size code - (size code + 3 + 6 + size ext + 1 + 4))))
    with ((code ++ LOOP_CMP) ++ PLACEHOLDER ++
          (ext ++ JMP ++ rel32 (size code) (size code + 9 + size ext + 1))).
  2:{ unfold rel32. rewrite <- !app_assoc. do 7 f_equal. lia. }
  replace (size code + 3) with (size (code ++ LOOP_CMP)) at 1
    by (now rewrite size_app).
  change (2 + 4) with (size PLACEHOLDER).
  rewrite string_replace_mid. f_equal.
  unfold rel32. rewrite <- !app_assoc. do 6 f_equal. lia.
Qed.

End GeneratorFacts.

(** ** What the sequence generator returns *)

Section SequenceFacts.

Variable exit : Z.

Local Abbreviation gen := (generate_sequence_code_fuel exit).

Lemma firstn_succ_nth (m : nat) (l : source) (d : ascii) :
  (m < length l)%nat -> firstn (S m) l = firstn m l ++ [nth m l d].
Proof.
  revert l. induction m as [|m IH]; intros [|c l] H; simpl in *; try lia.
  - reflexivity.
  - f_equal. apply IH. lia.
Qed.

(** The body of a matched loop is balanced and ends at depth 0. *)
Lemma loop_body_depth (c0 : ascii) (rest : source) (k : nat) :
  find_loop_end (c0 :: rest) = Some k -> depth (firstn (k - 1) rest) = 0.
Proof.
  intro H. apply find_loop_end_some in H. destruct H as (Hk & Hn & Hd & _).
  replace k with (S (k - 1)) in Hd by lia.
  rewrite (firstn_succ_nth _ _ "0"%char) in Hd by lia.
  rewrite depth_app, Hn in Hd. cbn [depth] in Hd.
  rewrite bracket_value_close in Hd. lia.
Qed.

Lemma loop_ranges (c0 : ascii) (rest : source) (k : nat) :
  (1 <= k)%nat ->
  tl (firstn k (c0 :: rest)) = firstn (k - 1) rest /\
  skipn (S k) (c0 :: rest) = skipn k rest.
Proof.
  intro H. destruct k as [|k]; [lia|]. cbn [firstn tl skipn].
  now replace (S k - 1)%nat with k by lia.
Qed.

Lemma loop_body_all_matched (c0 : ascii) (rest : source) (k : nat) :
  find_loop_end (c0 :: rest) = Some k -> all_open_matched (firstn (k - 1) rest).
Proof.
  intros H pre post Heq.
  pose proof (loop_body_depth _ _ _ H) as Hd0.
  apply find_loop_end_some in H. destruct H as (Hk & _ & _ & Hpos).
  assert (Hlen : (length pre < k - 1)%nat).
  { apply (f_equal (@length _)) in Heq. rewrite length_firstn, length_app in Heq.
    simpl in Heq. lia. }
  exists (length post). rewrite firstn_all.
  rewrite Heq, depth_app in Hd0. cbn [depth] in Hd0.
  rewrite bracket_value_open in Hd0.
  specialize (Hpos (length pre) ltac:(lia)).
  assert (depth pre = depth (firstn (length pre) rest)).
  { f_equal. rewrite <- (firstn_skipn (k - 1) rest).
    rewrite Heq. rewrite <- app_assoc.
    now rewrite firstn_app, firstn_all, Nat.sub_diag, app_nil_r. }
  lia.
Qed.

(** With sizes in the range of [int], a finished sequence is the buffer it
    started from followed by the encoding of a layout, and nothing is
    thrown. *)
Lemma generate_sequence_code_layout (fuel : nat) :
  forall s code,
    (length s < fuel)%nat ->
    size code + 20 * Z.of_nat (length s) <= INT_MAX ->
    match gen fuel s code with
    | Done out =>
        exists p, out = code ++ encode exit (size code) p /\
                  layout_size p <= 20 * Z.of_nat (length s)
    | Failed _ => True
    | Thrown | OutOfFuel => False
    end.
Proof.
  induction fuel as [|fuel IH]; intros s code Hf Hsz; [lia|].
  destruct s as [|c rest].
  - simpl. exists LEnd. simpl. split; [now rewrite app_nil_r | lia].
  - rewrite generate_sequence_code_step. cbn [length] in Hf, Hsz.
    pose proof (size_nonneg code) as Hc.
    destruct (fragment_of c) as [f|] eqn:Ef.
    + specialize (IH rest (code ++ fragment_bytes exit (size code) f) ltac:(lia)).
      rewrite size_app, size_fragment_bytes in IH.
      assert (Hfs : 0 <= fragment_size f <= 20) by (destruct f; simpl; lia).
      specialize (IH ltac:(lia)).
      destruct (gen fuel rest (code ++ fragment_bytes exit (size code) f))
        as [out| | |]; try exact IH.
      destruct IH as (p & -> & Hp). exists (LFrag f p). cbn [encode layout_size length].
      split; [now rewrite <- app_assoc | lia].
    + destruct (find_loop_end (c :: rest)) as [k|] eqn:E; [|exact I].
      pose proof (find_loop_end_some _ _ _ E) as (Hk & _).
      destruct (loop_ranges c rest k ltac:(lia)) as [Hbody Hrest].
      rewrite Hrest.
      pose proof (IH (firstn (k - 1) rest) ((code ++ LOOP_CMP) ++ PLACEHOLDER)) as IHb.
      rewrite length_firstn in IHb. rewrite !size_app in IHb.
      change (size LOOP_CMP) with 3 in IHb. change (size PLACEHOLDER) with 6 in IHb.
      specialize (IHb ltac:(lia) ltac:(lia)).
      destruct (gen fuel (firstn (k - 1) rest) ((code ++ LOOP_CMP) ++ PLACEHOLDER))
        as [out1| | |] eqn:Eb.
      * destruct IHb as (b & -> & Hb).
        pose proof (layout_size_nonneg b) as Hb0.
        rewrite (generate_loop_code_with_done (gen fuel) (firstn k (c :: rest)) code
                   (encode exit (size code + 3 + 6) b)).
        2:{ rewrite size_encode. lia. }
        2:{ rewrite Hbody. exact Eb. }
        rewrite size_encode.
        match goal with |- match gen fuel _ ?c3 with _ => _ end =>
          set (code3 := c3) end.
        assert (Hs3 : size code3 = size code + 9 + layout_size b + 5).
        { unfold code3, rel32. rewrite !size_app, size_encode, !size_le_bytes.
          change (size LOOP_CMP) with 3. change (size JE) with 2.
          change (size JMP) with 1. lia. }
        pose proof (IH (skipn k rest) code3) as IHk.
        rewrite length_skipn, Hs3 in IHk.
        specialize (IHk ltac:(lia) ltac:(lia)).
        destruct (gen fuel (skipn k rest) code3) as [out| | |]; try exact IHk.
        destruct IHk as (pk & -> & Hpk).
        exists (LLoop b pk). cbn [encode layout_size length]. split; [|lia].
        unfold code3. rewrite <- !app_assoc.
        replace (size code + 3 + 6) with (size code + 9) by lia.
        reflexivity.
      * unfold generate_loop_code_with. rewrite Hbody, Eb. exact I.
      * destruct IHb.
      * destruct IHb.
Qed.

(** A range with an unmatched open bracket never yields a buffer. *)
Lemma generate_sequence_code_unmatched (fuel : nat) :
  forall s code,
    has_unmatched_open s -> forall out, gen fuel s code <> Done out.
Proof.
  induction fuel as [|fuel IH]; intros s code Hun out; [discriminate|].
  destruct Hun as (pre & post & Heq & Hun).
  destruct s as [|c rest]; [now destruct pre|].
  rewrite generate_sequence_code_step.
  destruct (fragment_of c) as [f|] eqn:Ef.
  - apply IH. destruct pre as [|c' pre'].
    + injection Heq as -> _. discriminate.
    + injection Heq as _ ->. now exists pre', post.
  - destruct (find_loop_end (c :: rest)) as [k|] eqn:E; [|discriminate].
    pose proof (find_loop_end_some _ _ _ E) as (Hk & Hn & Hd & Hpos).
    destruct (loop_ranges c rest k ltac:(lia)) as [_ Hrest]. rewrite Hrest.
    destruct (generate_loop_code_with (gen fuel) (firstn k (c :: rest)) code)
      as [code'| | |]; try discriminate.
    apply IH. destruct pre as [|c' pre'].
    + injection Heq as _ ->. specialize (Hun k). lia.
    + injection Heq as _ ->.
      destruct (Nat.lt_ge_cases (length pre') k) as [Hlt|Hge].
      * exfalso.
        assert (Hne : length pre' <> (k - 1)%nat).
        { intro Heq. rewrite <- Heq in Hn.
          rewrite app_nth2, Nat.sub_diag in Hn by lia. discriminate. }
        rewrite firstn_app in Hd.
        rewrite firstn_all2 in Hd by lia.
        replace (k - length pre')%nat with (S (k - length pre' - 1)) in Hd by lia.
        cbn [firstn] in Hd. rewrite depth_app in Hd. cbn [depth] in Hd.
        rewrite bracket_value_open in Hd.
        specialize (Hun (k - length pre' - 1)%nat).
        specialize (Hpos (length pre') Hlt).
        rewrite firstn_app, firstn_all, Nat.sub_diag in Hpos.
        cbn [firstn] in Hpos. rewrite app_nil_r in Hpos. lia.
      * exists (skipn k pre'), post. split; [|exact Hun].
        rewrite skipn_app.
        replace (k - length pre')%nat with 0%nat by lia. reflexivity.
Qed.

(** A range in which every open bracket is matched never fails. *)
Lemma generate_sequence_code_matched (fuel : nat) :
  forall s code,
    all_open_matched s -> forall d, gen fuel s code <> Failed d.
Proof.
  induction fuel as [|fuel IH]; intros s code Hm d; [discriminate|].
  destruct s as [|c rest]; [discriminate|].
  rewrite generate_sequence_code_step.
  destruct (fragment_of c) as [f|] eqn:Ef.
  - apply IH. intros pre post Heq. apply (Hm (c :: pre) post). now rewrite Heq.
  - apply fragment_of_open in Ef. subst c.
    destruct (find_loop_end_matched "[" rest (Hm [] rest eq_refl)) as [k E].
    rewrite E.
    pose proof (find_loop_end_some _ _ _ E) as (Hk & _).
    destruct (loop_ranges "[" rest k ltac:(lia)) as [Hbody Hrest]. rewrite Hrest.
    pose proof (IH (firstn (k - 1) rest) ((code ++ LOOP_CMP) ++ PLACEHOLDER)
                  (loop_body_all_matched _ _ _ E)) as IHb.
    unfold generate_loop_code_with. rewrite Hbody.
    destruct (gen fuel (firstn (k - 1) rest) ((code ++ LOOP_CMP) ++ PLACEHOLDER))
      as [out1|d1| |]; try discriminate; [|now specialize (IHb d1)].
    match goal with
    | |- context [string_replace ?a ?b ?c ?d] => destruct (string_replace a b c d)
    end; [|discriminate].
    apply IH. intros pre post Heq.
    apply (Hm (("["%char :: firstn k rest) ++ pre) post).
    rewrite <- app_assoc. cbn [app]. rewrite <- Heq. now rewrite firstn_skipn.
Qed.

Lemma find_loop_end_from_app (a b : source) :
  forall level it k,
    find_loop_end_from level it a = Some k ->
    find_loop_end_from level it (a ++ b) = Some k.
Proof.
  induction a as [|c a IH]; intros level it k H; [discriminate|].
  cbn [find_loop_end_from app] in *.
  destruct (is_open c); [now apply IH|].
  destruct (is_close c); [|now apply IH].
  cbv zeta in *. destruct (level - 1 =? 0); [exact H | now apply IH].
Qed.

(** A close bracket that no open bracket is waiting for is passed over: the
    sequence generator does the same with and without it. *)
Lemma generate_sequence_code_skip_close (fuel : nat) :
  forall fuel' pre post code,
    unmatched_close_before pre ->
    (length (pre ++ "]"%char :: post) < fuel)%nat ->
    (length (pre ++ post) < fuel')%nat ->
    gen fuel (pre ++ "]"%char :: post) code = gen fuel' (pre ++ post) code.
Proof.
  induction fuel as [|fuel IH]; intros fuel' pre post code Hun Hf Hf'; [lia|].
  destruct pre as [|c pre'].
  - cbn [app] in *. rewrite generate_sequence_code_step.
    change (fragment_of "]") with (Some FNone). cbn [fragment_bytes].
    rewrite app_nil_r. simpl in Hf.
    apply generate_sequence_code_fuel_enough; lia.
  - destruct fuel' as [|fuel']; [simpl in Hf'; lia|].
    cbn [app]. rewrite !generate_sequence_code_step.
    cbn [app length] in Hf, Hf'.
    rewrite length_app in Hf, Hf'. cbn [length] in Hf.
    assert (Hun' : forall j, unmatched_close_before (skipn j pre')).
    { intros j m. rewrite skipn_skipn. apply (Hun (S (m + j))). }
    destruct (fragment_of c) as [f|] eqn:Ef.
    + apply IH; [apply (Hun' 0%nat) | |]; rewrite length_app; cbn [length]; lia.
    + apply fragment_of_open in Ef. subst c.
      assert (Hm : matched_after pre').
      { exists (length pre'). rewrite firstn_all. specialize (Hun 0%nat).
        cbn [skipn depth] in Hun. rewrite bracket_value_open in Hun. lia. }
      destruct (find_loop_end_matched "[" pre' Hm) as [k E].
      pose proof (find_loop_end_some _ _ _ E) as (Hk & _).
      unfold find_loop_end in E |- *.
      rewrite (find_loop_end_from_app pre' ("]"%char :: post) _ _ _ E).
      rewrite (find_loop_end_from_app pre' post _ _ _ E).
      assert (Hr : forall X : source,
                 firstn k ("["%char :: pre' ++ X) = firstn k ("["%char :: pre') /\
                 skipn (S k) ("["%char :: pre' ++ X) = skipn k pre' ++ X).
      { intro X. destruct k as [|k]; [lia|].
        rewrite !firstn_cons, skipn_cons. split.
        - f_equal. rewrite firstn_app.
          replace (k - length pre')%nat with 0%nat by lia.
          cbn [firstn]. now rewrite app_nil_r.
        - rewrite skipn_app.
          replace (S k - length pre')%nat with 0%nat by lia. reflexivity. }
      destruct (Hr ("]"%char :: post)) as [-> ->].
      destruct (Hr post) as [-> ->].
      assert (Hl : generate_loop_code_with (gen fuel) (firstn k ("["%char :: pre')) code
                   = generate_loop_code_with (gen fuel') (firstn k ("["%char :: pre')) code).
      { unfold generate_loop_code_with.
        destruct (generate_sequence_code_fuel_enough exit fuel fuel'
                    (tl (firstn k ("["%char :: pre')))
                    ((code ++ LOOP_CMP) ++ PLACEHOLDER)) as [-> _];
          [| |reflexivity];
          destruct k as [|k]; try lia; cbn [firstn tl]; rewrite length_firstn; lia. }
      rewrite Hl.
      destruct (generate_loop_code_with (gen fuel') (firstn k ("["%char :: pre')) code);
        try reflexivity.
      apply IH; [apply Hun' | |]; rewrite length_app, length_skipn;
        cbn [length]; lia.
Qed.

End SequenceFacts.

(** ** The loop generator *)

(** C5.  For the range of a loop found by [find_loop_end] (open bracket [c0],
    then [rest], close bracket at offset [k]) and a buffer whose offsets fit
    an [int], [generate_loop_code] leaves, after the old buffer: the zero test
    [LOOP_CMP], six bytes, the code of the body, and a jump back to the test.
    The six bytes are the placeholder while the body is generated and are
    replaced, by one [replace] at the end, with a [je] whose target is the end
    of the buffer, the offset just after the back-jump. *)
Theorem generate_loop_code_layout
    (exit : Z) (c0 : ascii) (rest : source) (k : nat) (code : code_buffer) :
  find_loop_end (c0 :: rest) = Some k ->
  size code + 20 * Z.of_nat k <= INT_MAX ->
  let range := firstn k (c0 :: rest) in
  exists body_bytes : code_buffer,
    let test := size code in
    let back := size code + 9 + size body_bytes in
    let after := back + 5 in
    let before_patch :=
      code ++ LOOP_CMP ++ PLACEHOLDER ++ body_bytes ++ (JMP ++ rel32 test (back + 1)) in
    let final :=
      code ++ LOOP_CMP ++ (JE ++ rel32 after (test + 5)) ++ body_bytes
           ++ (JMP ++ rel32 test (back + 1)) in
    generate_sequence_code exit (tl range) (code ++ LOOP_CMP ++ PLACEHOLDER)
      = Done (code ++ LOOP_CMP ++ PLACEHOLDER ++ body_bytes) /\
    generate_loop_code exit range code = Done final /\
    string_replace (test + 3) 6 (JE ++ rel32 after (test + 5)) before_patch = Some final /\
    size final = after /\
    (test + 5) + 4 + le_signed32 (rel32 after (test + 5)) = after /\
    (back + 1) + 4 + le_signed32 (rel32 test (back + 1)) = test.
Proof.
  intros E Hsz range.
  pose proof (find_loop_end_some _ _ _ E) as (Hk & _).
  destruct (loop_ranges c0 rest k ltac:(lia)) as [Hbody _].
  pose proof (size_nonneg code) as Hc.
  pose proof (generate_sequence_code_layout exit (S (length (tl range))) (tl range)
                ((code ++ LOOP_CMP) ++ PLACEHOLDER) ltac:(lia)) as L.
  fold (generate_sequence_code exit (tl range) ((code ++ LOOP_CMP) ++ PLACEHOLDER)) in L.
  assert (Hlen : length (tl range) = (k - 1)%nat).
  { unfold range. rewrite Hbody, length_firstn. lia. }
  rewrite Hlen, !size_app in L.
  change (size LOOP_CMP) with 3 in L. change (size PLACEHOLDER) with 6 in L.
  specialize (L ltac:(lia)).
  pose proof (generate_sequence_code_matched exit (S (length (tl range))) (tl range)
                ((code ++ LOOP_CMP) ++ PLACEHOLDER)) as M.
  fold (generate_sequence_code exit (tl range) ((code ++ LOOP_CMP) ++ PLACEHOLDER)) in M.
  unfold range in M at 1. rewrite Hbody in M.
  specialize (M (loop_body_all_matched _ _ _ E)). fold range in M.
  destruct (generate_sequence_code exit (tl range) ((code ++ LOOP_CMP) ++ PLACEHOLDER))
    as [out|d| |] eqn:G; [|now specialize (M d)|destruct L|destruct L].
  destruct L as (b & -> & Hb).
  set (body_bytes := encode exit (size code + 3 + 6) b) in *.
  assert (Hbs : size body_bytes = layout_size b) by apply size_encode.
  pose proof (layout_size_nonneg b) as Hb0.
  exists body_bytes. cbv zeta.
  assert (Hfinal :
    size (code ++ LOOP_CMP ++ (JE ++ rel32 (size code + 9 + size body_bytes + 5) (size code + 5))
               ++ body_bytes ++ JMP ++ rel32 (size code) (size code + 9 + size body_bytes + 1))
    = size code + 9 + size body_bytes + 5).
  { unfold rel32. rewrite !size_app, !size_le_bytes.
    change (size LOOP_CMP) with 3. change (size JE) with 2.
    change (size JMP) with 1. lia. }
  repeat split.
  - rewrite !app_assoc. exact G.
  - unfold generate_loop_code.
    apply generate_loop_code_with_done; [lia | exact G].
  - replace (size code + 3) with (size (code ++ LOOP_CMP))
      by (rewrite size_app; reflexivity).
    change 6 with (size PLACEHOLDER).
    rewrite (app_assoc code LOOP_CMP), string_replace_mid.
    now rewrite <- !app_assoc.
  - exact Hfinal.
  - unfold le_signed32, rel32. rewrite le_value_le_bytes4.
    unfold to_uint32. rewrite Z.mod_mod by lia.
    fold (to_uint32 (size code + 9 + size body_bytes + 5 - (size code + 5 + 4))).
    rewrite signed32_wrap; unfold INT_MAX in *; lia.
  - unfold le_signed32, rel32. rewrite le_value_le_bytes4.
    unfold to_uint32. rewrite Z.mod_mod by lia.
    fold (to_uint32 (size code - (size code + 9 + size body_bytes + 1 + 4))).
    rewrite signed32_wrap; unfold INT_MAX in *; lia.
Qed.

Lemma generate_loop_code_layout_witness :
  exists body_bytes : code_buffer,
    generate_loop_code 25 (src "[-") init_prefix
    = Done (init_prefix ++ LOOP_CMP ++ (JE ++ rel32 (34 + 9 + size body_bytes + 5) 39)
              ++ body_bytes ++ (JMP ++ rel32 34 (34 + 9 + size body_bytes + 1))).
Proof.
  destruct (generate_loop_code_layout 25 "["%char (src "-]+") 2 init_prefix
              eq_refl ltac:(vm_compute; discriminate))
    as (body_bytes & _ & H & _).
  exists body_bytes. exact H.
Defined.

(** ** init *)

Section Init.

Lemma size_init_prefix : size init_prefix = 34.
Proof. reflexivity. Qed.

(** The outcome of the code generation decides what [init] does before it
    turns to the operating system. *)
Lemma init_of_failed (os : OS) (self : BrainfuckProgram) (s rest : source) :
  init_code s = Failed rest ->
  init os self s =
  {| returned := Some false;
     object := {| exit_offset_ := init_exit_offset; executable_ := executable_ self |};
     log := [EvStderr (DiagLoopEnd (c_str rest))] |}.
Proof. intro H. unfold init. now rewrite H. Qed.

Lemma init_code_cases (s : source) :
  34 + 20 * Z.of_nat (length s) <= INT_MAX ->
  (exists p, init_code s =
             Done (add_jmp_to_exit init_exit_offset
                     (init_prefix ++ encode init_exit_offset 34 p)) /\
             layout_size p <= 20 * Z.of_nat (length s)) \/
  (exists rest, init_code s = Failed rest).
Proof.
  intro Hsz. unfold init_code.
  pose proof (generate_sequence_code_layout init_exit_offset (S (length s)) s init_prefix
                ltac:(lia)) as L.
  fold (generate_sequence_code init_exit_offset s init_prefix) in L.
  rewrite size_init_prefix in L. specialize (L Hsz).
  destruct (generate_sequence_code init_exit_offset s init_prefix) as [out|d| |].
  - destruct L as (p & -> & Hp). left. now exists p.
  - right. now exists d.
  - destruct L.
  - destruct L.
Qed.

Lemma init_code_unmatched (s : source) :
  has_unmatched_open s -> forall out, init_code s <> Done out.
Proof.
  intros H out. unfold init_code.
  pose proof (generate_sequence_code_unmatched init_exit_offset (S (length s)) s
                init_prefix H) as U.
  fold (generate_sequence_code init_exit_offset s init_prefix) in U.
  destruct (generate_sequence_code init_exit_offset s init_prefix) as [c| | |];
    try discriminate.
  now specialize (U c).
Qed.

Lemma init_code_matched (s : source) :
  all_open_matched s -> forall d, init_code s <> Failed d.
Proof.
  intros H d. unfold init_code.
  pose proof (generate_sequence_code_matched init_exit_offset (S (length s)) s
                init_prefix H) as U.
  fold (generate_sequence_code init_exit_offset s init_prefix) in U.
  destruct (generate_sequence_code init_exit_offset s init_prefix) as [c|d'| |];
    try discriminate.
  now specialize (U d').
Qed.

End Init.

(** A host on which every request of [init] is granted: a mapping of a
    positive length is returned at an address that is neither [NULL] nor
    [MAP_FAILED], and [mprotect] answers 0. *)
Definition os_succeeds (os : OS) : Prop :=
  (forall len, 0 < len -> os_mmap os len <> NULL /\ os_mmap os len <> MAP_FAILED) /\
  (forall addr len, os_mprotect os addr len = 0).

(** The two notions exclude each other, and on small sources they say what
    one expects. *)
Lemma unmatched_open_not_all_matched (s : source) :
  has_unmatched_open s -> ~ all_open_matched s.
Proof.
  intros (pre & post & Heq & Hun) Hall.
  destruct (Hall pre post Heq) as [k Hk]. specialize (Hun k). lia.
Qed.

Example unmatched_open_example : has_unmatched_open (src "[-][[+]").
Proof.
  exists (src "[-]"), (src "[+]"). split; [reflexivity|].
  intros [|[|[|[|k]]]]; vm_compute; discriminate.
Qed.

Example all_open_matched_example : all_open_matched (src "][-]]").
Proof.
  intros pre post Heq.
  destruct pre as [|c0 [|c1 [|c2 [|c3 [|c4 [|c5 pre]]]]]]; try discriminate;
    injection Heq as _ <-.
  exists 2%nat. vm_compute. reflexivity.
Qed.

(** C7.  When the source has an unmatched open bracket, the code generation
    does not finish, [init] does not return success, it asks the operating
    system for nothing and the object's [executable_] is what it was ([NULL]
    for a new object).  With a source short enough for [int] offsets the
    result is the [false] return with the loop-end diagnostic.  The failure
    is handed up unchanged: a failing body makes [generate_loop_code] fail,
    and a failing loop makes [generate_sequence_code] fail. *)
Theorem unmatched_open_init_fails (os : OS) (self : BrainfuckProgram) (s : source) :
  has_unmatched_open s ->
  (forall out, init_code s <> Done out) /\
  returned (init os self s) <> Some true /\
  executable_ (object (init os self s)) = executable_ self /\
  (forall e, In e (log (init os self s)) -> exists d, e = EvStderr (DiagLoopEnd d)) /\
  (34 + 20 * Z.of_nat (length s) <= INT_MAX ->
   exists rest,
     init os self s =
     {| returned := Some false;
        object := {| exit_offset_ := init_exit_offset; executable_ := executable_ self |};
        log := [EvStderr (DiagLoopEnd rest)] |}) /\
  (forall g range code d,
     g (tl range) ((code ++ LOOP_CMP) ++ PLACEHOLDER) = Failed d ->
     generate_loop_code_with g range code = Failed d) /\
  (forall exit fuel rest code k d,
     find_loop_end ("["%char :: rest) = Some k ->
     generate_loop_code_with (generate_sequence_code_fuel exit fuel)
       (firstn k ("["%char :: rest)) code = Failed d ->
     generate_sequence_code_fuel exit (S fuel) ("["%char :: rest) code = Failed d).
Proof.
  intro Hun. pose proof (init_code_unmatched s Hun) as Hnd.
  split; [exact Hnd|].
  assert (Hshape : forall (P : init_result -> Prop),
             (forall rest, P {| returned := Some false;
                                object := {| exit_offset_ := init_exit_offset;
                                             executable_ := executable_ self |};
                                log := [EvStderr (DiagLoopEnd rest)] |}) ->
             P {| returned := None;
                  object := {| exit_offset_ := init_exit_offset;
                               executable_ := executable_ self |};
                  log := [] |} ->
             P (init os self s)).
  { intros P Hf Hn. unfold init.
    destruct (init_code s) as [c|d| |]; [now specialize (Hnd c) | apply Hf | exact Hn | exact Hn]. }
  repeat split.
  - apply Hshape; simpl; intros; discriminate.
  - apply Hshape; reflexivity.
  - apply Hshape.
    + intros rest e [<-|[]]. now exists rest.
    + intros e [].
  - intro Hsz. destruct (init_code_cases s Hsz) as [(p & Hp & _)|(rest & Hr)].
    + now specialize (Hnd _ Hp).
    + exists (c_str rest). now apply init_of_failed.
  - intros g range code d Hg. unfold generate_loop_code_with. now rewrite Hg.
  - intros exit fuel rest code k d E Hl.
    rewrite generate_sequence_code_step.
    change (fragment_of "[") with (@None fragment). now rewrite E, Hl.
Qed.

Lemma unmatched_open_init_fails_witness :
  returned (init {| os_pagesize := 4096; os_mmap := fun _ => 4096;
                    os_mprotect := fun _ _ => 0 |}
                 (new_program 0) (src "+[[-]")) <> Some true.
Proof.
  refine (proj1 (proj2 (unmatched_open_init_fails _ _ (src "+[[-]") _))).
  exists (src "+"), (src "[-]"). split; [reflexivity|].
  intros [|[|[|[|k]]]]; vm_compute; discriminate.
Defined.

(** C8.  When every open bracket of the source is matched, the page size is
    positive, the source is short enough for the [int] holding the region
    size, and the operating system grants the requests, [init] returns
    success, and the region it obtained has a size that is a positive
    multiple of the page size (and holds the code). *)
Theorem balanced_source_init_succeeds
    (os : OS) (self : BrainfuckProgram) (s : source) :
  all_open_matched s ->
  0 < os_pagesize os ->
  39 + 20 * Z.of_nat (length s) + os_pagesize os <= INT_MAX ->
  os_succeeds os ->
  exists (code : code_buffer) (n : Z),
    init_code s = Done code /\
    0 < n /\
    size code <= n * os_pagesize os /\
    init os self s =
    {| returned := Some true;
       object := {| exit_offset_ := init_exit_offset;
                    executable_ := os_mmap os (n * os_pagesize os) |};
       log := [EvMmap (n * os_pagesize os);
               EvMemmove (os_mmap os (n * os_pagesize os)) code;
               EvMprotect (os_mmap os (n * os_pagesize os)) (n * os_pagesize os)] |}.
Proof.
  intros Hm Hps Hsz [Hmap Hprot].
  destruct (init_code_cases s ltac:(lia)) as [(p & Hp & Hb)|(rest & Hr)];
    [|now apply init_code_matched in Hr].
  set (code := add_jmp_to_exit init_exit_offset
                 (init_prefix ++ encode init_exit_offset 34 p)) in *.
  assert (Hcs : size code = 39 + layout_size p).
  { unfold code, add_jmp_to_exit, add_jmp_to_offset.
    rewrite !size_app, size_le_bytes, size_encode, size_init_prefix.
    change (size JMP) with 1. lia. }
  pose proof (layout_size_nonneg p) as Hp0.
  set (ps := os_pagesize os) in *.
  exists code, (size code / ps + 1).
  assert (Hdiv : 0 <= size code / ps) by (apply Z.div_pos; lia).
  assert (Hle : size code / ps * ps <= size code)
    by (rewrite Z.mul_comm; apply Z.mul_div_le; lia).
  assert (Hlt : size code < (size code / ps + 1) * ps).
  { pose proof (Z.mod_pos_bound (size code) ps Hps).
    pose proof (Z.div_mod (size code) ps ltac:(lia)). nia. }
  assert (Hfit : 0 < (size code / ps + 1) * ps <= INT_MAX) by (unfold INT_MAX in *; nia).
  repeat split; [exact Hp | lia | lia |].
  unfold init. rewrite Hp. fold ps.
  rewrite (to_size_t_small ps) by (unfold INT_MAX in *; lia).
  rewrite (to_size_t_small ((size code / ps + 1) * ps)) by (unfold INT_MAX in *; lia).
  rewrite to_int_small by lia.
  rewrite (to_size_t_small ((size code / ps + 1) * ps)) by (unfold INT_MAX in *; lia).
  cbn [executable_ exit_offset_].
  destruct (Hmap ((size code / ps + 1) * ps) ltac:(lia)) as [Hnn _].
  destruct (Z.eqb_spec (os_mmap os ((size code / ps + 1) * ps)) NULL) as [|_];
    [contradiction|].
  rewrite Hprot. reflexivity.
Qed.

Lemma balanced_source_init_succeeds_witness :
  exists (code : code_buffer) (n : Z),
    init_code (src "+[-]") = Done code /\ 0 < n /\ size code <= n * 4096.
Proof.
  destruct (balanced_source_init_succeeds
              {| os_pagesize := 4096; os_mmap := fun _ => 4096;
                 os_mprotect := fun _ _ => 0 |}
              (new_program 0) (src "+[-]")) as (code & n & H1 & H2 & H3 & _).
  - intros pre post Heq.
    destruct pre as [|c0 [|c1 [|c2 [|c3 [|c4 pre]]]]]; try discriminate;
      injection Heq as _ <-.
    exists 2%nat. vm_compute. reflexivity.
  - vm_compute. reflexivity.
  - vm_compute. discriminate.
  - split; [intros len _; split; vm_compute; discriminate | reflexivity].
  - exists code, n. auto.
Defined.

(** C10.  A close bracket that no earlier open bracket is waiting for is not
    an error and adds nothing to the buffer: the sequence generator steps
    over it, so the buffer built by [init], and everything [init] does, is
    the same as for the source without it.  The source "]" gives the buffer
    of the empty source: prologue, epilogue and the final jump. *)
Theorem unmatched_close_is_skipped (pre post : source) :
  unmatched_close_before pre ->
  (forall exit rest code,
     generate_sequence_code exit ("]"%char :: rest) code
     = generate_sequence_code exit rest code) /\
  init_code (pre ++ "]"%char :: post) = init_code (pre ++ post) /\
  (forall os self,
     init os self (pre ++ "]"%char :: post) = init os self (pre ++ post)) /\
  init_code (src "]") = init_code (src "") /\
  init_code (src "]") = Done (init_prefix ++ JMP ++ rel32 init_exit_offset 35).
Proof.
  intro Hun.
  assert (Hskip : forall exit a b code,
             unmatched_close_before a ->
             generate_sequence_code exit (a ++ "]"%char :: b) code
             = generate_sequence_code exit (a ++ b) code).
  { intros exit a b code Ha. unfold generate_sequence_code.
    apply generate_sequence_code_skip_close; [exact Ha | lia | lia]. }
  assert (Hcode : init_code (pre ++ "]"%char :: post) = init_code (pre ++ post)).
  { unfold init_code. now rewrite Hskip. }
  split; [|split; [|split; [|split]]].
  - intros exit rest code. apply (Hskip exit [] rest code).
    intros k. destruct k; simpl; lia.
  - exact Hcode.
  - intros os self. unfold init. now rewrite Hcode.
  - reflexivity.
  - reflexivity.
Qed.

Lemma unmatched_close_is_skipped_witness :
  init_code (src "+[-]]>") = init_code (src "+[-]>").
Proof.
  refine (proj1 (proj2 (unmatched_close_is_skipped (src "+[-]") (src ">") _))).
  intros [|[|[|[|[|k]]]]]; vm_compute; discriminate.
Defined.

(** ** Operating-system failures in init *)

(** A host whose [mmap] fails (it returns [MAP_FAILED]); [mprotect] on that
    address is answered with [r]. *)
Definition os_mmap_fails (r : Z) : OS :=
  {| os_pagesize := 4096; os_mmap := fun _ => MAP_FAILED;
     os_mprotect := fun _ _ => r |}.

(** A host whose [mmap] succeeds at [addr] and whose [mprotect] fails. *)
Definition os_mprotect_fails (addr : Z) : OS :=
  {| os_pagesize := 4096; os_mmap := fun _ => addr;
     os_mprotect := fun _ _ => -1 |}.

(** C3, on the code.  When [mmap] fails, [init] compares the result with
    [NULL], not with [MAP_FAILED]: no mapping diagnostic is printed, the code
    is copied to the address [MAP_FAILED], and [executable_] keeps that value;
    if [mprotect] then answers 0 the call even returns success.  When
    [mprotect] fails, [init] prints its diagnostic and returns failure, and
    [executable_] keeps the address of the mapping with the code in it. *)
Theorem init_os_failures (self : BrainfuckProgram) (r addr : Z) :
  (exists code,
     init_code (src "+") = Done code /\
     init (os_mmap_fails r) self (src "+") =
     {| returned := Some (r =? 0);
        object := {| exit_offset_ := init_exit_offset; executable_ := MAP_FAILED |};
        log := [EvMmap 4096; EvMemmove MAP_FAILED code; EvMprotect MAP_FAILED 4096]
               ++ (if r =? 0 then [] else [EvStderr DiagMprotect]) |}) /\
  (exists code,
     init_code (src "+") = Done code /\
     init (os_mprotect_fails (1 + Z.abs addr)) self (src "+") =
     {| returned := Some false;
        object := {| exit_offset_ := init_exit_offset;
                     executable_ := 1 + Z.abs addr |};
        log := [EvMmap 4096; EvMemmove (1 + Z.abs addr) code;
                EvMprotect (1 + Z.abs addr) 4096; EvStderr DiagMprotect] |}).
Proof.
  split.
  - eexists. split; [reflexivity|].
    unfold init. cbn [init_code]. unfold os_mmap_fails.
    cbn [os_mmap os_mprotect os_pagesize executable_ exit_offset_].
    change (MAP_FAILED =? NULL) with false. cbv iota.
    destruct (r =? 0); reflexivity.
  - eexists. split; [reflexivity|].
    unfold init, os_mprotect_fails.
    cbn [os_mmap os_mprotect os_pagesize executable_ exit_offset_].
    destruct (Z.eqb_spec (1 + Z.abs addr) NULL) as [H|_]; [unfold NULL in H; lia|].
    reflexivity.
Qed.

(** ** The x86-64 instructions of the templates

    The meaning of the generated code is given for the instruction encodings
    that occur in the templates and in the patcher, each as the comment next
    to its bytes in the source names it. *)

Module X86.

Inductive reg : Type :=
| RAX | RCX | RDX | RBX | RBP | RSI | RDI | R8 | R12 | R13 | R14.

Definition reg_eqb (a b : reg) : bool :=
  match a, b with
  | RAX, RAX | RCX, RCX | RDX, RDX | RBX, RBX | RBP, RBP | RSI, RSI
  | RDI, RDI | R8, R8 | R12, R12 | R13, R13 | R14, R14 => true
  | _, _ => false
  end.

Inductive cond : Type := CondE | CondNE | CondL.

Inductive instr : Type :=
| Ipush (r : reg)                  (* push %r *)
| Ipop (r : reg)                   (* pop %r *)
| Imov (s d : reg)                 (* mov %s,%d *)
| Isub_rbx (imm : Z)               (* sub $imm,%rbx *)
| Iadd_rbx (imm : Z)               (* add $imm,%rbx *)
| Iload_al                         (* mov (%rbx),%al *)
| Isub_al (imm : Z)                (* sub $imm,%al *)
| Iadd_al (imm : Z)                (* add $imm,%al *)
| Istore_al                        (* mov %al,(%rbx) *)
| Istore_rax                       (* mov %rax,(%rbx) *)
| Imovzbq_rsi                      (* movzbq (%rbx),%rsi *)
| Icall (r : reg)                  (* callq *%r *)
| Icmp_rax (imm : Z)               (* cmp $imm,%rax *)
| Icmpb_mem (imm : Z)              (* cmpb $imm,(%rbx) *)
| Ijcc (c : cond) (rel : Z)        (* je / jne / jl rel32 *)
| Ijmp (rel : Z)                   (* jmp rel32, jmp rel8 *)
| Iret.                            (* retq *)

Fixpoint starts_with (p l : code_buffer) : bool :=
  match p, l with
  | [], _ => true
  | a :: p', b :: l' => (a =? b) && starts_with p' l'
  | _ :: _, [] => false
  end.

(** The encodings without a displacement. *)
Definition fixed_encodings : list (code_buffer * instr) :=
  [ ([0x41; 0x54], Ipush R12);  ([0x41; 0x55], Ipush R13);
    ([0x41; 0x56], Ipush R14);  ([0x55], Ipush RBP);  ([0x53], Ipush RBX);
    ([0x49; 0x89; 0xfc], Imov RDI R12);  ([0x49; 0x89; 0xf5], Imov RSI R13);
    ([0x49; 0x89; 0xd6], Imov RDX R14);  ([0x48; 0x89; 0xcd], Imov RCX RBP);
    ([0x4c; 0x89; 0xc3], Imov R8 RBX);
    ([0x5b], Ipop RBX);  ([0x5d], Ipop RBP);  ([0x41; 0x5e], Ipop R14);
    ([0x41; 0x5d], Ipop R13);  ([0x41; 0x5c], Ipop R12);  ([0xc3], Iret);
    ([0x48; 0x83; 0xeb; 0x01], Isub_rbx 1);  ([0x48; 0x83; 0xc3; 0x01], Iadd_rbx 1);
    ([0x8a; 0x03], Iload_al);  ([0x2c; 0x01], Isub_al 1);
    ([0x04; 0x01], Iadd_al 1);  ([0x88; 0x03], Istore_al);
    ([0x48; 0x89; 0xef], Imov RBP RDI);  ([0x41; 0xff; 0xd6], Icall R14);
    ([0x48; 0x83; 0xf8; 0x00], Icmp_rax 0);  ([0x48; 0x89; 0x03], Istore_rax);
    ([0x4c; 0x89; 0xef], Imov R13 RDI);  ([0x48; 0x0f; 0xb6; 0x33], Imovzbq_rsi);
    ([0x41; 0xff; 0xd4], Icall R12);  ([0x48; 0x83; 0xf8; 0x01], Icmp_rax 1);
    ([0x80; 0x3b; 0x00], Icmpb_mem 0) ].

Fixpoint lookup (table : list (code_buffer * instr)) (l : code_buffer)
  : option (instr * Z) :=
  match table with
  | [] => None
  | (p, i) :: table' =>
      if starts_with p l then Some (i, size p) else lookup table' l
  end.

Definition decode_rel32 (c : cond) (l : code_buffer) : option (instr * Z) :=
  match l with
  | _ :: _ :: a :: b :: c0 :: d :: _ => Some (Ijcc c (le_signed32 [a; b; c0; d]), 6)
  | _ => None
  end.

(** The instruction at the head of [l] and its length. *)
Definition decode (l : code_buffer) : option (instr * Z) :=
  if starts_with JL l then decode_rel32 CondL l
  else if starts_with JNE l then decode_rel32 CondNE l
  else if starts_with JE l then decode_rel32 CondE l
  else if starts_with JMP l then
    match l with
    | _ :: a :: b :: c :: d :: _ => Some (Ijmp (le_signed32 [a; b; c; d]), 5)
    | _ => None
    end
  else if starts_with JMP_SHORT l then
    match l with
    | _ :: a :: _ => Some (Ijmp (signed 8 a), 2)
    | _ => None
    end
  else lookup fixed_encodings l.

Record flags : Type := { ZF : bool; SF : bool; OF : bool }.

(** *** The host capabilities *)

Inductive io_event : Type :=
| IoRead (result : Z)
| IoWrite (c : Z) (result : Z).

(** The two functions handed to the compiled code: where they live, and what
    each leaves in [%rax], given what has happened so far, its context
    argument and (for write) the character; and what a call leaves in the
    other caller-saved registers and in the flags. *)
Record host : Type := {
  write_addr : Z;
  read_addr : Z;
  host_write : list io_event -> Z -> Z -> Z;
  host_read : list io_event -> Z -> Z;
  host_scratch : list io_event -> reg -> Z;
  host_flags : list io_event -> flags
}.

(** *** Machine states *)

Record machine : Type := {
  pc : Z;                     (* offset into the executable region *)
  regs : reg -> Z;            (* 64-bit values *)
  fl : flags;
  stack : list Z;             (* what the code has pushed *)
  mem : Z -> Z;               (* the tape: a byte per address *)
  trace : list io_event
}.

Definition upd (f : reg -> Z) (r : reg) (v : Z) : reg -> Z :=
  fun r' => if reg_eqb r r' then v else f r'.

Definition store (m : Z -> Z) (a v : Z) : Z -> Z :=
  fun a' => if a' =? a then v else m a'.

(** An [n]-byte little-endian store of [v] at [a]. *)
Fixpoint store_bytes (n : nat) (m : Z -> Z) (a v : Z) : Z -> Z :=
  match n with
  | O => m
  | S n' => store_bytes n' (store m a (v mod 256)) ((a + 1) mod 2 ^ 64) (v / 256)
  end.

Definition low8 (x : Z) : Z := x mod 256.
Definition with_low8 (x b : Z) : Z := x - x mod 256 + b mod 256.

(** Flags of [a - b] and of [a + b] on [w]-bit operands. *)
Definition flags_sub (w a b : Z) : flags :=
  let r := (a - b) mod 2 ^ w in
  {| ZF := r =? 0; SF := 2 ^ (w - 1) <=? r;
     OF := negb (signed w a - signed w b =? signed w r) |}.

Definition flags_add (w a b : Z) : flags :=
  let r := (a + b) mod 2 ^ w in
  {| ZF := r =? 0; SF := 2 ^ (w - 1) <=? r;
     OF := negb (signed w a + signed w b =? signed w r) |}.

Definition taken (c : cond) (f : flags) : bool :=
  match c with
  | CondE => ZF f
  | CondNE => negb (ZF f)
  | CondL => xorb (SF f) (OF f)
  end.

Inductive result : Type :=
| Next (m : machine)
| Halt (m : machine)      (* [retq] back to the caller of the compiled code *)
| Crash.

Definition set_pc (p : Z) (m : machine) : machine :=
  {| pc := p; regs := regs m; fl := fl m; stack := stack m; mem := mem m;
     trace := trace m |}.

Definition set_reg (r : reg) (v : Z) (m : machine) : machine :=
  {| pc := pc m; regs := upd (regs m) r v; fl := fl m; stack := stack m;
     mem := mem m; trace := trace m |}.

Definition set_fl (f : flags) (m : machine) : machine :=
  {| pc := pc m; regs := regs m; fl := f; stack := stack m; mem := mem m;
     trace := trace m |}.

Definition set_stack (s : list Z) (m : machine) : machine :=
  {| pc := pc m; regs := regs m; fl := fl m; stack := s; mem := mem m;
     trace := trace m |}.

Definition set_mem (t : Z -> Z) (m : machine) : machine :=
  {| pc := pc m; regs := regs m; fl := fl m; stack := stack m; mem := t;
     trace := trace m |}.

Definition callee_saved (r : reg) : bool :=
  match r with
  | RBX | RBP | R12 | R13 | R14 => true
  | _ => false
  end.

(** The state in which a host function returns to [next]: the callee-saved
    registers, the stack and the tape are as they were, [%rax] holds the
    result [r], the other registers and the flags are the host's. *)
Definition after_call (h : host) (next r : Z) (e : io_event) (m : machine) : machine :=
  {| pc := next;
     regs := fun x =>
       if callee_saved x then regs m x
       else if reg_eqb x RAX then r
       else host_scratch h (trace m) x mod 2 ^ 64;
     fl := host_flags h (trace m);
     stack := stack m;
     mem := mem m;
     trace := trace m ++ [e] |}.

(** A call through a register: of the write capability with the context in
    [%rdi] and the character in [%sil], or of the read capability with the
    context in [%rdi]. *)
Definition call_host (h : host) (target next : Z) (m : machine) : result :=
  if target =? write_addr h then
    let c := low8 (regs m RSI) in
    let r := host_write h (trace m) (regs m RDI) c mod 2 ^ 64 in
    Next (after_call h next r (IoWrite c r) m)
  else if target =? read_addr h then
    let r := host_read h (trace m) (regs m RDI) mod 2 ^ 64 in
    Next (after_call h next r (IoRead r) m)
  else Crash.

(** One instruction, [next] being the offset of the following one. *)
Definition exec (h : host) (i : instr) (next : Z) (m : machine) : result :=
  match i with
  | Ipush r => Next (set_stack (regs m r :: stack m) (set_pc next m))
  | Ipop r =>
      match stack m with
      | v :: s => Next (set_stack s (set_reg r v (set_pc next m)))
      | [] => Crash
      end
  | Imov s d => Next (set_reg d (regs m s) (set_pc next m))
  | Isub_rbx imm =>
      Next (set_fl (flags_sub 64 (regs m RBX) imm)
              (set_reg RBX ((regs m RBX - imm) mod 2 ^ 64) (set_pc next m)))
  | Iadd_rbx imm =>
      Next (set_fl (flags_add 64 (regs m RBX) imm)
              (set_reg RBX ((regs m RBX + imm) mod 2 ^ 64) (set_pc next m)))
  | Iload_al =>
      Next (set_reg RAX (with_low8 (regs m RAX) (mem m (regs m RBX))) (set_pc next m))
  | Isub_al imm =>
      Next (set_fl (flags_sub 8 (low8 (regs m RAX)) imm)
              (set_reg RAX (with_low8 (regs m RAX) (low8 (regs m RAX) - imm))
                 (set_pc next m)))
  | Iadd_al imm =>
      Next (set_fl (flags_add 8 (low8 (regs m RAX)) imm)
              (set_reg RAX (with_low8 (regs m RAX) (low8 (regs m RAX) + imm))
                 (set_pc next m)))
  | Istore_al =>
      Next (set_mem (store (mem m) (regs m RBX) (low8 (regs m RAX))) (set_pc next m))
  | Istore_rax =>
      Next (set_mem (store_bytes 8 (mem m) (regs m RBX) (regs m RAX)) (set_pc next m))
  | Imovzbq_rsi => Next (set_reg RSI (low8 (mem m (regs m RBX))) (set_pc next m))
  | Icall r => call_host h (regs m r) next m
  | Icmp_rax imm => Next (set_fl (flags_sub 64 (regs m RAX) imm) (set_pc next m))
  | Icmpb_mem imm =>
      Next (set_fl (flags_sub 8 (low8 (mem m (regs m RBX))) imm) (set_pc next m))
  | Ijcc c rel =>
      Next (set_pc (if taken c (fl m) then next + rel else next) m)
  | Ijmp rel => Next (set_pc (next + rel) m)
  | Iret =>
      match stack m with
      | [] => Halt m
      | _ :: _ => Crash
      end
  end.

Definition fetch (code : code_buffer) (p : Z) : option (instr * Z) :=
  if p <? 0 then None else decode (skipn (Z.to_nat p) code).

Arguments fetch : simpl never.

Definition step (code : code_buffer) (h : host) (m : machine) : result :=
  match fetch code (pc m) with
  | Some (i, len) => exec h i (pc m + len) m
  | None => Crash
  end.

(** [n] instructions; a halted or crashed machine stays as it is. *)
Fixpoint run (code : code_buffer) (h : host) (n : nat) (m : machine) : result :=
  match n with
  | O => Next m
  | S n' =>
      match step code h m with
      | Next m' => run code h n' m'
      | other => other
      end
  end.

(** Continuing a result for [n] more instructions. *)
Definition run_on (code : code_buffer) (h : host) (n : nat) (r : result) : result :=
  match r with
  | Next m => run code h n m
  | other => other
  end.

(** The state in which [BrainfuckProgram::run(memory)] enters the region:
    [write], its argument [NULL], [read], its argument [NULL] and [memory]
    in the first five argument registers. *)
Definition entry (h : host) (memory : Z) (others : reg -> Z) (tape : Z -> Z) : machine :=
  {| pc := 0;
     regs := fun r =>
       match r with
       | RDI => write_addr h
       | RSI => NULL
       | RDX => read_addr h
       | RCX => NULL
       | R8 => memory
       | _ => others r
       end;
     fl := {| ZF := false; SF := false; OF := false |};
     stack := [];
     mem := tape;
     trace := [] |}.

Definition writes (t : list io_event) : nat :=
  length (filter (fun e => match e with IoWrite _ _ => true | IoRead _ => false end) t).

End X86.
Import X86.

(** ** Running compiled programs: the read fragment *)

(** A host whose [read] always answers 0, the end-of-input sentinel, and
    whose [write] succeeds. *)
Definition host_end_of_input : host :=
  {| write_addr := 4198400; read_addr := 4198464;
     host_write := fun _ _ _ => 1;
     host_read := fun _ _ => 0;
     host_scratch := fun _ _ => 0;
     host_flags := fun _ => {| ZF := false; SF := false; OF := false |} |}.

(** A host whose [read] always answers the byte 65. *)
Definition host_reads_A : host :=
  {| write_addr := 4198400; read_addr := 4198464;
     host_write := fun _ _ _ => 1;
     host_read := fun _ _ => 65;
     host_scratch := fun _ _ => 0;
     host_flags := fun _ => {| ZF := false; SF := false; OF := false |} |}.

Definition compiled (s : string) : code_buffer :=
  match init_code (src s) with
  | Done code => code
  | _ => []
  end.

(** C1, on the code.  The branch after [cmp $0x0,%rax] is [jl]: with the
    answer 0 it is not taken.  The program ",." run with a [read] that always
    reports end-of-input goes on after the ",": it stores the 0 and calls
    [write] with it, and only then returns. *)
Theorem read_end_of_input_continues (others : reg -> Z) (tape : Z -> Z) :
  init_code (src ",.") = Done (compiled ",.") /\
  fetch (compiled ",.") 44 = Some (Ijcc CondL (25 - 50), 6) /\
  taken CondL (flags_sub 64 0 0) = false /\
  match run (compiled ",.") host_end_of_input 30
          (entry host_end_of_input 8192 others tape) with
  | Halt m => trace m = [IoRead 0; IoWrite 0 1]
  | _ => False
  end.
Proof.
  split; [reflexivity|]. split; [reflexivity|]. split; [reflexivity|].
  vm_compute. reflexivity.
Qed.

(** C2, on the code.  The store of the read fragment is
    [mov %rax,(%rbx)], eight bytes wide: the program "," run with a [read]
    that answers 65 puts 65 in the cell under the tape pointer and 0 in the
    seven cells after it, whatever they held. *)
Theorem read_store_overwrites_neighbours (others : reg -> Z) (tape : Z -> Z) :
  init_code (src ",") = Done (compiled ",") /\
  fetch (compiled ",") 50 = Some (Istore_rax, 3) /\
  match run (compiled ",") host_reads_A 30
          (entry host_reads_A 8192 others tape) with
  | Halt m =>
      trace m = [IoRead 65] /\
      mem m 8192 = 65 /\
      map (mem m) [8193; 8194; 8195; 8196; 8197; 8198; 8199] = [0; 0; 0; 0; 0; 0; 0] /\
      mem m 8200 = tape 8200
  | _ => False
  end.
Proof.
  split; [reflexivity|]. split; [reflexivity|].
  vm_compute. repeat split.
Qed.

(** ** The generated code as an instruction listing *)

Section Listing.

(** An instruction with its encoding. *)
Definition item : Type := (instr * code_buffer)%type.

Definition bytes_of (items : list item) : code_buffer := concat (map snd items).

(** The encoding decodes to the instruction, whatever follows it. *)
Definition decodable (it : item) : Prop :=
  forall X, decode (snd it ++ X) = Some (fst it, size (snd it)).

Definition jump_item (opcode : code_buffer) (mk : Z -> instr) (target field : Z) : item :=
  (mk (le_signed32 (rel32 target field)), opcode ++ rel32 target field).

Definition asm_fragment (exit lo : Z) (f : fragment) : list item :=
  match f with
  | FLeft => [(Isub_rbx 1, LEFT)]
  | FRight => [(Iadd_rbx 1, RIGHT)]
  | FSubtract =>
      [(Iload_al, [0x8a; 0x03]); (Isub_al 1, [0x2c; 0x01]); (Istore_al, [0x88; 0x03])]
  | FAdd =>
      [(Iload_al, [0x8a; 0x03]); (Iadd_al 1, [0x04; 0x01]); (Istore_al, [0x88; 0x03])]
  | FRead =>
      [(Imov RBP RDI, [0x48; 0x89; 0xef]); (Icall R14, [0x41; 0xff; 0xd6]);
       (Icmp_rax 0, [0x48; 0x83; 0xf8; 0x00]);
       jump_item JL (Ijcc CondL) exit (lo + 12);
       (Istore_rax, READ_STORE)]
  | FWrite =>
      [(Imov R13 RDI, [0x4c; 0x89; 0xef]); (Imovzbq_rsi, [0x48; 0x0f; 0xb6; 0x33]);
       (Icall R12, [0x41; 0xff; 0xd4]); (Icmp_rax 1, [0x48; 0x83; 0xf8; 0x01]);
       jump_item JNE (Ijcc CondNE) exit (lo + 16)]
  | FNone => []
  end.

Fixpoint asm (exit lo : Z) (p : layout) : list item :=
  match p with
  | LEnd => []
  | LFrag f k => asm_fragment exit lo f ++ asm exit (lo + fragment_size f) k
  | LLoop b k =>
      let after := lo + 9 + layout_size b + 5 in
      [(Icmpb_mem 0, LOOP_CMP); jump_item JE (Ijcc CondE) after (lo + 5)]
        ++ asm exit (lo + 9) b
        ++ [jump_item JMP Ijmp lo (lo + 9 + layout_size b + 1)]
        ++ asm exit after k
  end.

Definition prologue_asm : list item :=
  [(Ipush R12, [0x41; 0x54]); (Ipush R13, [0x41; 0x55]); (Ipush R14, [0x41; 0x56]);
   (Ipush RBP, [0x55]); (Ipush RBX, [0x53]);
   (Imov RDI R12, [0x49; 0x89; 0xfc]); (Imov RSI R13, [0x49; 0x89; 0xf5]);
   (Imov RDX R14, [0x49; 0x89; 0xd6]); (Imov RCX RBP, [0x48; 0x89; 0xcd]);
   (Imov R8 RBX, [0x4c; 0x89; 0xc3]); (Ijmp 9, [0xeb; 0x09])].

Definition exit_asm : list item :=
  [(Ipop RBX, [0x5b]); (Ipop RBP, [0x5d]); (Ipop R14, [0x41; 0x5e]);
   (Ipop R13, [0x41; 0x5d]); (Ipop R12, [0x41; 0x5c]); (Iret, [0xc3])].

(** The instructions of a listing with the offsets they are placed at. *)
Fixpoint place (lo : Z) (items : list item) : list (Z * instr * Z) :=
  match items with
  | [] => []
  | (i, bs) :: items' => (lo, i, size bs) :: place (lo + size bs) items'
  end.

Definition offsets (l : list (Z * instr * Z)) : list Z := map (fun e => fst (fst e)) l.

Lemma bytes_of_app a b : bytes_of (a ++ b) = bytes_of a ++ bytes_of b.
Proof. unfold bytes_of. now rewrite map_app, concat_app. Qed.

Lemma bytes_of_asm_fragment exit lo f :
  bytes_of (asm_fragment exit lo f) = fragment_bytes exit lo f.
Proof. destruct f; reflexivity. Qed.

Lemma bytes_of_asm exit p : forall lo, bytes_of (asm exit lo p) = encode exit lo p.
Proof.
  induction p as [|f k IH|b IHb k IHk]; intro lo; cbn [asm encode].
  - reflexivity.
  - now rewrite bytes_of_app, bytes_of_asm_fragment, IH.
  - rewrite !bytes_of_app, IHb, IHk. unfold bytes_of, jump_item. cbn [map concat snd].
    rewrite app_nil_r. now rewrite <- !app_assoc.
Qed.

Lemma size_bytes_of_asm exit lo p : size (bytes_of (asm exit lo p)) = layout_size p.
Proof. now rewrite bytes_of_asm, size_encode. Qed.

Lemma place_app a b lo :
  place lo (a ++ b) = place lo a ++ place (lo + size (bytes_of a)) b.
Proof.
  revert lo. induction a as [|[i bs] a IH]; intro lo; cbn [app place].
  - unfold bytes_of. simpl. now rewrite Z.add_0_r.
  - rewrite IH. cbn [app]. do 3 f_equal.
    unfold bytes_of. cbn [map concat snd]. rewrite size_app. lia.
Qed.

Lemma decodable_fixed p i : In (p, i) fixed_encodings -> decodable (i, p).
Proof.
  unfold fixed_encodings. intros H X.
  repeat (destruct H as [H|H]; [injection H as <- <-; reflexivity|]).
  destruct H.
Qed.

Lemma decodable_jump_item_jcc target field :
  decodable (jump_item JL (Ijcc CondL) target field) /\
  decodable (jump_item JNE (Ijcc CondNE) target field) /\
  decodable (jump_item JE (Ijcc CondE) target field) /\
  decodable (jump_item JMP Ijmp target field).
Proof. repeat split; intro X; reflexivity. Qed.

Lemma decodable_asm_fragment exit lo f :
  Forall decodable (asm_fragment exit lo f).
Proof.
  destruct f; cbn [asm_fragment];
    repeat (apply Forall_cons; [|]); try apply Forall_nil;
    try (apply decodable_fixed; unfold fixed_encodings; simpl; tauto);
    apply decodable_jump_item_jcc.
Qed.

Lemma decodable_asm exit p : forall lo, Forall decodable (asm exit lo p).
Proof.
  induction p as [|f k IH|b IHb k IHk]; intro lo; cbn [asm].
  - apply Forall_nil.
  - apply Forall_app. split; [apply decodable_asm_fragment | apply IH].
  - apply Forall_cons; [apply decodable_fixed; unfold fixed_encodings; simpl; tauto|].
    apply Forall_cons; [apply decodable_jump_item_jcc|].
    apply Forall_app. split; [apply IHb|].
    apply Forall_cons; [apply decodable_jump_item_jcc | apply IHk].
Qed.

Lemma bytes_of_prologue_exit : bytes_of (prologue_asm ++ exit_asm) = init_prefix.
Proof. reflexivity. Qed.

Lemma decodable_prologue_exit : Forall decodable (prologue_asm ++ exit_asm).
Proof.
  unfold prologue_asm, exit_asm. cbn [app].
  repeat (apply Forall_cons; [|]); try apply Forall_nil;
    try (apply decodable_fixed; unfold fixed_encodings; simpl; tauto).
  intro X. reflexivity.
Qed.

Lemma fetch_at (pre l : code_buffer) (q : Z) :
  size pre = q -> fetch (pre ++ l) q = decode l.
Proof.
  intros <-. unfold fetch, size.
  destruct (Z.ltb_spec (Z.of_nat (length pre)) 0); [lia|].
  rewrite Nat2Z.id, skipn_app, skipn_all, Nat.sub_diag. reflexivity.
Qed.

(** Every instruction of a decodable listing is what the machine fetches at
    its offset. *)
Lemma fetch_place (items : list item) :
  Forall decodable items ->
  forall pre post lo q i len,
    size pre = lo ->
    In (q, i, len) (place lo items) ->
    fetch (pre ++ bytes_of items ++ post) q = Some (i, len).
Proof.
  induction 1 as [|[i0 bs] items Hd _ IH]; intros pre post lo q i len Hlo Hin;
    [destruct Hin|].
  cbn [place] in Hin. unfold bytes_of in *. cbn [map concat snd].
  destruct Hin as [Heq|Hin].
  - injection Heq as <- <- <-. rewrite fetch_at by exact Hlo.
    rewrite <- app_assoc. apply (Hd (concat (map snd items) ++ post)).
  - rewrite <- app_assoc, app_assoc.
    apply (IH (pre ++ bs) post (lo + size bs)); [|exact Hin].
    rewrite size_app. lia.
Qed.

End Listing.

(** ** Control flow of the listing *)

Section ControlFlow.

(** Where control can be after the instruction at an offset. *)
Definition succs (e : Z * instr * Z) : list Z :=
  let '(q, i, len) := e in
  match i with
  | Ijcc _ rel => [q + len; q + len + rel]
  | Ijmp rel => [q + len + rel]
  | Iret => []
  | _ => [q + len]
  end.

(** The instructions of fragments and loops: none touches the stack or the
    registers that hold the capabilities. *)
Definition body_instr (i : instr) : Prop :=
  match i with
  | Ipush _ | Ipop _ | Iret => False
  | Imov _ d => d = RDI
  | Icall r => r = R12 \/ r = R14
  | _ => True
  end.

(** An instruction of the listing [L] of a block ending at [hi]: it is a
    body instruction, control stays in the block, reaches its end or goes to
    the exit, and a call of the write capability is followed by
    [cmp $0x1,%rax] and a [jne] to the exit. *)
Definition site_ok (exit hi : Z) (L : list (Z * instr * Z)) (e : Z * instr * Z) : Prop :=
  let '(q, i, len) := e in
  body_instr i /\
  (forall t, In t (succs e) -> In t (offsets L) \/ t = hi \/ t = exit) /\
  (i = Icall R12 ->
   In (q + len, Icmp_rax 1, 4) L /\
   exists rel, In (q + len + 4, Ijcc CondNE rel, 6) L /\ q + len + 4 + 6 + rel = exit).

Lemma le_signed32_rel32 target field :
  - 2 ^ 31 <= target - (field + 4) < 2 ^ 31 ->
  le_signed32 (rel32 target field) = target - (field + 4).
Proof.
  intro H. unfold le_signed32, rel32. rewrite le_value_le_bytes4.
  unfold to_uint32. rewrite Z.mod_mod by lia.
  now apply signed32_wrap.
Qed.

Lemma site_ok_weaken exit hi1 hi L1 L e :
  site_ok exit hi1 L1 e ->
  incl L1 L ->
  (In hi1 (offsets L) \/ hi1 = hi) ->
  site_ok exit hi L e.
Proof.
  destruct e as [[q i] len]. intros (Hb & Hs & Hw) Hincl Hhi.
  assert (Ho : forall t, In t (offsets L1) -> In t (offsets L)).
  { intros t Ht. unfold offsets in *. apply in_map_iff in Ht.
    destruct Ht as (x & <- & Hx). apply in_map_iff. exists x.
    split; [reflexivity | now apply Hincl]. }
  split; [exact Hb|]. split.
  - intros t Ht. destruct (Hs t Ht) as [H|[-> | ->]]; auto.
    destruct Hhi as [H| ->]; auto.
  - intro Hi. destruct (Hw Hi) as (H1 & rel & H2 & H3).
    split; [now apply Hincl|]. exists rel. split; [now apply Hincl | exact H3].
Qed.

Lemma place_fragment exit lo f :
  place lo (asm_fragment exit lo f) =
  match f with
  | FLeft => [(lo, Isub_rbx 1, 4)]
  | FRight => [(lo, Iadd_rbx 1, 4)]
  | FSubtract => [(lo, Iload_al, 2); (lo + 2, Isub_al 1, 2); (lo + 4, Istore_al, 2)]
  | FAdd => [(lo, Iload_al, 2); (lo + 2, Iadd_al 1, 2); (lo + 4, Istore_al, 2)]
  | FRead =>
      [(lo, Imov RBP RDI, 3); (lo + 3, Icall R14, 3); (lo + 6, Icmp_rax 0, 4);
       (lo + 10, Ijcc CondL (le_signed32 (rel32 exit (lo + 12))), 6);
       (lo + 16, Istore_rax, 3)]
  | FWrite =>
      [(lo, Imov R13 RDI, 3); (lo + 3, Imovzbq_rsi, 4); (lo + 7, Icall R12, 3);
       (lo + 10, Icmp_rax 1, 4);
       (lo + 14, Ijcc CondNE (le_signed32 (rel32 exit (lo + 16))), 6)]
  | FNone => []
  end.
Proof.
  destruct f; cbn [asm_fragment place jump_item];
    unfold rel32; rewrite ?size_app, ?size_le_bytes;
    change (size LEFT) with 4; change (size RIGHT) with 4;
    change (size READ_STORE) with 3; change (size JL) with 2;
    change (size JNE) with 2;
    repeat match goal with
           | |- context [size (?a :: ?l)] =>
               let v := eval vm_compute in (size (a :: l)) in
               change (size (a :: l)) with v
           end;
    repeat (f_equal; try lia).
Qed.

Ltac in_solve :=
  cbn [offsets map fst In app];
  repeat first [ left; reflexivity | left; lia | right ].

Lemma offsets_app a b : offsets (a ++ b) = offsets a ++ offsets b.
Proof. unfold offsets. apply map_app. Qed.

(** The sites of one fragment, followed by the rest of the block. *)
Lemma fragment_sites exit lo f hi Lrest :
  0 <= exit <= INT_MAX -> 0 <= lo -> lo + fragment_size f <= INT_MAX ->
  (In (lo + fragment_size f) (offsets Lrest) \/ lo + fragment_size f = hi) ->
  forall e,
    In e (place lo (asm_fragment exit lo f)) ->
    site_ok exit hi (place lo (asm_fragment exit lo f) ++ Lrest) e.
Proof.
  intros He Hlo Hhi Hnext e Hin. rewrite place_fragment in *.
  unfold INT_MAX in *.
  assert (Hnx : forall t L, t = lo + fragment_size f ->
                  In t (offsets (L ++ Lrest)) \/ t = hi \/ t = exit).
  { intros t L ->. destruct Hnext as [H| ->]; [left|auto].
    rewrite offsets_app. apply in_or_app. now right. }
  destruct f; cbn [In fragment_size] in *;
    repeat (destruct Hin as [<-|Hin]); try destruct Hin;
    (split; [cbn [body_instr]; auto|]);
    (split; [|try discriminate]);
    try (intros t Ht; cbn [succs In] in Ht;
         repeat (destruct Ht as [<-|Ht]); try destruct Ht;
         first [ apply Hnx; lia
               | left; rewrite offsets_app; apply in_or_app; left; solve [in_solve]
               | right; right; rewrite le_signed32_rel32; lia ]).
  intros _. split; [apply in_or_app; left; cbn [In]; right; right; right; left;
                    do 2 f_equal; lia|].
  exists (le_signed32 (rel32 exit (lo + 16))). split.
  - apply in_or_app; left; cbn [In]. do 4 right. left. do 2 f_equal; lia.
  - rewrite le_signed32_rel32; lia.
Qed.

Lemma start_in exit p :
  forall lo, In lo (offsets (place lo (asm exit lo p))) \/ layout_size p = 0.
Proof.
  induction p as [|f k IH|b IHb k IHk]; intro lo; cbn [asm layout_size].
  - now right.
  - rewrite place_app, bytes_of_asm_fragment, size_fragment_bytes, offsets_app.
    rewrite place_fragment.
    destruct f; try (left; apply in_or_app; left; cbn [offsets map fst In]; now left).
    cbn [fragment_size app offsets map]. destruct (IH (lo + 0)) as [H|H].
    + left. rewrite Z.add_0_r in *. exact H.
    + right. lia.
  - left. cbn [app place offsets map fst In]. now left.
Qed.

(** Every instruction of a block is a site of the block. *)
Lemma asm_sites exit p :
  0 <= exit <= INT_MAX ->
  forall lo, 0 <= lo -> lo + layout_size p <= INT_MAX ->
  forall e, In e (place lo (asm exit lo p)) ->
            site_ok exit (lo + layout_size p) (place lo (asm exit lo p)) e.
Proof.
  intro He. induction p as [|f k IH|b IHb k IHk]; intros lo Hlo Hhi e Hin;
    cbn [asm layout_size] in *.
  - destruct Hin.
  - pose proof (layout_size_nonneg k) as Hk0.
    assert (Hf0 : 0 <= fragment_size f) by (destruct f; cbn [fragment_size]; lia).
    rewrite place_app, bytes_of_asm_fragment, size_fragment_bytes in *.
    apply in_app_or in Hin. destruct Hin as [Hin|Hin].
    + apply fragment_sites; try assumption; try lia.
      destruct (start_in exit k (lo + fragment_size f)) as [H|H]; [now left | right; lia].
    + apply (site_ok_weaken exit (lo + fragment_size f + layout_size k) _
               (place (lo + fragment_size f) (asm exit (lo + fragment_size f) k))).
      * apply IH; [lia | lia | exact Hin].
      * apply incl_appr, incl_refl.
      * right. lia.
  - pose proof (layout_size_nonneg b) as Hb0.
    pose proof (layout_size_nonneg k) as Hk0.
    set (after := lo + 9 + layout_size b + 5) in *.
    set (Lb := place (lo + 9) (asm exit (lo + 9) b)).
    set (Lk := place after (asm exit after k)).
    set (je := (lo + 3, Ijcc CondE (le_signed32 (rel32 after (lo + 5))), 6)).
    set (jb := (lo + 9 + layout_size b,
                Ijmp (le_signed32 (rel32 lo (lo + 9 + layout_size b + 1))), 5)).
    assert (HL : place lo
                   ([(Icmpb_mem 0, LOOP_CMP); jump_item JE (Ijcc CondE) after (lo + 5)]
                      ++ asm exit (lo + 9) b
                      ++ [jump_item JMP Ijmp lo (lo + 9 + layout_size b + 1)]
                      ++ asm exit after k)
                 = [(lo, Icmpb_mem 0, 3); je] ++ Lb ++ [jb] ++ Lk).
    { rewrite !place_app. cbn [place jump_item app].
      unfold bytes_of at 1. cbn [map concat snd jump_item].
      rewrite !size_bytes_of_asm.
      unfold rel32; rewrite ?size_app, ?size_le_bytes.
      change (size LOOP_CMP) with 3. change (size JE) with 2. change (size JMP) with 1.
      unfold bytes_of. cbn [map concat snd jump_item]. rewrite !size_app, ?size_le_bytes.
      change (size []) with 0. change (size JMP) with 1.
      unfold je, jb, Lb, Lk, after, rel32.
      repeat (f_equal; try lia). }
    rewrite HL in *. clear HL.
    unfold INT_MAX in *.
    assert (Hje : le_signed32 (rel32 after (lo + 5)) = after - (lo + 9))
      by (rewrite le_signed32_rel32; unfold after; lia).
    assert (Hjb : le_signed32 (rel32 lo (lo + 9 + layout_size b + 1))
                  = lo - (lo + 9 + layout_size b + 5))
      by (rewrite le_signed32_rel32; lia).
    assert (Hk : In after (offsets ([(lo, Icmpb_mem 0, 3); je] ++ Lb ++ [jb] ++ Lk))
                 \/ after = lo + (9 + layout_size b + 5 + layout_size k)).
    { destruct (start_in exit k after) as [H|H]; [left | right; unfold after; lia].
      rewrite !offsets_app. apply in_or_app; right. apply in_or_app; right.
      apply in_or_app; right. exact H. }
    assert (Hbody : In (lo + 9) (offsets ([(lo, Icmpb_mem 0, 3); je] ++ Lb ++ [jb] ++ Lk))).
    { rewrite !offsets_app. apply in_or_app; right.
      destruct (start_in exit b (lo + 9)) as [H|H].
      - apply in_or_app; left. exact H.
      - apply in_or_app; right. apply in_or_app; left.
        unfold jb. cbn [offsets map fst In]. left. lia. }
    apply in_app_or in Hin. destruct Hin as [Hin|Hin].
    { cbn [In] in Hin. destruct Hin as [<-|[<-|[]]].
      - split; [exact I|]. split; [|discriminate].
        intros t [<-|[]]. left. unfold je. in_solve.
      - unfold je. split; [exact I|]. split; [|discriminate].
        intros t Ht. cbn [succs In] in Ht. destruct Ht as [<-|[<-|[]]].
        + left. replace (lo + 3 + 6) with (lo + 9) by lia. exact Hbody.
        + rewrite Hje. replace (lo + 3 + 6 + (after - (lo + 9))) with after by lia.
          destruct Hk as [H|H]; auto. }
    apply in_app_or in Hin. destruct Hin as [Hin|Hin].
    { apply (site_ok_weaken exit (lo + 9 + layout_size b) _ Lb).
      - apply IHb; [lia | lia | exact Hin].
      - apply incl_appr, incl_appl, incl_refl.
      - left. rewrite !offsets_app. apply in_or_app; right. apply in_or_app; right.
        apply in_or_app; left. unfold jb. cbn [offsets map fst In]. now left. }
    apply in_app_or in Hin. destruct Hin as [Hin|Hin].
    { cbn [In] in Hin. destruct Hin as [<-|[]]. unfold jb.
      split; [exact I|]. split; [|discriminate].
      intros t Ht. cbn [succs In] in Ht. destruct Ht as [<-|[]].
      rewrite Hjb. left. cbn [app offsets map fst In]. left. lia. }
    apply (site_ok_weaken exit (after + layout_size k) _ Lk).
    + apply IHk; [unfold after; lia | unfold after; lia | exact Hin].
    + apply incl_appr, incl_appr, incl_appr, incl_refl.
    + right. unfold after. lia.
Qed.

End ControlFlow.

(** ** Execution with a write capability that fails *)

(** [write] returns a C++ [bool] in [%al]: failure is the byte 0. *)
Definition write_always_fails (h : host) : Prop :=
  forall t ctx c, host_write h t ctx c mod 256 = 0.

Section FailingWrite.

Variable code : code_buffer.
Variable h : host.
Variable L : list (Z * instr * Z).
Variable stop : Z.

Hypothesis Hneq : write_addr h <> read_addr h.
Hypothesis Hfail : write_always_fails h.

(** What is used of the program: the listing [L] of its body is what the
    machine fetches, its sites are closed under control flow with [stop] as
    the end of the body and 25 as the exit, [stop] holds the final jump and
    the epilogue is at 25. *)
Hypothesis Hbody : forall q i len, In (q, i, len) L -> fetch code q = Some (i, len).
Hypothesis Hsites : forall e, In e L -> site_ok 25 stop L e.
Hypothesis Hstop : fetch code stop = Some (Ijmp (25 - (stop + 5)), 5).
Hypothesis Hexit :
  fetch code 25 = Some (Ipop RBX, 1) /\ fetch code 26 = Some (Ipop RBP, 1) /\
  fetch code 27 = Some (Ipop R14, 2) /\ fetch code 29 = Some (Ipop R13, 2) /\
  fetch code 31 = Some (Ipop R12, 2) /\ fetch code 33 = Some (Iret, 1).

Definition Normal (m : machine) : Prop :=
  length (stack m) = 5%nat /\
  regs m R12 = write_addr h /\ regs m R14 = read_addr h /\
  writes (trace m) = 0%nat /\
  (In (pc m) (offsets L) \/ pc m = stop).

(** The machine returns within eight instructions, without further calls. *)
Definition Halting (m : machine) : Prop :=
  (writes (trace m) <= 1)%nat /\
  exists k m', (k <= 8)%nat /\ run code h k m = Halt m' /\ trace m' = trace m.

Lemma run_S n m :
  run code h (S n) m =
  match step code h m with
  | Next m' => run code h n m'
  | other => other
  end.
Proof. reflexivity. Qed.

Lemma run_add a : forall b m, run code h (a + b) m = run_on code h b (run code h a m).
Proof.
  induction a as [|a IH]; intros b m; [reflexivity|].
  cbn [Nat.add]. rewrite !run_S. destruct (step code h m); try reflexivity. apply IH.
Qed.

Lemma writes_app t e : writes (t ++ [e]) =
  (writes t + match e with IoWrite _ _ => 1 | IoRead _ => 0 end)%nat.
Proof.
  unfold writes. rewrite filter_app, length_app. destruct e; reflexivity.
Qed.

(** The epilogue: five pops and the return. *)
Lemma exit_run (m : machine) :
  pc m = 25 -> length (stack m) = 5%nat ->
  exists m', run code h 6 m = Halt m' /\ trace m' = trace m.
Proof.
  destruct Hexit as (E25 & E26 & E27 & E29 & E31 & E33).
  destruct m as [pc0 regs0 fl0 st mem0 tr]. cbn [pc stack trace]. intros -> Hst.
  destruct st as [|a [|b [|c [|d [|e [|f st]]]]]]; try discriminate.
  eexists. split.
  - cbn [run]. unfold step; cbn; rewrite E25; cbn.
    unfold step; cbn; rewrite E26; cbn.
    unfold step; cbn; rewrite E27; cbn.
    unfold step; cbn; rewrite E29; cbn.
    unfold step; cbn; rewrite E31; cbn.
    unfold step; cbn; rewrite E33; cbn.
    reflexivity.
  - reflexivity.
Qed.

Lemma halting_at_exit (m : machine) :
  pc m = 25 -> length (stack m) = 5%nat -> (writes (trace m) <= 1)%nat -> Halting m.
Proof.
  intros Hpc Hst Hw. split; [exact Hw|].
  destruct (exit_run m Hpc Hst) as (m' & Hr & Ht).
  exists 6%nat, m'. repeat split; [lia | exact Hr | exact Ht].
Qed.

(** Traces only grow. *)
Lemma exec_trace i next m :
  match exec h i next m with
  | Next m' | Halt m' => exists es, trace m' = trace m ++ es
  | Crash => True
  end.
Proof.
  destruct i; cbn [exec]; try (exists []; cbn; now rewrite app_nil_r).
  - destruct (stack m); [exact I|]. exists []. cbn. now rewrite app_nil_r.
  - unfold call_host.
    destruct (regs m r =? write_addr h); [eexists; reflexivity|].
    destruct (regs m r =? read_addr h); [eexists; reflexivity | exact I].
  - destruct (stack m); [|exact I]. exists []. now rewrite app_nil_r.
Qed.

Lemma step_trace m :
  match step code h m with
  | Next m' | Halt m' => exists es, trace m' = trace m ++ es
  | Crash => True
  end.
Proof.
  unfold step. destruct (fetch code (pc m)) as [[i len]|]; [|exact I].
  apply exec_trace.
Qed.

Lemma run_trace n : forall m m',
  run code h n m = Halt m' -> exists es, trace m' = trace m ++ es.
Proof.
  induction n as [|n IH]; intros m m' H; [discriminate|].
  rewrite run_S in H. pose proof (step_trace m) as T.
  destruct (step code h m) as [m1|m1|]; [| |discriminate].
  - destruct T as (es1 & E1). destruct (IH _ _ H) as (es2 & E2).
    exists (es1 ++ es2). now rewrite E2, E1, app_assoc.
  - injection H as <-. exact T.
Qed.

Lemma halting_step (m : machine) :
  Halting m ->
  match step code h m with
  | Next m' => Halting m'
  | Halt m' => trace m' = trace m
  | Crash => False
  end.
Proof.
  intros (Hw & k & m' & Hk & Hr & Ht).
  destruct k as [|k]; [discriminate|]. rewrite run_S in Hr.
  pose proof (step_trace m) as T.
  destruct (step code h m) as [m1|m1|]; [| |discriminate].
  - destruct T as (es1 & E1). destruct (run_trace _ _ _ Hr) as (es2 & E2).
    assert (es1 = []).
    { rewrite E2, E1, <- app_assoc in Ht.
      rewrite <- (app_nil_r (trace m)) in Ht at 2.
      apply app_inv_head in Ht. now destruct es1. }
    subst es1. rewrite app_nil_r in E1.
    split; [now rewrite E1|]. exists k, m'. repeat split; [lia | exact Hr | congruence].
  - injection Hr as <-. exact Ht.
Qed.

(** A failing write leaves a value other than 1 in [%rax], so the [jne] that
    follows [cmp $0x1,%rax] is taken. *)
Lemma failing_write_not_one (x : Z) :
  x mod 256 = 0 -> taken CondNE (flags_sub 64 (x mod 2 ^ 64) 1) = true.
Proof.
  intro Hx. unfold taken, flags_sub. cbn [ZF].
  assert (Hr : (x mod 2 ^ 64) mod 256 = 0).
  { change (2 ^ 64) with (256 * 2 ^ 56). rewrite Z.rem_mul_r by lia.
    rewrite (Z.mul_comm 256), Z.mod_add by lia.
    rewrite Z.mod_mod by lia. exact Hx. }
  pose proof (Z.mod_pos_bound x (2 ^ 64) ltac:(lia)) as Hb.
  set (r := x mod 2 ^ 64) in *.
  destruct (Z.eqb_spec ((r - 1) mod 2 ^ 64) 0) as [E|_]; [|reflexivity].
  exfalso. destruct (Z.eq_dec r 0) as [->|Hn].
  - change ((0 - 1) mod 2 ^ 64) with (2 ^ 64 - 1) in E. lia.
  - rewrite Z.mod_small in E by lia.
    assert (r = 1) by lia. subst r. rewrite H in Hr. discriminate.
Qed.

Ltac msimpl :=
  cbn [stack regs trace pc fl mem set_pc set_reg set_fl set_stack set_mem
       after_call callee_saved upd reg_eqb].

Lemma normal_step (m : machine) :
  Normal m ->
  match step code h m with
  | Next m' => Normal m' \/ Halting m'
  | Halt _ | Crash => False
  end.
Proof.
  intros (Hst & H12 & H14 & Hw & Hpc).
  assert (Hgo : forall m',
             length (stack m') = 5%nat ->
             regs m' R12 = write_addr h -> regs m' R14 = read_addr h ->
             writes (trace m') = 0%nat ->
             (In (pc m') (offsets L) \/ pc m' = stop \/ pc m' = 25) ->
             Normal m' \/ Halting m').
  { intros m' H1 H2 H3 H4 [H5|[H5|H5]].
    - left. repeat split; auto.
    - left. repeat split; auto.
    - right. apply halting_at_exit; [exact H5 | exact H1 | lia]. }
  destruct Hpc as [Hin|Hpc].
  - apply in_map_iff in Hin. destruct Hin as ([[q i] len] & Hq & Hin).
    cbn [fst] in Hq. pose proof (Hsites _ Hin) as (Hb & Hs & Hcw).
    pose proof (Hbody _ _ _ Hin) as Hf.
    unfold step. rewrite <- Hq, Hf.
    destruct i; cbn [body_instr] in Hb; try contradiction; cbn [exec];
      try (apply Hgo; msimpl; try assumption; apply Hs; cbn [succs In]; now left).
    + subst d. apply Hgo; msimpl; try assumption. apply Hs; cbn [succs In]; now left.
    + destruct Hb as [-> | ->]; unfold call_host.
      * rewrite H12, Z.eqb_refl. cbv zeta.
        destruct (Hcw eq_refl) as (Hc1 & rel & Hc2 & Hrel).
        apply Hbody in Hc1. apply Hbody in Hc2.
        set (r := host_write h (trace m) (regs m RDI) (low8 (regs m RSI)) mod 2 ^ 64).
        set (m1 := after_call h (q + len) r (IoWrite (low8 (regs m RSI)) r) m).
        change (Normal m1 \/ Halting m1).
        right. split.
        { unfold m1. cbn [trace after_call].
          rewrite writes_app, Hw. cbn. lia. }
        set (m3 := set_pc 25 (set_fl (flags_sub 64 r 1) (set_pc (q + len + 4) m1))).
        destruct (exit_run m3 eq_refl Hst) as (m4 & Hr4 & Ht4).
        exists 8%nat, m4. split; [lia|]. split; [|exact Ht4].
        change 8%nat with (2 + 6)%nat. rewrite run_add.
        cbn [run]. unfold step. replace (pc m1) with (q + len) by reflexivity.
        rewrite Hc1. cbn [exec].
        unfold step. cbn [pc set_fl set_pc]. rewrite Hc2. cbn [exec run_on].
        replace (regs m1 RAX) with r by reflexivity.
        replace (fl (set_fl (flags_sub 64 r 1) (set_pc (q + len + 4) m1)))
          with (flags_sub 64 r 1) by reflexivity.
        unfold r at 1. rewrite failing_write_not_one by apply Hfail.
        fold r. rewrite Hrel. exact Hr4.
      * rewrite H14.
        destruct (Z.eqb_spec (read_addr h) (write_addr h)) as [E|_];
          [now symmetry in E|].
        rewrite Z.eqb_refl.
        apply Hgo; msimpl; try assumption.
        -- now rewrite writes_app, Hw.
        -- apply Hs; cbn [succs In]; now left.
    + destruct (taken c (fl m)); apply Hgo; msimpl; try assumption;
        apply Hs; cbn [succs In]; auto.
  - unfold step. rewrite Hpc, Hstop. cbn [exec].
    right. apply halting_at_exit; msimpl; [lia | exact Hst | lia].
Qed.

Lemma invariant_run (n : nat) : forall m,
  Normal m \/ Halting m ->
  match run code h n m with
  | Next m' => Normal m' \/ Halting m'
  | Halt m' => (writes (trace m') <= 1)%nat
  | Crash => False
  end.
Proof.
  induction n as [|n IH]; intros m Hm; [exact Hm|].
  rewrite run_S. destruct Hm as [Hm|Hm].
  - pose proof (normal_step m Hm) as S.
    destruct (step code h m) as [m'| |]; [now apply IH | destruct S | destruct S].
  - pose proof (halting_step m Hm) as S. destruct Hm as [Hw _].
    destruct (step code h m) as [m'|m'|]; [apply IH; now right | now rewrite S | destruct S].
Qed.

End FailingWrite.

(** ** The prologue *)

Section Prologue.

Variable code : code_buffer.
Variable h : host.

Lemma run_trace_next (n : nat) : forall m m',
  run code h n m = Next m' -> exists es, trace m' = trace m ++ es.
Proof.
  induction n as [|n IH]; intros m m' H.
  - injection H as <-. exists []. now rewrite app_nil_r.
  - rewrite run_S in H. pose proof (step_trace code h m) as T.
    destruct (step code h m) as [m1|m1|]; try discriminate.
    destruct T as (es1 & E1). destruct (IH _ _ H) as (es2 & E2).
    exists (es1 ++ es2). now rewrite E2, E1, app_assoc.
Qed.

(** A run that is still going was going at every earlier point. *)
Lemma run_earlier (a b : nat) (m m2 : machine) :
  run code h (a + b) m = Next m2 ->
  exists m1 es, run code h a m = Next m1 /\ trace m2 = trace m1 ++ es.
Proof.
  rewrite run_add. destruct (run code h a m) as [m1|m1|]; try discriminate.
  cbn [run_on]. intro H. destruct (run_trace_next _ _ _ H) as (es & E).
  now exists m1, es.
Qed.

Hypothesis Hprologue :
  fetch code 0 = Some (Ipush R12, 2) /\ fetch code 2 = Some (Ipush R13, 2) /\
  fetch code 4 = Some (Ipush R14, 2) /\ fetch code 6 = Some (Ipush RBP, 1) /\
  fetch code 7 = Some (Ipush RBX, 1) /\ fetch code 8 = Some (Imov RDI R12, 3) /\
  fetch code 11 = Some (Imov RSI R13, 3) /\ fetch code 14 = Some (Imov RDX R14, 3) /\
  fetch code 17 = Some (Imov RCX RBP, 3) /\ fetch code 20 = Some (Imov R8 RBX, 3) /\
  fetch code 23 = Some (Ijmp 9, 2).

Ltac prologue_step E :=
  unfold step at 1; cbn [pc set_pc set_reg set_stack]; rewrite E; cbn [exec].

(** Five pushes, five moves and the jump over the epilogue. *)
Lemma prologue_run (m0 : machine) :
  pc m0 = 0 -> stack m0 = [] ->
  exists m,
    run code h 11 m0 = Next m /\
    pc m = 34 /\ length (stack m) = 5%nat /\
    regs m R12 = regs m0 RDI /\ regs m R14 = regs m0 RDX /\ trace m = trace m0.
Proof.
  destruct Hprologue as (E0 & E2 & E4 & E6 & E7 & E8 & E11 & E14 & E17 & E20 & E23).
  destruct m0 as [pc0 regs0 fl0 st mem0 tr]. cbn [pc stack trace regs].
  intros -> ->. eexists. split.
  - cbn [run].
    prologue_step E0. change (0 + 2) with 2.
    prologue_step E2. change (2 + 2) with 4.
    prologue_step E4. change (4 + 2) with 6.
    prologue_step E6. change (6 + 1) with 7.
    prologue_step E7. change (7 + 1) with 8.
    prologue_step E8. change (8 + 3) with 11.
    prologue_step E11. change (11 + 3) with 14.
    prologue_step E14. change (14 + 3) with 17.
    prologue_step E17. change (17 + 3) with 20.
    prologue_step E20. change (20 + 3) with 23.
    prologue_step E23. change (23 + 2 + 9) with 34.
    reflexivity.
  - repeat split.
Qed.

End Prologue.

(** ** The compiled program under a failing write *)

Section CompiledProgram.

Definition program_code (p : layout) : code_buffer :=
  init_prefix ++ encode 25 34 p ++ (JMP ++ rel32 25 (34 + layout_size p + 1)).

Lemma add_jmp_to_offset_eq (target : Z) (code : code_buffer) :
  add_jmp_to_offset target code = code ++ JMP ++ rel32 target (size code + 1).
Proof.
  unfold add_jmp_to_offset, rel32. rewrite relative_address_eq, size_app.
  change (size JMP) with 1. now rewrite <- app_assoc.
Qed.

Lemma init_code_program (s : source) (code : code_buffer) :
  34 + 20 * Z.of_nat (length s) <= INT_MAX ->
  init_code s = Done code ->
  exists p, code = program_code p /\ layout_size p <= 20 * Z.of_nat (length s).
Proof.
  intros Hsz Hc. destruct (init_code_cases s Hsz) as [(p & Hp & Hb)|(rest & Hr)];
    [|congruence].
  exists p. split; [|exact Hb].
  assert (E : code = add_jmp_to_exit init_exit_offset
                       (init_prefix ++ encode init_exit_offset 34 p)) by congruence.
  rewrite E. change init_exit_offset with 25.
  unfold add_jmp_to_exit. rewrite add_jmp_to_offset_eq.
  rewrite size_app, size_init_prefix, size_encode.
  unfold program_code. now rewrite <- app_assoc.
Qed.

Variable p : layout.
Hypothesis Hsize : 34 + layout_size p + 5 <= INT_MAX.

Lemma program_fetch_body q i len :
  In (q, i, len) (place 34 (asm 25 34 p)) ->
  fetch (program_code p) q = Some (i, len).
Proof.
  intro H. unfold program_code. rewrite <- bytes_of_asm.
  apply (fetch_place (asm 25 34 p) (decodable_asm 25 p 34) init_prefix _ 34);
    [reflexivity | exact H].
Qed.

Lemma program_sites e :
  In e (place 34 (asm 25 34 p)) ->
  site_ok 25 (34 + layout_size p) (place 34 (asm 25 34 p)) e.
Proof.
  pose proof (layout_size_nonneg p).
  apply asm_sites; unfold INT_MAX in *; lia.
Qed.

Lemma program_fetch_stop :
  fetch (program_code p) (34 + layout_size p)
  = Some (Ijmp (25 - (34 + layout_size p + 5)), 5).
Proof.
  pose proof (layout_size_nonneg p) as H0.
  unfold program_code. rewrite app_assoc, fetch_at
    by (rewrite size_app, size_init_prefix, size_encode; reflexivity).
  destruct (decodable_jump_item_jcc 25 (34 + layout_size p + 1)) as (_ & _ & _ & D).
  specialize (D []). unfold jump_item in D. cbn [fst snd] in D.
  rewrite app_nil_r in D. rewrite D.
  rewrite le_signed32_rel32 by (unfold INT_MAX in *; lia).
  unfold rel32. rewrite size_app, size_le_bytes. change (size JMP) with 1.
  do 3 f_equal. lia.
Qed.

Lemma program_fetch_exit :
  fetch (program_code p) 25 = Some (Ipop RBX, 1) /\
  fetch (program_code p) 26 = Some (Ipop RBP, 1) /\
  fetch (program_code p) 27 = Some (Ipop R14, 2) /\
  fetch (program_code p) 29 = Some (Ipop R13, 2) /\
  fetch (program_code p) 31 = Some (Ipop R12, 2) /\
  fetch (program_code p) 33 = Some (Iret, 1).
Proof. repeat split; reflexivity. Qed.

Variable h : host.
Variables (memory : Z) (others : reg -> Z) (tape : Z -> Z).

Lemma program_fetch_prologue :
  fetch (program_code p) 0 = Some (Ipush R12, 2) /\
  fetch (program_code p) 2 = Some (Ipush R13, 2) /\
  fetch (program_code p) 4 = Some (Ipush R14, 2) /\
  fetch (program_code p) 6 = Some (Ipush RBP, 1) /\
  fetch (program_code p) 7 = Some (Ipush RBX, 1) /\
  fetch (program_code p) 8 = Some (Imov RDI R12, 3) /\
  fetch (program_code p) 11 = Some (Imov RSI R13, 3) /\
  fetch (program_code p) 14 = Some (Imov RDX R14, 3) /\
  fetch (program_code p) 17 = Some (Imov RCX RBP, 3) /\
  fetch (program_code p) 20 = Some (Imov R8 RBX, 3) /\
  fetch (program_code p) 23 = Some (Ijmp 9, 2).
Proof. repeat split; reflexivity. Qed.

End CompiledProgram.

(** On the machine whose tape is all of memory: a compiled program (of a
    source short enough for [int] offsets), entered as [run] enters it with
    a write capability that always reports failure, stays within the
    generated instructions, calls the write capability at most once, and
    once it has called it returns within eight instructions (the compare,
    the [jne] to the exit, the five pops and the return) without calling a
    capability again. *)
Lemma failing_write_at_most_once
    (s : source) (code : code_buffer) (h : host)
    (memory : Z) (others : reg -> Z) (tape : Z -> Z) :
  init_code s = Done code ->
  39 + 20 * Z.of_nat (length s) <= INT_MAX ->
  write_addr h <> read_addr h ->
  write_always_fails h ->
  forall n : nat,
    match run code h n (entry h memory others tape) with
    | Next m =>
        (writes (trace m) <= 1)%nat /\
        (writes (trace m) = 1%nat ->
         exists k m', (k <= 8)%nat /\ run code h k m = Halt m' /\ trace m' = trace m)
    | Halt m => (writes (trace m) <= 1)%nat
    | Crash => False
    end.
Proof.
  intros Hc Hsz Hneq Hfail n.
  destruct (init_code_program s code ltac:(lia) Hc) as (p & -> & Hp).
  assert (Hsize : 34 + layout_size p + 5 <= INT_MAX) by lia.
  destruct (prologue_run (program_code p) h (program_fetch_prologue p)
              (entry h memory others tape) eq_refl eq_refl)
    as (m & Hrun & Hpc & Hst & H12 & H14 & Ht).
  cbn [entry regs trace] in H12, H14, Ht.
  destruct (le_lt_dec n 11) as [Hn|Hn].
  - replace 11%nat with (n + (11 - n))%nat in Hrun by lia.
    destruct (run_earlier (program_code p) h n (11 - n) _ _ Hrun) as (m1 & es & -> & E).
    rewrite Ht in E. symmetry in E. apply app_eq_nil in E. destruct E as [-> _].
    split; [cbn; lia | discriminate].
  - replace n with (11 + (n - 11))%nat by lia. rewrite run_add, Hrun.
    cbn [run_on].
    pose proof (invariant_run (program_code p) h (place 34 (asm 25 34 p))
                  (34 + layout_size p) Hneq Hfail
                  (program_fetch_body p) (program_sites p Hsize)
                  (program_fetch_stop p Hsize) (program_fetch_exit p)
                  (n - 11) m) as I.
    assert (Hm : Normal h (place 34 (asm 25 34 p)) (34 + layout_size p) m
                 \/ Halting (program_code p) h m).
    { left. repeat split; try assumption.
      - now rewrite Ht.
      - rewrite Hpc. destruct (start_in 25 p 34) as [H|H]; [now left | right; lia]. }
    specialize (I Hm).
    destruct (run (program_code p) h (n - 11) m) as [m'|m'|]; try exact I.
    destruct I as [(_ & _ & _ & Hw & _)|(Hw & Hk)].
    + rewrite Hw. split; [lia | discriminate].
    + split; [exact Hw | intros _; exact Hk].
Qed.

(** A host whose [write] always reports failure. *)
Definition host_failing_write : host :=
  {| write_addr := 4198400; read_addr := 4198464;
     host_write := fun _ _ _ => 0;
     host_read := fun _ _ => 65;
     host_scratch := fun _ _ => 0;
     host_flags := fun _ => {| ZF := true; SF := false; OF := false |} |}.

(** The program "+.+." with that host: one call of [write], with the byte 1,
    and the return; the second "." is never reached. *)
Example failing_write_example :
  match run (compiled "+.+.") host_failing_write 40
          (entry host_failing_write 8192 (fun _ => 0) (fun _ => 0)) with
  | Halt m => trace m = [IoWrite 1 0] /\ mem m 8192 = 1
  | _ => False
  end.
Proof. vm_compute. split; reflexivity. Qed.

(** The test program of the specification prints the byte 100. *)
Example hundred_example :
  match run (compiled "++++++++++[>++++++++++<-]>.") host_reads_A 2000
          (entry host_reads_A 8192 (fun _ => 0) (fun _ => 0)) with
  | Halt m => trace m = [IoWrite 100 1]
  | _ => False
  end.
Proof. vm_compute. reflexivity. Qed.

(** * More of the code

    ** What the emitted fragments do when they are executed

    Each emitter appends its bytes to the buffer; the machine is put at the
    offset where they start, whatever follows them in the finished code. *)

Ltac machine_simpl :=
  cbn [stack regs trace pc fl mem set_pc set_reg set_fl set_stack set_mem
       after_call callee_saved upd reg_eqb].

Section Fragments.

Variable h : host.

Lemma fetch_fragment (exit : Z) (pre post : code_buffer) (f : fragment) q i len :
  In (q, i, len) (place (size pre) (asm_fragment exit (size pre) f)) ->
  fetch (pre ++ fragment_bytes exit (size pre) f ++ post) q = Some (i, len).
Proof.
  intro H. rewrite <- bytes_of_asm_fragment.
  apply (fetch_place _ (decodable_asm_fragment exit (size pre) f) pre post (size pre));
    [reflexivity | exact H].
Qed.

Lemma step_at (code : code_buffer) (m : machine) (q : Z) i len :
  pc m = q -> fetch code q = Some (i, len) -> step code h m = exec h i (q + len) m.
Proof. intros <- H. unfold step. now rewrite H. Qed.

Ltac fragment_step F q :=
  erewrite (step_at _ _ q);
  [ | machine_simpl; lia
    | apply F; cbn [In]; repeat first [ left; reflexivity | right ] ];
  cbn [exec].

Lemma low8_with_low8 (x b : Z) : low8 (with_low8 x b) = b mod 256.
Proof.
  unfold low8, with_low8.
  rewrite (Z.div_mod x 256) at 1 by lia.
  replace (256 * (x / 256) + x mod 256 - x mod 256 + b mod 256)
    with (b mod 256 + (x / 256) * 256) by lia.
  rewrite Z.mod_add by lia. apply Z.mod_mod. lia.
Qed.

Lemma upd_other (f : reg -> Z) (r r' : reg) (v : Z) :
  r' <> r -> upd f r v r' = f r'.
Proof. unfold upd. destruct r, r'; cbn [reg_eqb]; congruence. Qed.

Lemma store_same (t : Z -> Z) (a v : Z) : store t a v a = v.
Proof. unfold store. now rewrite Z.eqb_refl. Qed.

Lemma store_other (t : Z -> Z) (a a' v : Z) : a' <> a -> store t a v a' = t a'.
Proof. unfold store. intro H. destruct (Z.eqb_spec a' a); congruence. Qed.

(** X1.  The code of [generate_right_code] adds one to the tape pointer
    [%rbx] (modulo 2^64) in one instruction and touches nothing else but the
    flags. *)
Theorem right_fragment_moves_pointer (pre post : code_buffer) (m : machine) :
  exists m',
    run (generate_right_code pre ++ post) h 1 (set_pc (size pre) m) = Next m' /\
    pc m' = size pre + 4 /\
    regs m' RBX = (regs m RBX + 1) mod 2 ^ 64 /\
    (forall r, r <> RBX -> regs m' r = regs m r) /\
    mem m' = mem m /\ stack m' = stack m /\ trace m' = trace m.
Proof.
  unfold generate_right_code. rewrite <- app_assoc.
  pose proof (fetch_fragment 0 pre post FRight) as F.
  rewrite place_fragment in F. cbn [fragment_bytes In] in F.
  eexists. split.
  - cbn [run]. fragment_step F (size pre). reflexivity.
  - machine_simpl. repeat split. intros r Hr. now apply upd_other.
Qed.

(** X2.  The code of [generate_left_code] subtracts one from the tape
    pointer (modulo 2^64: at 0 it wraps to 2^64-1, there is no bounds check)
    and touches nothing else but the flags. *)
Theorem left_fragment_moves_pointer (pre post : code_buffer) (m : machine) :
  exists m',
    run (generate_left_code pre ++ post) h 1 (set_pc (size pre) m) = Next m' /\
    pc m' = size pre + 4 /\
    regs m' RBX = (regs m RBX - 1) mod 2 ^ 64 /\
    (forall r, r <> RBX -> regs m' r = regs m r) /\
    mem m' = mem m /\ stack m' = stack m /\ trace m' = trace m.
Proof.
  unfold generate_left_code. rewrite <- app_assoc.
  pose proof (fetch_fragment 0 pre post FLeft) as F.
  rewrite place_fragment in F. cbn [fragment_bytes In] in F.
  eexists. split.
  - cbn [run]. fragment_step F (size pre). reflexivity.
  - machine_simpl. repeat split. intros r Hr. now apply upd_other.
Qed.

(** X3.  The code of [generate_add_code] adds one, modulo 256, to the byte
    under the tape pointer, in three instructions; every other cell, every
    register but [%rax], the stack and the trace are as before. *)
Theorem add_fragment_increments_cell (pre post : code_buffer) (m : machine) :
  exists m',
    run (generate_add_code pre ++ post) h 3 (set_pc (size pre) m) = Next m' /\
    pc m' = size pre + 6 /\
    mem m' (regs m RBX) = (mem m (regs m RBX) + 1) mod 256 /\
    (forall a, a <> regs m RBX -> mem m' a = mem m a) /\
    (forall r, r <> RAX -> regs m' r = regs m r) /\
    stack m' = stack m /\ trace m' = trace m.
Proof.
  unfold generate_add_code. rewrite <- app_assoc.
  pose proof (fetch_fragment 0 pre post FAdd) as F.
  rewrite place_fragment in F. cbn [fragment_bytes In] in F.
  eexists. split.
  - cbn [run].
    fragment_step F (size pre).
    fragment_step F (size pre + 2).
    fragment_step F (size pre + 4).
    reflexivity.
  - machine_simpl. repeat split.
    + lia.
    + rewrite store_same, !low8_with_low8. unfold low8.
      now rewrite Zplus_mod_idemp_l.
    + intros a Ha. now apply store_other.
    + intros r Hr. now rewrite !upd_other.
Qed.

(** X4.  The code of [generate_subtract_code] subtracts one, modulo 256,
    from the byte under the tape pointer (0 becomes 255); every other cell,
    every register but [%rax], the stack and the trace are as before. *)
Theorem subtract_fragment_decrements_cell (pre post : code_buffer) (m : machine) :
  exists m',
    run (generate_subtract_code pre ++ post) h 3 (set_pc (size pre) m) = Next m' /\
    pc m' = size pre + 6 /\
    mem m' (regs m RBX) = (mem m (regs m RBX) - 1) mod 256 /\
    (forall a, a <> regs m RBX -> mem m' a = mem m a) /\
    (forall r, r <> RAX -> regs m' r = regs m r) /\
    stack m' = stack m /\ trace m' = trace m.
Proof.
  unfold generate_subtract_code. rewrite <- app_assoc.
  pose proof (fetch_fragment 0 pre post FSubtract) as F.
  rewrite place_fragment in F. cbn [fragment_bytes In] in F.
  eexists. split.
  - cbn [run].
    fragment_step F (size pre).
    fragment_step F (size pre + 2).
    fragment_step F (size pre + 4).
    reflexivity.
  - machine_simpl. repeat split.
    + lia.
    + rewrite store_same, !low8_with_low8. unfold low8.
      now rewrite Zminus_mod_idemp_l.
    + intros a Ha. now apply store_other.
    + intros r Hr. now rewrite !upd_other.
Qed.

Lemma generate_write_code_eq (exit : Z) (pre : code_buffer) :
  generate_write_code exit pre = pre ++ fragment_bytes exit (size pre) FWrite.
Proof.
  unfold generate_write_code, add_jne_to_exit, fragment_bytes, rel32.
  rewrite relative_address_eq, !size_app.
  change (size WRITE) with 14. change (size JNE) with 2.
  rewrite <- !app_assoc. do 5 f_equal. lia.
Qed.

Lemma generate_read_code_eq (exit : Z) (pre : code_buffer) :
  generate_read_code exit pre = pre ++ fragment_bytes exit (size pre) FRead.
Proof.
  unfold generate_read_code, add_jl_to_exit, fragment_bytes, rel32.
  rewrite relative_address_eq, !size_app.
  change (size READ) with 10. change (size JL) with 2.
  rewrite <- !app_assoc. do 6 f_equal. lia.
Qed.

(** After [cmp $0x1,%rax] the [jne] is taken unless [%rax] is exactly 1. *)
Lemma jne_after_cmp_one (r : Z) :
  0 <= r < 2 ^ 64 -> taken CondNE (flags_sub 64 r 1) = negb (r =? 1).
Proof.
  intro Hr. unfold taken, flags_sub. cbn [ZF]. f_equal.
  destruct (Z.eqb_spec r 1) as [->|Hne]; [reflexivity|].
  destruct (Z.eq_dec r 0) as [->|Hn0]; [reflexivity|].
  rewrite Z.mod_small by lia. destruct (Z.eqb_spec (r - 1) 0); [lia | reflexivity].
Qed.

(** After [cmp $0x0,%rax] the [jl] is taken exactly when [%rax] is negative
    as a signed 64-bit number. *)
Lemma jl_after_cmp_zero (r : Z) :
  0 <= r < 2 ^ 64 -> taken CondL (flags_sub 64 r 0) = negb (r <? 2 ^ 63).
Proof.
  intro Hr. unfold taken, flags_sub. cbn [SF OF].
  rewrite Z.sub_0_r, Z.mod_small by lia.
  change (signed 64 0) with 0. rewrite Z.sub_0_r, Z.eqb_refl. cbn [negb].
  rewrite xorb_false_r. change (2 ^ (64 - 1)) with (2 ^ 63).
  destruct (Z.leb_spec (2 ^ 63) r), (Z.ltb_spec r (2 ^ 63)); try reflexivity; lia.
Qed.

(** An [n]-byte store at [a] writes the bytes of [v], lowest first, into
    the [n] cells from [a] on and into no other. *)
Lemma store_bytes_spec (n : nat) :
  forall (t : Z -> Z) (a v a' : Z),
    0 <= a -> a + Z.of_nat n <= 2 ^ 64 ->
    store_bytes n t a v a' =
    if (a <=? a') && (a' <? a + Z.of_nat n)
    then (v / 256 ^ (a' - a)) mod 256 else t a'.
Proof.
  induction n as [|n IH]; intros t a v a' Ha Hn.
  - cbn [store_bytes]. destruct (Z.leb_spec a a'), (Z.ltb_spec a' (a + Z.of_nat 0));
      cbn [andb]; try reflexivity; lia.
  - destruct n as [|n'].
    { cbn [store_bytes]. unfold store. change (Z.of_nat 1) with 1.
      destruct (Z.leb_spec a a'), (Z.ltb_spec a' (a + 1)), (Z.eqb_spec a' a);
        cbn [andb]; try lia; try reflexivity.
      subst a'. now rewrite Z.sub_diag, Z.div_1_r. }
    cbn [store_bytes]. rewrite !Nat2Z.inj_succ in *.
    rewrite (Z.mod_small (a + 1)) by lia.
    change (store_bytes n' (store (store t a (v mod 256)) (a + 1) (v / 256 mod 256))
              ((a + 1 + 1) mod 2 ^ 64) (v / 256 / 256) a')
      with (store_bytes (S n') (store t a (v mod 256)) (a + 1) (v / 256) a').
    rewrite IH by lia.
    unfold store.
    destruct (Z.leb_spec (a + 1) a'), (Z.ltb_spec a' (a + 1 + Z.succ (Z.of_nat n'))),
      (Z.leb_spec a a'), (Z.ltb_spec a' (a + Z.succ (Z.succ (Z.of_nat n'))));
      cbn [andb]; try lia.
    + replace (a' - a) with (Z.succ (a' - (a + 1))) by lia.
      rewrite Z.pow_succ_r by lia. now rewrite Z.div_div by lia.
    + destruct (Z.eqb_spec a' a); [lia | reflexivity].
    + assert (a' = a) by lia. subst a'. rewrite Z.eqb_refl, Z.sub_diag.
      now rewrite Z.div_1_r.
    + destruct (Z.eqb_spec a' a); [lia | reflexivity].
Qed.

(** X5.  The code of [generate_write_code]: with the write capability in
    [%r12], it calls it with the context [%r13] and the byte under the tape
    pointer, and goes on to the next fragment exactly when the call leaves 1
    in the whole of [%rax]; with any other value it goes to the exit.  The
    tape, the stack and the callee-saved registers are as before. *)
Theorem write_fragment_runs (exit : Z) (pre post : code_buffer) (m : machine) :
  0 <= exit <= INT_MAX ->
  size pre + 20 <= INT_MAX ->
  regs m R12 = write_addr h ->
  let c := low8 (mem m (regs m RBX)) in
  let r := host_write h (trace m) (regs m R13) c mod 2 ^ 64 in
  exists m',
    run (generate_write_code exit pre ++ post) h 5 (set_pc (size pre) m) = Next m' /\
    pc m' = (if r =? 1 then size pre + 20 else exit) /\
    trace m' = trace m ++ [IoWrite c r] /\
    mem m' = mem m /\ stack m' = stack m /\
    (forall x, callee_saved x = true -> regs m' x = regs m x).
Proof.
  intros He Hsz H12 c r. pose proof (size_nonneg pre) as Hp. unfold INT_MAX in *.
  rewrite generate_write_code_eq, <- app_assoc.
  pose proof (fetch_fragment exit pre post FWrite) as F.
  rewrite place_fragment in F.
  assert (Hr : 0 <= r < 2 ^ 64) by (apply Z.mod_pos_bound; lia).
  eexists. split.
  - cbn [run].
    fragment_step F (size pre).
    fragment_step F (size pre + 3).
    fragment_step F (size pre + 7).
    machine_simpl. unfold call_host. rewrite H12, Z.eqb_refl. cbv zeta.
    fragment_step F (size pre + 10).
    fragment_step F (size pre + 14).
    reflexivity.
  - machine_simpl. fold c.
    replace (low8 c) with c by (unfold c, low8; now rewrite Z.mod_mod by lia).
    fold r. rewrite jne_after_cmp_one by exact Hr.
    rewrite le_signed32_rel32 by lia.
    repeat split.
    + destruct (r =? 1); cbn [negb]; lia.
    + intros x Hx. rewrite Hx. destruct x; try discriminate; reflexivity.
Qed.

(** X6.  The code of [generate_read_code]: with the read capability in
    [%r14], it calls it with the context [%rbp].  When the result is not
    negative as a signed 64-bit number (0 included) it stores the eight bytes
    of [%rax], lowest first, from the tape pointer on, changes no other cell
    and goes on to the next fragment; when it is negative it goes to the exit
    and leaves the tape alone. *)
Theorem read_fragment_runs (exit : Z) (pre post : code_buffer) (m : machine) :
  0 <= exit <= INT_MAX ->
  size pre + 19 <= INT_MAX ->
  regs m R14 = read_addr h ->
  read_addr h <> write_addr h ->
  0 <= regs m RBX -> regs m RBX + 8 <= 2 ^ 64 ->
  let r := host_read h (trace m) (regs m RBP) mod 2 ^ 64 in
  exists m',
    run (generate_read_code exit pre ++ post) h (if r <? 2 ^ 63 then 5 else 4)
        (set_pc (size pre) m) = Next m' /\
    pc m' = (if r <? 2 ^ 63 then size pre + 19 else exit) /\
    trace m' = trace m ++ [IoRead r] /\
    (forall a,
       mem m' a =
       if (r <? 2 ^ 63) && (regs m RBX <=? a) && (a <? regs m RBX + 8)
       then (r / 256 ^ (a - regs m RBX)) mod 256 else mem m a) /\
    stack m' = stack m /\
    (forall x, callee_saved x = true -> regs m' x = regs m x).
Proof.
  intros He Hsz H14 Hneq Hb0 Hb8 r. pose proof (size_nonneg pre) as Hp.
  unfold INT_MAX in *.
  rewrite generate_read_code_eq, <- app_assoc.
  pose proof (fetch_fragment exit pre post FRead) as F.
  rewrite place_fragment in F.
  assert (Hr : 0 <= r < 2 ^ 64) by (apply Z.mod_pos_bound; lia).
  assert (Hcall : forall q,
             call_host h (regs m R14) q (set_reg RDI (regs m RBP) (set_pc (size pre + 3) m))
             = Next (after_call h q r (IoRead r)
                       (set_reg RDI (regs m RBP) (set_pc (size pre + 3) m)))).
  { intro q. unfold call_host. rewrite H14.
    destruct (Z.eqb_spec (read_addr h) (write_addr h)); [contradiction|].
    rewrite Z.eqb_refl. reflexivity. }
  destruct (Z.ltb_spec r (2 ^ 63)) as [Hpos|Hneg].
  - eexists. split.
    + cbn [run].
      fragment_step F (size pre).
      fragment_step F (size pre + 3).
      machine_simpl. rewrite Hcall.
      fragment_step F (size pre + 6).
      fragment_step F (size pre + 10).
      machine_simpl. rewrite jl_after_cmp_zero by exact Hr.
      destruct (Z.ltb_spec r (2 ^ 63)); [|lia]. cbn [negb].
      fragment_step F (size pre + 16).
      reflexivity.
    + machine_simpl. repeat split.
      * lia.
      * intro a. rewrite store_bytes_spec by lia. cbn [andb]. reflexivity.
      * intros x Hx. rewrite Hx. destruct x; try discriminate; reflexivity.
  - eexists. split.
    + cbn [run].
      fragment_step F (size pre).
      fragment_step F (size pre + 3).
      machine_simpl. rewrite Hcall.
      fragment_step F (size pre + 6).
      fragment_step F (size pre + 10).
      machine_simpl. rewrite jl_after_cmp_zero by exact Hr.
      destruct (Z.ltb_spec r (2 ^ 63)); [lia|]. cbn [negb].
      reflexivity.
    + machine_simpl. repeat split.
      * rewrite le_signed32_rel32 by lia. lia.
      * intros x Hx. rewrite Hx. destruct x; try discriminate; reflexivity.
Qed.

(** The buffer that [generate_loop_code] returns. *)
Lemma generate_loop_code_done (exit : Z) (range : source) (pre final : code_buffer) :
  generate_loop_code exit range pre = Done final ->
  size pre + 14 + 20 * Z.of_nat (length range) <= INT_MAX ->
  exists ext,
    let after := size pre + 9 + size ext + 5 in
    final = pre ++ LOOP_CMP ++ (JE ++ rel32 after (size pre + 5)) ++ ext
                ++ (JMP ++ rel32 (size pre) (size pre + 9 + size ext + 1)) /\
    size final = after /\ after <= INT_MAX.
Proof.
  intros H Hsz. pose proof (size_nonneg pre) as Hp.
  assert (Hl : (length (tl range) <= length range)%nat) by (destruct range; simpl; lia).
  pose proof (generate_sequence_code_layout exit (S (length (tl range))) (tl range)
                ((pre ++ LOOP_CMP) ++ PLACEHOLDER) ltac:(lia)) as Lay.
  fold (generate_sequence_code exit (tl range) ((pre ++ LOOP_CMP) ++ PLACEHOLDER)) in Lay.
  rewrite !size_app in Lay.
  change (size LOOP_CMP) with 3 in Lay. change (size PLACEHOLDER) with 6 in Lay.
  specialize (Lay ltac:(lia)).
  destruct (generate_sequence_code exit (tl range) ((pre ++ LOOP_CMP) ++ PLACEHOLDER))
    as [out| | |] eqn:G.
  - destruct Lay as (b & -> & Hb).
    unfold generate_loop_code in H.
    rewrite (generate_loop_code_with_done _ range pre (encode exit (size pre + 3 + 6) b))
      in H; [| rewrite size_encode; lia | exact G].
    match type of H with
    | Done ?x = Done _ => assert (E : final = x) by congruence
    end.
    clear H. subst final. exists (encode exit (size pre + 3 + 6) b). cbv zeta.
    rewrite size_encode in *. pose proof (layout_size_nonneg b).
    split; [reflexivity|]. split; [|lia].
    unfold rel32. rewrite !size_app, !size_le_bytes, size_encode.
    change (size LOOP_CMP) with 3. change (size JE) with 2. change (size JMP) with 1.
    lia.
  - unfold generate_loop_code, generate_loop_code_with in H. rewrite G in H. discriminate.
  - destruct Lay.
  - destruct Lay.
Qed.

(** X7.  The code of [generate_loop_code].  At the test, two instructions
    lead past the back-jump (the end of the returned buffer) when the byte
    under the tape pointer is 0 and into the body, nine bytes after the test,
    when it is not; the back-jump, the last five bytes, leads to the test.
    Registers, tape, stack and trace are not changed by either. *)
Theorem loop_code_runs
    (exit : Z) (range : source) (pre final post : code_buffer) (m : machine) :
  generate_loop_code exit range pre = Done final ->
  size pre + 14 + 20 * Z.of_nat (length range) <= INT_MAX ->
  (exists m1,
     run (final ++ post) h 2 (set_pc (size pre) m) = Next m1 /\
     pc m1 = (if low8 (mem m (regs m RBX)) =? 0 then size final else size pre + 9) /\
     regs m1 = regs m /\ mem m1 = mem m /\ stack m1 = stack m /\ trace m1 = trace m) /\
  (exists m2,
     run (final ++ post) h 1 (set_pc (size final - 5) m) = Next m2 /\
     pc m2 = size pre /\
     regs m2 = regs m /\ fl m2 = fl m /\ mem m2 = mem m /\
     stack m2 = stack m /\ trace m2 = trace m).
Proof.
  intros H Hsz. destruct (generate_loop_code_done _ _ _ _ H Hsz) as (ext & Hf & Hs & Ha).
  cbv zeta in *. pose proof (size_nonneg pre) as Hp. pose proof (size_nonneg ext) as He.
  unfold INT_MAX in *.
  set (after := size pre + 9 + size ext + 5) in *.
  set (je := JE ++ rel32 after (size pre + 5)) in *.
  set (jb := JMP ++ rel32 (size pre) (size pre + 9 + size ext + 1)) in *.
  assert (F1 : fetch (final ++ post) (size pre) = Some (Icmpb_mem 0, 3)).
  { rewrite Hf, <- app_assoc. rewrite fetch_at by reflexivity. reflexivity. }
  assert (F2 : fetch (final ++ post) (size pre + 3)
               = Some (Ijcc CondE (le_signed32 (rel32 after (size pre + 5))), 6)).
  { rewrite Hf.
    replace ((pre ++ LOOP_CMP ++ je ++ ext ++ jb) ++ post)
      with ((pre ++ LOOP_CMP) ++ je ++ (ext ++ jb ++ post))
      by (now rewrite <- !app_assoc).
    rewrite fetch_at by (now rewrite size_app).
    destruct (decodable_jump_item_jcc after (size pre + 5)) as (_ & _ & D & _).
    apply (D (ext ++ jb ++ post)). }
  assert (F3 : fetch (final ++ post) (size final - 5)
               = Some (Ijmp (le_signed32 (rel32 (size pre) (size pre + 9 + size ext + 1))), 5)).
  { rewrite Hs, Hf.
    replace ((pre ++ LOOP_CMP ++ je ++ ext ++ jb) ++ post)
      with ((pre ++ LOOP_CMP ++ je ++ ext) ++ jb ++ post)
      by (now rewrite <- !app_assoc).
    rewrite fetch_at.
    - destruct (decodable_jump_item_jcc (size pre) (size pre + 9 + size ext + 1))
        as (_ & _ & _ & D).
      apply (D post).
    - unfold je, rel32. rewrite !size_app, size_le_bytes.
      change (size LOOP_CMP) with 3. change (size JE) with 2. unfold after. lia. }
  split.
  - eexists. split.
    + cbn [run].
      erewrite (step_at _ _ (size pre)); [|reflexivity|exact F1]. cbn [exec].
      erewrite (step_at _ _ (size pre + 3)); [|reflexivity|exact F2]. cbn [exec].
      reflexivity.
    + machine_simpl. repeat split.
      rewrite le_signed32_rel32 by (unfold after; lia).
      unfold taken, flags_sub. cbn [ZF]. rewrite Z.sub_0_r.
      assert (Hb : 0 <= low8 (mem m (regs m RBX)) < 2 ^ 8)
        by (unfold low8; apply Z.mod_pos_bound; lia).
      rewrite (Z.mod_small _ _ Hb).
      destruct (low8 (mem m (regs m RBX)) =? 0); lia.
  - eexists. split.
    + cbn [run].
      erewrite (step_at _ _ (size final - 5)); [|reflexivity|exact F3]. cbn [exec].
      reflexivity.
    + machine_simpl. repeat split.
      rewrite le_signed32_rel32 by lia. rewrite Hs. unfold after. lia.
Qed.

End Fragments.

(** ** Characters that are not instructions *)

Definition is_instruction (c : ascii) : bool :=
  existsb (Ascii.eqb c) ["<"; ">"; "-"; "+"; ","; "."; "["; "]"]%char.

(** Two outcomes of a build that differ at most in the text of the
    diagnostic. *)
Definition same_build (o1 o2 : outcome) : Prop :=
  match o1, o2 with
  | Done a, Done b => a = b
  | Failed _, Failed _ => True
  | Thrown, Thrown => True
  | OutOfFuel, OutOfFuel => True
  | _, _ => False
  end.

Section Comments.

Variable exit : Z.
Variable c : ascii.
Hypothesis Hc : is_instruction c = false.

Local Abbreviation gen := (generate_sequence_code_fuel exit).

Lemma comment_facts :
  fragment_of c = Some FNone /\ is_open c = false /\ is_close c = false.
Proof.
  unfold is_instruction in Hc. cbn [existsb] in Hc.
  unfold fragment_of, is_open, is_close.
  repeat match type of Hc with
         | (?x || _)%bool = false => destruct x; [discriminate|]; cbn [orb] in Hc
         end.
  repeat split.
Qed.

Lemma same_build_refl o : same_build o o.
Proof. destruct o; simpl; auto. Qed.

Lemma find_loop_end_from_shift (l : source) :
  forall level it,
    find_loop_end_from level (S it) l = option_map S (find_loop_end_from level it l).
Proof.
  induction l as [|x l IH]; intros level it; cbn [find_loop_end_from]; [reflexivity|].
  destruct (is_open x); [apply IH|].
  destruct (is_close x); [|apply IH].
  cbv zeta. destruct (level - 1 =? 0); [reflexivity | apply IH].
Qed.

(** Inserting the character after [a] leaves a match inside [a] where it is
    and moves a later one by one. *)
Lemma find_loop_end_from_insert (a b : source) :
  forall level it,
    find_loop_end_from level it (a ++ c :: b) =
    match find_loop_end_from level it a with
    | Some k => Some k
    | None => option_map S (find_loop_end_from level it (a ++ b))
    end.
Proof.
  destruct comment_facts as (_ & Ho & Hcl).
  induction a as [|x a IH]; intros level it; cbn [app find_loop_end_from].
  - rewrite Ho, Hcl. apply find_loop_end_from_shift.
  - destruct (is_open x); [apply IH|].
    destruct (is_close x); [|apply IH].
    cbv zeta. destruct (level - 1 =? 0); [reflexivity | apply IH].
Qed.

Lemma find_loop_end_from_later (a b : source) :
  forall level it k,
    find_loop_end_from level it a = None ->
    find_loop_end_from level it (a ++ b) = Some k ->
    (it + length a <= k)%nat.
Proof.
  induction a as [|x a IH]; intros level it k Hn Hs; cbn [app length] in *.
  - clear Hn. revert level it k Hs.
    induction b as [|y b IHb]; intros level it k Hs; [discriminate|].
    cbn [find_loop_end_from] in Hs.
    destruct (is_open y); [apply IHb in Hs; lia|].
    destruct (is_close y); [|apply IHb in Hs; lia].
    cbv zeta in Hs. destruct (level - 1 =? 0); [injection Hs as <-; lia|].
    apply IHb in Hs; lia.
  - cbn [find_loop_end_from] in Hn, Hs.
    destruct (is_open x); [specialize (IH _ _ _ Hn Hs); lia|].
    destruct (is_close x); [|specialize (IH _ _ _ Hn Hs); lia].
    cbv zeta in *. destruct (level - 1 =? 0); [discriminate|].
    specialize (IH _ _ _ Hn Hs); lia.
Qed.

Lemma generate_loop_code_with_same (g1 g2 : source -> code_buffer -> outcome)
      (r1 r2 : source) (code : code_buffer) :
  same_build (g1 (tl r1) ((code ++ LOOP_CMP) ++ PLACEHOLDER))
             (g2 (tl r2) ((code ++ LOOP_CMP) ++ PLACEHOLDER)) ->
  same_build (generate_loop_code_with g1 r1 code) (generate_loop_code_with g2 r2 code).
Proof.
  unfold generate_loop_code_with.
  destruct (g1 (tl r1) _) as [o1| | |], (g2 (tl r2) _) as [o2| | |];
    cbn [same_build]; try tauto.
  intros ->. apply same_build_refl.
Qed.

Lemma generate_sequence_code_skip_comment (fuel : nat) :
  forall fuel' pre post code,
    (length (pre ++ c :: post) < fuel)%nat ->
    (length (pre ++ post) < fuel')%nat ->
    same_build (gen fuel (pre ++ c :: post) code) (gen fuel' (pre ++ post) code).
Proof.
  destruct comment_facts as (Hfrag & Ho & Hcl).
  induction fuel as [|fuel IH]; intros fuel' pre post code Hf Hf'; [lia|].
  rewrite length_app in Hf, Hf'. cbn [length] in Hf.
  destruct pre as [|x pre'].
  - cbn [app] in *. rewrite generate_sequence_code_step, Hfrag.
    cbn [fragment_bytes]. rewrite app_nil_r.
    destruct (generate_sequence_code_fuel_enough exit fuel fuel' post code) as [-> _];
      [simpl in *; lia | simpl in *; lia | apply same_build_refl].
  - destruct fuel' as [|fuel']; [lia|].
    cbn [app length] in *. rewrite !generate_sequence_code_step.
    destruct (fragment_of x) as [f|] eqn:Ef.
    + apply IH; rewrite length_app; cbn [length]; lia.
    + unfold find_loop_end.
      rewrite find_loop_end_from_insert.
      destruct (find_loop_end_from 1 1 pre') as [k|] eqn:E.
      * (* the loop closes before the character *)
        rewrite (find_loop_end_from_app pre' post _ _ _ E).
        pose proof (find_loop_end_some x pre' k E) as (Hk & _).
        assert (Hr : forall X : source,
                   firstn k (x :: pre' ++ X) = firstn k (x :: pre') /\
                   skipn (S k) (x :: pre' ++ X) = skipn k pre' ++ X).
        { intro X. destruct k as [|k]; [lia|].
          rewrite !firstn_cons, skipn_cons. split.
          - f_equal. rewrite firstn_app.
            replace (k - length pre')%nat with 0%nat by lia.
            cbn [firstn]. now rewrite app_nil_r.
          - rewrite skipn_app.
            replace (S k - length pre')%nat with 0%nat by lia. reflexivity. }
        destruct (Hr (c :: post)) as [-> ->]. destruct (Hr post) as [-> ->].
        assert (Hl : generate_loop_code_with (gen fuel) (firstn k (x :: pre')) code
                     = generate_loop_code_with (gen fuel') (firstn k (x :: pre')) code).
        { unfold generate_loop_code_with.
          destruct (generate_sequence_code_fuel_enough exit fuel fuel'
                      (tl (firstn k (x :: pre')))
                      ((code ++ LOOP_CMP) ++ PLACEHOLDER)) as [-> _];
            [| |reflexivity];
            destruct k as [|k]; try lia; cbn [firstn tl]; rewrite length_firstn; lia. }
        rewrite Hl.
        destruct (generate_loop_code_with (gen fuel') (firstn k (x :: pre')) code);
          try apply same_build_refl.
        apply IH; rewrite length_app, length_skipn; cbn [length]; lia.
      * (* the loop closes after the character, or not at all *)
        destruct (find_loop_end_from 1 1 (pre' ++ post)) as [k|] eqn:E2;
          cbn [option_map]; [|exact I].
        pose proof (find_loop_end_from_later _ _ _ _ _ E E2) as Hge.
        pose proof (find_loop_end_some x (pre' ++ post) k E2) as (Hk & _).
        rewrite length_app in Hk.
        assert (Hb1 : tl (firstn (S k) (x :: pre' ++ c :: post))
                      = pre' ++ c :: firstn (k - 1 - length pre') post).
        { cbn [firstn tl]. rewrite firstn_app, firstn_all2 by lia.
          replace (k - length pre')%nat with (S (k - 1 - length pre')) by lia.
          reflexivity. }
        assert (Hb2 : tl (firstn k (x :: pre' ++ post))
                      = pre' ++ firstn (k - 1 - length pre') post).
        { destruct k as [|k]; [lia|]. cbn [firstn tl].
          rewrite firstn_app, firstn_all2 by lia.
          now replace (S k - 1 - length pre')%nat with (k - length pre')%nat by lia. }
        assert (Hs1 : skipn (S (S k)) (x :: pre' ++ c :: post)
                      = skipn (k - length pre') post).
        { rewrite skipn_cons, skipn_app, skipn_all2 by lia.
          replace (S k - length pre')%nat with (S (k - length pre')) by lia.
          reflexivity. }
        assert (Hs2 : skipn (S k) (x :: pre' ++ post) = skipn (k - length pre') post).
        { rewrite skipn_cons, skipn_app, skipn_all2 by lia. reflexivity. }
        rewrite Hs1, Hs2.
        assert (Hl : same_build
                       (generate_loop_code_with (gen fuel)
                          (firstn (S k) (x :: pre' ++ c :: post)) code)
                       (generate_loop_code_with (gen fuel')
                          (firstn k (x :: pre' ++ post)) code)).
        { apply generate_loop_code_with_same. rewrite Hb1, Hb2.
          apply IH; rewrite length_app; cbn [length]; rewrite length_firstn; lia. }
        destruct (generate_loop_code_with (gen fuel) _ code) as [o1| | |],
                 (generate_loop_code_with (gen fuel') _ code) as [o2| | |];
          cbn [same_build] in Hl |- *; try tauto.
        subst o2.
        destruct (generate_sequence_code_fuel_enough exit fuel fuel'
                    (skipn (k - length pre') post) o1) as [-> _];
          [rewrite length_skipn; lia | rewrite length_skipn; lia | apply same_build_refl].
Qed.

End Comments.

(** X8.  A character that is not one of the eight instruction characters is
    ignored wherever it stands, inside loops too: with it and without it the
    sequence generator and [init] build the same buffer, or both fail, and
    [init] returns the same. *)
Theorem comment_characters_are_ignored
    (c : ascii) (pre post : source) (exit : Z) (code : code_buffer)
    (os : OS) (self : BrainfuckProgram) :
  is_instruction c = false ->
  same_build (generate_sequence_code exit (pre ++ c :: post) code)
             (generate_sequence_code exit (pre ++ post) code) /\
  same_build (init_code (pre ++ c :: post)) (init_code (pre ++ post)) /\
  returned (init os self (pre ++ c :: post)) = returned (init os self (pre ++ post)) /\
  object (init os self (pre ++ c :: post)) = object (init os self (pre ++ post)).
Proof.
  intro Hc.
  assert (Hgen : forall e b,
             same_build (generate_sequence_code e (pre ++ c :: post) b)
                        (generate_sequence_code e (pre ++ post) b)).
  { intros e b. unfold generate_sequence_code.
    apply generate_sequence_code_skip_comment; [exact Hc | lia | lia]. }
  assert (Hcode : same_build (init_code (pre ++ c :: post)) (init_code (pre ++ post))).
  { unfold init_code. specialize (Hgen init_exit_offset init_prefix).
    destruct (generate_sequence_code init_exit_offset (pre ++ c :: post) init_prefix),
             (generate_sequence_code init_exit_offset (pre ++ post) init_prefix);
      cbn [same_build] in *; try tauto. now subst. }
  split; [apply Hgen|]. split; [exact Hcode|].
  unfold init.
  destruct (init_code (pre ++ c :: post)), (init_code (pre ++ post));
    cbn [same_build] in Hcode; try tauto; try (split; reflexivity).
  subst. split; reflexivity.
Qed.

Lemma comment_characters_are_ignored_witness :
  same_build (init_code (src "+[ x-]")) (init_code (src "+[ -]")).
Proof.
  refine (proj1 (proj2 (comment_characters_are_ignored "x"%char (src "+[ ") (src "-]")
                          0 [] {| os_pagesize := 4096; os_mmap := fun _ => 4096;
                                  os_mprotect := fun _ _ => 0 |}
                          (new_program 0) eq_refl))).
Defined.

(** ** What a failed build reports *)

Section Diagnostics.

Variable exit : Z.

Local Abbreviation gen := (generate_sequence_code_fuel exit).

(** X9.  [generate_loop_code], called on the range of a loop that
    [find_loop_end] has closed (as [generate_sequence_code] calls it), never
    returns the [false] of an unmatched bracket: the body of a closed loop
    has every bracket matched. *)
Theorem closed_loop_never_fails (s : source) (k : nat) (code : code_buffer) :
  find_loop_end s = Some k ->
  all_open_matched (tl (firstn k s)) /\
  depth (tl (firstn k s)) = 0 /\
  forall d, generate_loop_code exit (firstn k s) code <> Failed d.
Proof.
  intro E. destruct s as [|c0 rest]; [discriminate|].
  pose proof (find_loop_end_some _ _ _ E) as (Hk & _).
  destruct (loop_ranges c0 rest k ltac:(lia)) as [Hbody _]. rewrite Hbody.
  split; [now apply (loop_body_all_matched c0)|].
  split; [now apply (loop_body_depth c0)|].
  intros d H. unfold generate_loop_code, generate_loop_code_with in H.
  rewrite Hbody in H.
  pose proof (generate_sequence_code_matched exit (S (length (firstn (k - 1) rest)))
                (firstn (k - 1) rest) ((code ++ LOOP_CMP) ++ PLACEHOLDER)
                (loop_body_all_matched _ _ _ E)) as M.
  fold (generate_sequence_code exit (firstn (k - 1) rest)
          ((code ++ LOOP_CMP) ++ PLACEHOLDER)) in M.
  destruct (generate_sequence_code exit (firstn (k - 1) rest)
              ((code ++ LOOP_CMP) ++ PLACEHOLDER)) as [out|d'| |];
    try discriminate; [|now specialize (M d')].
  match type of H with
  | match ?x with _ => _ end = _ => destruct x; discriminate
  end.
Qed.

Lemma all_open_matched_cons (c : ascii) (s : source) :
  c <> "["%char -> all_open_matched s -> all_open_matched (c :: s).
Proof.
  intros Hc H pre post Heq. destruct pre as [|c' pre'].
  - injection Heq as -> _. contradiction.
  - injection Heq as _ ->. now apply (H pre' post).
Qed.

Lemma matched_after_app (a b : source) : matched_after a -> matched_after (a ++ b).
Proof.
  intros [k Hk]. exists (Nat.min k (length a)).
  rewrite firstn_app.
  replace (Nat.min k (length a) - length a)%nat with 0%nat by lia.
  cbn [firstn]. rewrite app_nil_r.
  destruct (Nat.le_ge_cases k (length a)) as [H|H].
  - now rewrite Nat.min_l by lia.
  - rewrite Nat.min_r by lia. rewrite firstn_all2 in Hk by lia.
    now rewrite firstn_all.
Qed.

(** A closed loop followed by a range in which every bracket is matched. *)
Lemma all_open_matched_loop (rest : source) (k : nat) (tail : source) :
  find_loop_end ("["%char :: rest) = Some k ->
  all_open_matched tail ->
  all_open_matched (("["%char :: firstn k rest) ++ tail).
Proof.
  intros E Ht pre post Heq.
  pose proof (find_loop_end_some _ _ _ E) as (Hk & Hn & Hd & Hpos).
  pose proof (loop_body_all_matched _ _ _ E) as Hb.
  destruct pre as [|c' pre'].
  - cbn [app] in Heq. injection Heq as <-.
    apply matched_after_app. exists k. rewrite firstn_firstn, Nat.min_id. lia.
  - cbn [app] in Heq. injection Heq as _ Heq.
    destruct (Nat.lt_ge_cases (length pre') (length (firstn k rest))) as [Hlt|Hge].
    + (* the bracket is inside the loop *)
      rewrite length_firstn in Hlt.
      assert (Hin : length pre' <> (k - 1)%nat).
      { intro Hq. apply (f_equal (fun l => nth (k - 1) l "0"%char)) in Heq.
        rewrite app_nth1 in Heq by (rewrite length_firstn; lia).
        rewrite <- Hq, app_nth2, Nat.sub_diag in Heq by lia. cbn [nth] in Heq.
        rewrite Hq in Heq.
        assert (Hnk : nth (k - 1) (firstn k rest) "0"%char = nth (k - 1) rest "0"%char).
        { rewrite <- (firstn_skipn k rest) at 2. rewrite app_nth1; [reflexivity|].
          rewrite length_firstn. lia. }
        rewrite Hnk, Hn in Heq. discriminate. }
      assert (Hsplit : firstn (k - 1) rest = pre' ++ "["%char :: firstn (k - 1 - length pre' - 1) post).
      { apply (f_equal (firstn (k - 1))) in Heq.
        rewrite firstn_app, firstn_firstn in Heq.
        replace (Nat.min (k - 1) k) with (k - 1)%nat in Heq by lia.
        rewrite length_firstn in Heq.
        replace (k - 1 - Nat.min k (length rest))%nat with 0%nat in Heq by lia.
        cbn [firstn] in Heq. rewrite app_nil_r in Heq. rewrite Heq.
        rewrite firstn_app, firstn_all2 by lia.
        destruct (k - 1 - length pre')%nat as [|j] eqn:Ej; [lia|].
        cbn [firstn]. now replace (S j - 1)%nat with j by lia. }
      destruct (Hb _ _ Hsplit) as [j Hj].
      exists (Nat.min j (k - 1 - length pre' - 1)).
      rewrite firstn_firstn in Hj. exact Hj.
    + (* the bracket is after the loop *)
      apply (Ht (skipn (length (firstn k rest)) pre') post).
      apply (f_equal (skipn (length (firstn k rest)))) in Heq.
      rewrite skipn_app, skipn_all, Nat.sub_diag in Heq. cbn [app skipn] in Heq.
      rewrite Heq, skipn_app.
      replace (length (firstn k rest) - length pre')%nat with 0%nat by lia.
      reflexivity.
Qed.

(** What a failing sequence generator reports. *)
Lemma generate_sequence_code_failed (fuel : nat) :
  forall s code rest,
    gen fuel s code = Failed rest ->
    exists pre post,
      s = pre ++ rest /\ rest = "["%char :: post /\ unmatched_after post /\
      all_open_matched pre.
Proof.
  induction fuel as [|fuel IH]; intros s code rest H; [discriminate|].
  destruct s as [|c s']; [discriminate|].
  rewrite generate_sequence_code_step in H.
  destruct (fragment_of c) as [f|] eqn:Ef.
  - destruct (IH _ _ _ H) as (pre & post & -> & -> & Hun & Hm).
    exists (c :: pre), post. repeat split; auto.
    apply all_open_matched_cons; [|exact Hm]. intros ->. discriminate.
  - apply fragment_of_open in Ef. subst c.
    destruct (find_loop_end ("["%char :: s')) as [k|] eqn:E.
    + pose proof (find_loop_end_some _ _ _ E) as (Hk & _).
      destruct (loop_ranges "[" s' k ltac:(lia)) as [Hbody Hrest]. rewrite Hrest in H.
      destruct (generate_loop_code_with (gen fuel) (firstn k ("["%char :: s')) code)
        as [code'|d| |] eqn:El; try discriminate.
      * destruct (IH _ _ _ H) as (pre & post & Hs & -> & Hun & Hm).
        exists (("["%char :: firstn k s') ++ pre), post.
        repeat split; auto.
        -- rewrite <- app_assoc. cbn [app]. rewrite <- Hs. now rewrite firstn_skipn.
        -- now apply all_open_matched_loop.
      * exfalso. unfold generate_loop_code_with in El. rewrite Hbody in El.
        pose proof (generate_sequence_code_matched exit fuel (firstn (k - 1) s')
                      ((code ++ LOOP_CMP) ++ PLACEHOLDER)
                      (loop_body_all_matched _ _ _ E)) as M.
        destruct (gen fuel (firstn (k - 1) s') ((code ++ LOOP_CMP) ++ PLACEHOLDER))
          as [out|d'| |]; try discriminate; [|now specialize (M d')].
        match type of El with
        | match ?x with _ => _ end = _ => destruct x; discriminate
        end.
    + injection H as <-. exists [], s'. repeat split.
      * now apply (find_loop_end_none "[").
      * intros pre post Heq. now destruct pre.
Qed.

End Diagnostics.

Lemma closed_loop_never_fails_witness :
  depth (tl (firstn 5 (src "[+[-]]>"))) = 0 /\
  generate_loop_code 25 (firstn 5 (src "[+[-]]>")) init_prefix <> Failed (src "[-]").
Proof.
  destruct (closed_loop_never_fails 25 (src "[+[-]]>") 5 init_prefix eq_refl)
    as (_ & Hd & Hf).
  split; [exact Hd | exact (Hf (src "[-]"))].
Defined.

(** The printed text is the range as far as its first NUL character. *)
Lemma c_str_prefix (s : source) :
  exists tail, s = c_str s ++ tail /\ ~ In Ascii.zero (c_str s) /\
               (tail = [] \/ exists t, tail = Ascii.zero :: t).
Proof.
  induction s as [|c s IH]; cbn [c_str].
  - exists []. repeat split; [intros [] | now left].
  - destruct (Ascii.eqb c Ascii.zero) eqn:E.
    + apply Ascii.eqb_eq in E. subst c. exists (Ascii.zero :: s).
      repeat split; [intros [] | right; now exists s].
    + destruct IH as (tail & Ht & Hn & Hc). exists tail.
      split; [cbn [app]; now f_equal|]. split; [|exact Hc].
      intros [E0|Hin]; [|now apply Hn].
      rewrite E0, Ascii.eqb_refl in E. discriminate.
Qed.

(** X10.  When [init] fails for an unmatched bracket, the range handed to
    [fprintf] is a suffix of the source that starts with an open bracket
    which is never closed, and every open bracket before that suffix is
    closed before it.  What is printed for it is its [c_str]: the open
    bracket and what follows it up to the first NUL character of the source
    after it, so the whole suffix exactly when it holds no NUL character.
    Nothing else is done. *)
Theorem init_failure_reports_first_unmatched
    (os : OS) (self : BrainfuckProgram) (s rest : source) :
  init_code s = Failed rest ->
  exists pre post tail,
    s = pre ++ rest /\ rest = "["%char :: post /\ unmatched_after post /\
    all_open_matched pre /\
    log (init os self s) = [EvStderr (DiagLoopEnd ("["%char :: c_str post))] /\
    post = c_str post ++ tail /\ ~ In Ascii.zero (c_str post) /\
    (tail = [] \/ exists t, tail = Ascii.zero :: t) /\
    returned (init os self s) = Some false.
Proof.
  intro H.
  assert (Hs : exists pre post,
             s = pre ++ rest /\ rest = "["%char :: post /\ unmatched_after post /\
             all_open_matched pre).
  { unfold init_code, generate_sequence_code in H.
    destruct (generate_sequence_code_fuel init_exit_offset (S (length s)) s init_prefix)
      as [out|d| |] eqn:G; try discriminate.
    injection H as ->. now apply (generate_sequence_code_failed _ _ _ _ _ G). }
  destruct Hs as (pre & post & Hs & Hr & Hu & Ha).
  destruct (c_str_prefix post) as (tail & Ht & Hn & Hc).
  exists pre, post, tail.
  repeat split; try assumption.
  - unfold init. rewrite H, Hr. reflexivity.
  - unfold init. now rewrite H.
Qed.

Lemma init_failure_reports_first_unmatched_witness :
  exists pre post tail,
    src "[-]+" ++ "["%char :: Ascii.zero :: src ">[<]" = pre ++ "["%char :: Ascii.zero :: src ">[<]" /\
    "["%char :: Ascii.zero :: src ">[<]" = "["%char :: post /\
    unmatched_after post /\ all_open_matched pre /\
    log (init {| os_pagesize := 4096; os_mmap := fun _ => 4096;
                 os_mprotect := fun _ _ => 0 |} (new_program 0)
              (src "[-]+" ++ "["%char :: Ascii.zero :: src ">[<]"))
    = [EvStderr (DiagLoopEnd ("["%char :: c_str post))] /\
    post = c_str post ++ tail /\ ~ In Ascii.zero (c_str post) /\
    (tail = [] \/ exists t, tail = Ascii.zero :: t) /\
    returned (init {| os_pagesize := 4096; os_mmap := fun _ => 4096;
                      os_mprotect := fun _ _ => 0 |} (new_program 0)
                   (src "[-]+" ++ "["%char :: Ascii.zero :: src ">[<]")) = Some false.
Proof.
  exact (init_failure_reports_first_unmatched _ _
           (src "[-]+" ++ "["%char :: Ascii.zero :: src ">[<]")
           ("["%char :: Ascii.zero :: src ">[<]") eq_refl).
Defined.

(** On that source the text printed is the bracket alone. *)
Example init_failure_text_example :
  log (init {| os_pagesize := 4096; os_mmap := fun _ => 4096;
               os_mprotect := fun _ _ => 0 |} (new_program 0)
            (src "[-]+" ++ "["%char :: Ascii.zero :: src ">[<]"))
  = [EvStderr (DiagLoopEnd (src "["))].
Proof. reflexivity. Qed.

(** ** The arena

    The compiled code is handed a pointer into memory of its caller, the
    arena, and checks no bound.  The machine above lets the pointer go
    anywhere and keeps the cells apart from the stack and from the code; the
    real one faults, or reads and overwrites what it finds, once the pointer
    has left the arena.  A checked run is a run of that machine which stops
    at the first instruction that would read or write a byte outside the
    arena, and tells so: what the code does from there on is not described.
    The arena is memory the caller owned before the call, so it holds
    neither what the code pushes nor the code itself. *)

Record arena : Type := { arena_base : Z; arena_size : Z }.

(** The [w] bytes from address [a] on lie in the arena. *)
Definition in_arena (A : arena) (a w : Z) : bool :=
  (arena_base A <=? a) && (a + w <=? arena_base A + arena_size A).

(** The number of bytes at [(%rbx)] that an instruction reads or writes. *)
Definition access_width (i : instr) : option Z :=
  match i with
  | Iload_al | Istore_al | Imovzbq_rsi | Icmpb_mem _ => Some 1
  | Istore_rax => Some 8
  | _ => None
  end.

Inductive checked : Type :=
| Running (m : machine)
| Returned (m : machine)
| Stuck
| Outside (m : machine).   (* next: an access outside the arena *)

Definition check (r : result) : checked :=
  match r with
  | Next m => Running m
  | Halt m => Returned m
  | Crash => Stuck
  end.

(** One instruction of the machine, unless it touches memory outside the
    arena. *)
Definition checked_step (A : arena) (code : code_buffer) (h : host) (m : machine)
  : checked :=
  match fetch code (pc m) with
  | Some (i, len) =>
      match access_width i with
      | Some w =>
          if in_arena A (regs m RBX) w then check (exec h i (pc m + len) m)
          else Outside m
      | None => check (exec h i (pc m + len) m)
      end
  | None => Stuck
  end.

Fixpoint checked_run (A : arena) (code : code_buffer) (h : host) (n : nat)
    (m : machine) : checked :=
  match n with
  | O => Running m
  | S n' =>
      match checked_step A code h m with
      | Running m' => checked_run A code h n' m'
      | other => other
      end
  end.

(** The instruction at which a checked run has stopped. *)
Definition leaves_arena (A : arena) (code : code_buffer) (m : machine) : Prop :=
  exists i len w,
    fetch code (pc m) = Some (i, len) /\ access_width i = Some w /\
    in_arena A (regs m RBX) w = false.

Section Checked.

Variable A : arena.
Variable code : code_buffer.
Variable h : host.

Lemma checked_step_cases (m : machine) :
  checked_step A code h m = check (step code h m) \/
  (checked_step A code h m = Outside m /\ leaves_arena A code m).
Proof.
  unfold checked_step, step, leaves_arena.
  destruct (fetch code (pc m)) as [[i len]|]; [|now left].
  destruct (access_width i) as [w|] eqn:Ew; [|now left].
  destruct (in_arena A (regs m RBX) w) eqn:Ea; [now left|].
  right. split; [reflexivity|]. now exists i, len, w.
Qed.

Lemma checked_run_plain (n : nat) : forall m,
  match checked_run A code h n m with
  | Running m' => run code h n m = Next m'
  | Returned m' => run code h n m = Halt m'
  | Stuck => run code h n m = Crash
  | Outside m' =>
      exists k, (k < n)%nat /\ run code h k m = Next m' /\ leaves_arena A code m'
  end.
Proof.
  induction n as [|n IH]; intro m; [reflexivity|].
  cbn [checked_run run].
  destruct (checked_step_cases m) as [E|[E Hl]]; rewrite E.
  - destruct (step code h m) as [m1|m1|]; cbn [check]; try reflexivity.
    specialize (IH m1).
    destruct (checked_run A code h n m1) as [m2|m2| |m2]; try exact IH.
    destruct IH as (k & Hk & Hr & Hl). exists (S k). split; [lia|].
    split; [|exact Hl]. cbn [run].
    destruct (checked_step_cases m) as [E'|[E' _]].
    + rewrite E in E'.
      destruct (step code h m) as [m3|m3|] eqn:Es; cbn [check] in E'; try discriminate.
      injection E' as ->. exact Hr.
    + rewrite E in E'. discriminate.
  - exists 0%nat. split; [lia|]. split; [reflexivity | exact Hl].
Qed.

Lemma checked_run_add (a : nat) : forall b m,
  checked_run A code h (a + b) m =
  match checked_run A code h a m with
  | Running m1 => checked_run A code h b m1
  | other => other
  end.
Proof.
  induction a as [|a IH]; intros b m; [reflexivity|].
  cbn [Nat.add checked_run].
  destruct (checked_step A code h m); try reflexivity. apply IH.
Qed.

Lemma checked_step_at (m : machine) (q : Z) i len :
  pc m = q -> fetch code q = Some (i, len) ->
  match access_width i with
  | Some w => in_arena A (regs m RBX) w = true
  | None => True
  end ->
  checked_step A code h m = check (exec h i (q + len) m).
Proof.
  intros <- F Ha. unfold checked_step. rewrite F.
  destruct (access_width i); [now rewrite Ha | reflexivity].
Qed.

(** A sequence of states, each reached from the one before by one
    instruction. *)
Fixpoint chain (m : machine) (ms : list machine) : Prop :=
  match ms with
  | [] => True
  | m' :: ms' => checked_step A code h m = Running m' /\ chain m' ms'
  end.

Lemma chain_run (ms : list machine) : forall m,
  chain m ms ->
  forall k, (k <= length ms)%nat ->
    checked_run A code h k m = Running (nth k (m :: ms) m).
Proof.
  induction ms as [|m1 ms IH]; intros m H k Hk.
  - cbn [length] in Hk. now replace k with 0%nat by lia.
  - destruct k as [|k]; [reflexivity|].
    destruct H as [H1 H2]. cbn [checked_run]. rewrite H1.
    cbn [length] in Hk. rewrite (IH m1 H2 k ltac:(lia)). f_equal.
    change (nth (S k) (m :: m1 :: ms) m) with (nth k (m1 :: ms) m).
    apply nth_indep. cbn [length]. lia.
Qed.

End Checked.

(** ** Execution with any host: no stuck machine, and the registers come back *)

Section AnyHost.

Variable code : code_buffer.
Variable h : host.
Variable L : list (Z * instr * Z).
Variable stop : Z.
Variables s_rbx s_rbp s_r14 s_r13 s_r12 : Z.

Hypothesis Hneq : write_addr h <> read_addr h.
Hypothesis Hbody : forall q i len, In (q, i, len) L -> fetch code q = Some (i, len).
Hypothesis Hsites : forall e, In e L -> site_ok 25 stop L e.
Hypothesis Hstop : fetch code stop = Some (Ijmp (25 - (stop + 5)), 5).
Hypothesis Hexit :
  fetch code 25 = Some (Ipop RBX, 1) /\ fetch code 26 = Some (Ipop RBP, 1) /\
  fetch code 27 = Some (Ipop R14, 2) /\ fetch code 29 = Some (Ipop R13, 2) /\
  fetch code 31 = Some (Ipop R12, 2) /\ fetch code 33 = Some (Iret, 1).

Definition Live (m : machine) : Prop :=
  stack m = [s_rbx; s_rbp; s_r14; s_r13; s_r12] /\
  regs m R12 = write_addr h /\ regs m R14 = read_addr h /\
  (In (pc m) (offsets L) \/ pc m = stop).

Definition Restored (m : machine) : Prop :=
  pc m = 33 /\ stack m = [] /\
  regs m RBX = s_rbx /\ regs m RBP = s_rbp /\ regs m R14 = s_r14 /\
  regs m R13 = s_r13 /\ regs m R12 = s_r12.

(** In the epilogue: what has been popped is in its register, the rest is
    still on the stack. *)
Definition Exiting (m : machine) : Prop :=
  (pc m = 25 /\ stack m = [s_rbx; s_rbp; s_r14; s_r13; s_r12]) \/
  (pc m = 26 /\ stack m = [s_rbp; s_r14; s_r13; s_r12] /\ regs m RBX = s_rbx) \/
  (pc m = 27 /\ stack m = [s_r14; s_r13; s_r12] /\
   regs m RBX = s_rbx /\ regs m RBP = s_rbp) \/
  (pc m = 29 /\ stack m = [s_r13; s_r12] /\
   regs m RBX = s_rbx /\ regs m RBP = s_rbp /\ regs m R14 = s_r14) \/
  (pc m = 31 /\ stack m = [s_r12] /\
   regs m RBX = s_rbx /\ regs m RBP = s_rbp /\ regs m R14 = s_r14 /\
   regs m R13 = s_r13) \/
  Restored m.

Lemma exiting_pc (m : machine) : Exiting m -> 25 <= pc m <= 33.
Proof.
  intros [H|[H|[H|[H|[H|H]]]]]; destruct H as (-> & _); lia.
Qed.

Lemma exiting_step (m : machine) :
  Exiting m ->
  match step code h m with
  | Next m' => Exiting m'
  | Halt m' => Restored m'
  | Crash => False
  end.
Proof.
  destruct Hexit as (E25 & E26 & E27 & E29 & E31 & E33).
  intros [H|[H|[H|[H|[H|H]]]]].
  - destruct H as (Hpc & Hst). rewrite (step_at h code m 25 _ _ Hpc E25).
    cbn [exec]. rewrite Hst. right; left. machine_simpl. repeat split.
  - destruct H as (Hpc & Hst & H1). rewrite (step_at h code m 26 _ _ Hpc E26).
    cbn [exec]. rewrite Hst. right; right; left. machine_simpl. repeat split; assumption.
  - destruct H as (Hpc & Hst & H1 & H2). rewrite (step_at h code m 27 _ _ Hpc E27).
    cbn [exec]. rewrite Hst. do 3 right; left. machine_simpl. repeat split; assumption.
  - destruct H as (Hpc & Hst & H1 & H2 & H3). rewrite (step_at h code m 29 _ _ Hpc E29).
    cbn [exec]. rewrite Hst. do 4 right; left. machine_simpl. repeat split; assumption.
  - destruct H as (Hpc & Hst & H1 & H2 & H3 & H4).
    rewrite (step_at h code m 31 _ _ Hpc E31).
    cbn [exec]. rewrite Hst. do 5 right. unfold Restored. machine_simpl.
    repeat split; assumption.
  - pose proof H as (Hpc & Hst & _). rewrite (step_at h code m 33 _ _ Hpc E33).
    cbn [exec]. rewrite Hst. exact H.
Qed.

Lemma live_step (m : machine) :
  Live m ->
  match step code h m with
  | Next m' => Live m' \/ Exiting m'
  | Halt _ | Crash => False
  end.
Proof.
  intros (Hst & H12 & H14 & Hpc).
  assert (Hgo : forall m',
             stack m' = [s_rbx; s_rbp; s_r14; s_r13; s_r12] ->
             regs m' R12 = write_addr h -> regs m' R14 = read_addr h ->
             (In (pc m') (offsets L) \/ pc m' = stop \/ pc m' = 25) ->
             Live m' \/ Exiting m').
  { intros m' H1 H2 H3 [H5|[H5|H5]].
    - left. repeat split; auto.
    - left. repeat split; auto.
    - right. left. now split. }
  destruct Hpc as [Hin|Hpc].
  - apply in_map_iff in Hin. destruct Hin as ([[q i] len] & Hq & Hin).
    cbn [fst] in Hq. pose proof (Hsites _ Hin) as (Hb & Hs & _).
    pose proof (Hbody _ _ _ Hin) as Hf.
    unfold step. rewrite <- Hq, Hf.
    destruct i; cbn [body_instr] in Hb; try contradiction; cbn [exec];
      try (apply Hgo; machine_simpl; try assumption; apply Hs; cbn [succs In]; now left).
    + subst d. apply Hgo; machine_simpl; try assumption.
      apply Hs; cbn [succs In]; now left.
    + destruct Hb as [-> | ->]; unfold call_host.
      * rewrite H12, Z.eqb_refl. cbv zeta.
        apply Hgo; machine_simpl; try assumption.
        apply Hs; cbn [succs In]; now left.
      * rewrite H14.
        destruct (Z.eqb_spec (read_addr h) (write_addr h)) as [E|_];
          [now symmetry in E|].
        rewrite Z.eqb_refl. cbv zeta.
        apply Hgo; machine_simpl; try assumption.
        apply Hs; cbn [succs In]; now left.
    + destruct (taken c (fl m)); apply Hgo; machine_simpl; try assumption;
        apply Hs; cbn [succs In]; auto.
  - unfold step. rewrite Hpc, Hstop. cbn [exec].
    right. left. machine_simpl. split; [lia | exact Hst].
Qed.

Lemma safe_run (n : nat) : forall m,
  Live m \/ Exiting m ->
  match run code h n m with
  | Next m' => Live m' \/ Exiting m'
  | Halt m' => Restored m'
  | Crash => False
  end.
Proof.
  induction n as [|n IH]; intros m Hm; [exact Hm|].
  rewrite run_S. destruct Hm as [Hm|Hm].
  - pose proof (live_step m Hm) as S.
    destruct (step code h m) as [m'| |]; [now apply IH | destruct S | destruct S].
  - pose proof (exiting_step m Hm) as S.
    destruct (step code h m) as [m'|m'|]; [apply IH; now right | exact S | destruct S].
Qed.

End AnyHost.

Section PrologueSaves.

Variable code : code_buffer.
Variable h : host.

Hypothesis Hprologue :
  fetch code 0 = Some (Ipush R12, 2) /\ fetch code 2 = Some (Ipush R13, 2) /\
  fetch code 4 = Some (Ipush R14, 2) /\ fetch code 6 = Some (Ipush RBP, 1) /\
  fetch code 7 = Some (Ipush RBX, 1) /\ fetch code 8 = Some (Imov RDI R12, 3) /\
  fetch code 11 = Some (Imov RSI R13, 3) /\ fetch code 14 = Some (Imov RDX R14, 3) /\
  fetch code 17 = Some (Imov RCX RBP, 3) /\ fetch code 20 = Some (Imov R8 RBX, 3) /\
  fetch code 23 = Some (Ijmp 9, 2).

Ltac prologue_step E :=
  unfold step at 1; cbn [pc set_pc set_reg set_stack]; rewrite E; cbn [exec].

(** The prologue saves the five callee-saved registers it is going to use
    and moves the five arguments into them. *)
Lemma prologue_run_saves (m0 : machine) :
  pc m0 = 0 -> stack m0 = [] ->
  exists m,
    run code h 11 m0 = Next m /\ pc m = 34 /\
    stack m = [regs m0 RBX; regs m0 RBP; regs m0 R14; regs m0 R13; regs m0 R12] /\
    regs m R12 = regs m0 RDI /\ regs m R13 = regs m0 RSI /\
    regs m R14 = regs m0 RDX /\ regs m RBP = regs m0 RCX /\
    regs m RBX = regs m0 R8 /\
    mem m = mem m0 /\ trace m = trace m0.
Proof.
  destruct Hprologue as (E0 & E2 & E4 & E6 & E7 & E8 & E11 & E14 & E17 & E20 & E23).
  destruct m0 as [pc0 regs0 fl0 st mem0 tr]. cbn [pc stack trace regs mem].
  intros -> ->. eexists. split.
  - cbn [run].
    prologue_step E0. change (0 + 2) with 2.
    prologue_step E2. change (2 + 2) with 4.
    prologue_step E4. change (4 + 2) with 6.
    prologue_step E6. change (6 + 1) with 7.
    prologue_step E7. change (7 + 1) with 8.
    prologue_step E8. change (8 + 3) with 11.
    prologue_step E11. change (11 + 3) with 14.
    prologue_step E14. change (14 + 3) with 17.
    prologue_step E17. change (17 + 3) with 20.
    prologue_step E20. change (20 + 3) with 23.
    prologue_step E23. change (23 + 2 + 9) with 34.
    reflexivity.
  - repeat split.
Qed.

(** During the prologue the machine is below the body. *)
Lemma prologue_below (m0 : machine) :
  pc m0 = 0 ->
  forall n, (n < 11)%nat -> exists m, run code h n m0 = Next m /\ pc m < 34.
Proof.
  destruct Hprologue as (E0 & E2 & E4 & E6 & E7 & E8 & E11 & E14 & E17 & E20 & E23).
  destruct m0 as [pc0 regs0 fl0 st mem0 tr]. cbn [pc]. intros -> n Hn.
  do 11 (destruct n as [|n];
         [ eexists; split;
           [ cbn [run];
             repeat (unfold step at 1; cbn [pc set_pc set_reg set_stack];
                     repeat match goal with
                            | |- context [fetch code (?a + ?b)] =>
                                let v := eval cbv in (a + b) in change (a + b) with v
                            end;
                     first [ rewrite E0 | rewrite E2 | rewrite E4 | rewrite E6
                           | rewrite E7 | rewrite E8 | rewrite E11 | rewrite E14
                           | rewrite E17 | rewrite E20 | rewrite E23 ];
                     cbn [exec]);
             reflexivity
           | cbn [pc set_pc set_reg set_stack]; lia ]
         | ]).
  lia.
Qed.

End PrologueSaves.

(** What holds of a compiled program at every point of a run, with any
    capabilities, on the machine without the arena check. *)
Lemma run_invariant
    (s : source) (code : code_buffer) (h : host)
    (memory : Z) (others : reg -> Z) (tape : Z -> Z) :
  init_code s = Done code ->
  39 + 20 * Z.of_nat (length s) <= INT_MAX ->
  write_addr h <> read_addr h ->
  forall n : nat,
    match run code h n (entry h memory others tape) with
    | Next m =>
        pc m < 34 \/
        (stack m = [others RBX; others RBP; others R14; others R13; others R12] /\
         regs m R12 = write_addr h /\ regs m R14 = read_addr h)
    | Halt m =>
        pc m = 33 /\ stack m = [] /\
        regs m RBX = others RBX /\ regs m RBP = others RBP /\
        regs m R12 = others R12 /\ regs m R13 = others R13 /\
        regs m R14 = others R14
    | Crash => False
    end.
Proof.
  intros Hc Hsz Hneq n.
  destruct (init_code_program s code ltac:(lia) Hc) as (p & -> & Hp).
  assert (Hsize : 34 + layout_size p + 5 <= INT_MAX) by lia.
  destruct (Nat.lt_ge_cases n 11) as [Hn|Hn].
  - destruct (prologue_below (program_code p) h (program_fetch_prologue p)
                (entry h memory others tape) eq_refl n Hn) as (m & -> & Hpc).
    now left.
  - destruct (prologue_run_saves (program_code p) h (program_fetch_prologue p)
                (entry h memory others tape) eq_refl eq_refl)
      as (m & Hrun & Hpc & Hst & H12 & _ & H14 & _).
    cbn [entry regs] in Hst, H12, H14.
    replace n with (11 + (n - 11))%nat by lia. rewrite run_add, Hrun. cbn [run_on].
    pose proof (safe_run (program_code p) h (place 34 (asm 25 34 p))
                  (34 + layout_size p)
                  (others RBX) (others RBP) (others R14) (others R13) (others R12)
                  Hneq (program_fetch_body p) (program_sites p Hsize)
                  (program_fetch_stop p Hsize) (program_fetch_exit p)
                  (n - 11) m) as S.
    assert (Hm : Live h (place 34 (asm 25 34 p)) (34 + layout_size p)
                   (others RBX) (others RBP) (others R14) (others R13) (others R12) m
                 \/ Exiting
                      (others RBX) (others RBP) (others R14) (others R13) (others R12) m).
    { left. repeat split; try assumption.
      rewrite Hpc. destruct (start_in 25 p 34) as [H|H]; [now left | right; lia]. }
    specialize (S Hm).
    destruct (run (program_code p) h (n - 11) m) as [m'|m'|]; [ | | exact S].
    + destruct S as [(S1 & S2 & S3 & _)|S]; [right; repeat split; assumption|].
      left. apply exiting_pc in S. lia.
    + destruct S as (S1 & S2 & S3 & S4 & S5 & S6 & S7). repeat split; assumption.
Qed.

(** X11.  A compiled program (of a source short enough for [int] offsets),
    entered as [run] enters it, with any read and write capabilities and any
    arena: as long as every byte it reads or writes through the tape pointer
    lies in the arena, the machine never leaves the instructions that were
    generated (it is never stuck), and when it returns it does so from the
    [retq] of the epilogue with an empty stack and with [%rbx], [%rbp],
    [%r12], [%r13] and [%r14] holding what they held on entry.  The only
    other way a checked run ends is at an instruction that is about to read
    or write outside the arena. *)
Theorem compiled_code_returns_cleanly
    (s : source) (code : code_buffer) (h : host) (A : arena)
    (memory : Z) (others : reg -> Z) (tape : Z -> Z) :
  init_code s = Done code ->
  39 + 20 * Z.of_nat (length s) <= INT_MAX ->
  write_addr h <> read_addr h ->
  forall n : nat,
    match checked_run A code h n (entry h memory others tape) with
    | Running _ => True
    | Returned m =>
        pc m = 33 /\ stack m = [] /\
        regs m RBX = others RBX /\ regs m RBP = others RBP /\
        regs m R12 = others R12 /\ regs m R13 = others R13 /\
        regs m R14 = others R14
    | Outside m => leaves_arena A code m
    | Stuck => False
    end.
Proof.
  intros Hc Hsz Hneq n.
  pose proof (checked_run_plain A code h n (entry h memory others tape)) as P.
  pose proof (run_invariant s code h memory others tape Hc Hsz Hneq n) as I.
  destruct (checked_run A code h n (entry h memory others tape)) as [m|m| |m].
  - exact Logic.I.
  - now rewrite P in I.
  - now rewrite P in I.
  - destruct P as (k & _ & _ & Hl). exact Hl.
Qed.


Definition tape_arena : arena := {| arena_base := 8192; arena_size := 30000 |}.

Lemma compiled_code_returns_cleanly_witness :
  match checked_run tape_arena (compiled "+[>,.<-]") host_reads_A 200
          (entry host_reads_A 8192 (fun _ => 7) (fun _ => 0)) with
  | Running _ => True
  | Returned m =>
      pc m = 33 /\ stack m = [] /\
      regs m RBX = 7 /\ regs m RBP = 7 /\ regs m R12 = 7 /\ regs m R13 = 7 /\
      regs m R14 = 7
  | Outside m => leaves_arena tape_arena (compiled "+[>,.<-]") m
  | Stuck => False
  end.
Proof.
  refine (compiled_code_returns_cleanly (src "+[>,.<-]") (compiled "+[>,.<-]")
            host_reads_A tape_arena 8192 (fun _ => 7) (fun _ => 0) eq_refl _ _ 200%nat).
  - vm_compute. discriminate.
  - vm_compute. discriminate.
Defined.

(** The program "<+" entered at the first cell of the arena: the checked
    run stops at the load of "+", with the pointer one below the arena. *)
Example pointer_leaves_arena_example :
  match checked_run tape_arena (compiled "<+") host_reads_A 40
          (entry host_reads_A 8192 (fun _ => 0) (fun _ => 0)) with
  | Outside m => pc m = 38 /\ regs m RBX = 8191
  | _ => False
  end.
Proof. vm_compute. split; reflexivity. Qed.

(** ** Witnesses for the fragments that need a capability *)

Definition machine_at_body (h : host) : machine :=
  set_reg RBX 8192
    (set_reg R14 (read_addr h)
       (set_reg R12 (write_addr h) (entry h 8192 (fun _ => 0) (fun _ => 0)))).

Lemma write_fragment_runs_witness :
  exists m',
    run (generate_write_code 25 init_prefix ++ []) host_failing_write 5
        (set_pc 34 (machine_at_body host_failing_write)) = Next m' /\
    pc m' = 25 /\ trace m' = [IoWrite 0 0].
Proof.
  destruct (write_fragment_runs host_failing_write 25 init_prefix []
              (machine_at_body host_failing_write))
    as (m' & Hr & Hp & Ht & _).
  - vm_compute. split; discriminate.
  - vm_compute. discriminate.
  - reflexivity.
  - exists m'. split; [exact Hr|]. split; [exact Hp | exact Ht].
Defined.

Lemma read_fragment_runs_witness :
  exists m',
    run (generate_read_code 25 init_prefix ++ []) host_reads_A 5
        (set_pc 34 (machine_at_body host_reads_A)) = Next m' /\
    pc m' = 53 /\ mem m' 8192 = 65 /\ mem m' 8193 = 0.
Proof.
  destruct (read_fragment_runs host_reads_A 25 init_prefix []
              (machine_at_body host_reads_A))
    as (m' & Hr & Hp & _ & Hm & _).
  - vm_compute. split; discriminate.
  - vm_compute. discriminate.
  - reflexivity.
  - discriminate.
  - vm_compute. discriminate.
  - vm_compute. discriminate.
  - exists m'. split; [exact Hr|]. split; [exact Hp|].
    split; [exact (Hm 8192) | exact (Hm 8193)].
Defined.

Definition loop_example : code_buffer :=
  match generate_loop_code 25 (src "[-") init_prefix with
  | Done final => final
  | _ => []
  end.

Lemma loop_code_runs_witness :
  exists m2,
    run (loop_example ++ []) host_reads_A 1
        (set_pc (size loop_example - 5) (machine_at_body host_reads_A)) = Next m2 /\
    pc m2 = 34.
Proof.
  destruct (loop_code_runs host_reads_A 25 (src "[-") init_prefix loop_example []
              (machine_at_body host_reads_A) eq_refl)
    as (_ & m2 & Hr & Hp & _).
  - vm_compute. discriminate.
  - exists m2. split; [exact Hr | exact Hp].
Defined.

(** ** The buffer that init builds *)

(** X12.  The buffer built by [init] for a source short enough for [int]
    offsets: the prologue [START] at offset 0, the epilogue [EXIT] at offset
    25 (the exit offset), then the code of the source, at most 20 bytes for
    each of its characters, and as its last five bytes a jump whose target is
    the exit offset. *)
Theorem init_code_shape (s : source) (code : code_buffer) :
  init_code s = Done code ->
  34 + 20 * Z.of_nat (length s) <= INT_MAX ->
  exists body,
    code = init_prefix ++ body ++ JMP ++ rel32 init_exit_offset (34 + size body + 1) /\
    firstn 23 code = START /\
    slice 25 9 code = EXIT /\
    0 <= size body <= 20 * Z.of_nat (length s) /\
    size code = 39 + size body /\
    slice (Z.to_nat (size code - 5)) 1 code = JMP /\
    (size code - 4) + 4 + le_signed32 (slice (Z.to_nat (size code - 4)) 4 code)
    = init_exit_offset.
Proof.
  intros Hc Hsz. destruct (init_code_program s code Hsz Hc) as (p & -> & Hp).
  pose proof (layout_size_nonneg p) as H0.
  exists (encode 25 34 p). rewrite size_encode.
  assert (Hs : size (program_code p) = 39 + layout_size p).
  { unfold program_code, rel32.
    rewrite !size_app, size_encode, size_le_bytes, size_init_prefix.
    change (size JMP) with 1. lia. }
  split; [reflexivity|]. split; [reflexivity|]. split; [reflexivity|].
  split; [lia|]. split; [exact Hs|].
  rewrite Hs. unfold program_code.
  assert (Hl : length (init_prefix ++ encode 25 34 p) = Z.to_nat (39 + layout_size p - 5)).
  { apply Nat2Z.inj. fold (size (init_prefix ++ encode 25 34 p)).
    rewrite size_app, size_encode, size_init_prefix. lia. }
  split.
  - rewrite app_assoc, <- Hl. unfold slice.
    rewrite skipn_app, skipn_all, Nat.sub_diag. reflexivity.
  - assert (Hl4 : length ((init_prefix ++ encode 25 34 p) ++ JMP)
                  = Z.to_nat (39 + layout_size p - 4)).
    { rewrite length_app, Hl. cbn [length JMP]. lia. }
    rewrite !app_assoc, <- Hl4.
    change (slice (length ((init_prefix ++ encode 25 34 p) ++ JMP)) 4)
      with (slice (length ((init_prefix ++ encode 25 34 p) ++ JMP))
              (length (rel32 25 (34 + layout_size p + 1)))).
    rewrite slice_app_exact.
    rewrite le_signed32_rel32 by (unfold INT_MAX in *; lia).
    change init_exit_offset with 25. lia.
Qed.

Lemma init_code_shape_witness :
  exists body, compiled "+[-]." = init_prefix ++ body ++ JMP ++ rel32 25 (34 + size body + 1).
Proof.
  destruct (init_code_shape (src "+[-].") (compiled "+[-].") eq_refl)
    as (body & H & _).
  - vm_compute. discriminate.
  - exists body. exact H.
Defined.

(** ** The default capabilities *)

Definition EOF : Z := -1.

(** [bf_read], given what [getchar()] returned. *)
Definition bf_read (c : Z) : Z := if c =? EOF then 0 else c.

(** X13.  [getchar] returns [EOF] or a byte.  Whatever it returns,
    [bf_read] answers a value from 0 to 255, end of input and the byte 0 give
    the same answer, and after that answer the [jl] of the read fragment is
    not taken: with the default read capability a "," never leads to the
    exit. *)
Theorem bf_read_never_exits (c : Z) :
  c = EOF \/ 0 <= c <= 255 ->
  0 <= bf_read c <= 255 /\
  bf_read EOF = bf_read 0 /\
  taken CondL (flags_sub 64 (bf_read c mod 2 ^ 64) 0) = false.
Proof.
  intro H.
  assert (Hr : 0 <= bf_read c <= 255).
  { unfold bf_read. destruct (Z.eqb_spec c EOF); [lia|].
    destruct H as [H|H]; [contradiction | exact H]. }
  split; [exact Hr|]. split; [reflexivity|].
  rewrite Z.mod_small by lia. rewrite jl_after_cmp_zero by lia.
  destruct (Z.ltb_spec (bf_read c) (2 ^ 63)); [reflexivity | lia].
Qed.

Lemma bf_read_never_exits_witness :
  taken CondL (flags_sub 64 (bf_read EOF mod 2 ^ 64) 0) = false.
Proof.
  exact (proj2 (proj2 (bf_read_never_exits EOF (or_introl eq_refl)))).
Defined.

(** ** A loop that runs: the program "[-]" *)

Section CheckedEnds.

Variable A : arena.
Variable code : code_buffer.
Variable h : host.

Hypothesis Hprologue :
  fetch code 0 = Some (Ipush R12, 2) /\ fetch code 2 = Some (Ipush R13, 2) /\
  fetch code 4 = Some (Ipush R14, 2) /\ fetch code 6 = Some (Ipush RBP, 1) /\
  fetch code 7 = Some (Ipush RBX, 1) /\ fetch code 8 = Some (Imov RDI R12, 3) /\
  fetch code 11 = Some (Imov RSI R13, 3) /\ fetch code 14 = Some (Imov RDX R14, 3) /\
  fetch code 17 = Some (Imov RCX RBP, 3) /\ fetch code 20 = Some (Imov R8 RBX, 3) /\
  fetch code 23 = Some (Ijmp 9, 2).
Hypothesis Hexit :
  fetch code 25 = Some (Ipop RBX, 1) /\ fetch code 26 = Some (Ipop RBP, 1) /\
  fetch code 27 = Some (Ipop R14, 2) /\ fetch code 29 = Some (Ipop R13, 2) /\
  fetch code 31 = Some (Ipop R12, 2) /\ fetch code 33 = Some (Iret, 1).

Ltac plain_step E q :=
  erewrite (checked_step_at A code h _ q); [ | reflexivity | exact E | exact I ];
  cbn [exec check stack set_stack set_reg set_pc].

(** The prologue touches no memory but the stack. *)
Lemma checked_prologue (m0 : machine) :
  pc m0 = 0 -> stack m0 = [] ->
  exists m,
    checked_run A code h 11 m0 = Running m /\ pc m = 34 /\
    stack m = [regs m0 RBX; regs m0 RBP; regs m0 R14; regs m0 R13; regs m0 R12] /\
    regs m RBX = regs m0 R8 /\ mem m = mem m0 /\ trace m = trace m0.
Proof.
  destruct Hprologue as (E0 & E2 & E4 & E6 & E7 & E8 & E11 & E14 & E17 & E20 & E23).
  destruct m0 as [pc0 regs0 fl0 st mem0 tr]. cbn [pc stack trace regs mem].
  intros -> ->. eexists. split.
  - cbn [checked_run].
    plain_step E0 0. plain_step E2 2. plain_step E4 4. plain_step E6 6.
    plain_step E7 7. plain_step E8 8. plain_step E11 11. plain_step E14 14.
    plain_step E17 17. plain_step E20 20. plain_step E23 23.
    reflexivity.
  - repeat split.
Qed.

(** So does the epilogue: after five instructions the machine is at the
    [retq], which returns. *)
Lemma checked_epilogue (m : machine) (a b c d e : Z) :
  pc m = 25 -> stack m = [a; b; c; d; e] ->
  exists m',
    checked_run A code h 5 m = Running m' /\ pc m' = 33 /\
    checked_run A code h 6 m = Returned m' /\
    mem m' = mem m /\ trace m' = trace m.
Proof.
  destruct Hexit as (E25 & E26 & E27 & E29 & E31 & E33).
  destruct m as [pc0 regs0 fl0 st mem0 tr]. cbn [pc stack trace mem]. intros -> ->.
  eexists. split; [|split; [|split]].
  - cbn [checked_run].
    plain_step E25 25. plain_step E26 26. plain_step E27 27. plain_step E29 29.
    plain_step E31 31. reflexivity.
  - reflexivity.
  - cbn [checked_run].
    plain_step E25 25. plain_step E26 26. plain_step E27 27. plain_step E29 29.
    plain_step E31 31. plain_step E33 33. reflexivity.
  - split; reflexivity.
Qed.

End CheckedEnds.

Section ClearLoop.

Variable h : host.
Variable A : arena.

Definition clear_code : code_buffer := compiled "[-]".

Lemma clear_fetch :
  fetch clear_code 34 = Some (Icmpb_mem 0, 3) /\
  fetch clear_code 37 = Some (Ijcc CondE 11, 6) /\
  fetch clear_code 43 = Some (Iload_al, 2) /\
  fetch clear_code 45 = Some (Isub_al 1, 2) /\
  fetch clear_code 47 = Some (Istore_al, 2) /\
  fetch clear_code 49 = Some (Ijmp (-20), 5) /\
  fetch clear_code 54 = Some (Ijmp (-34), 5).
Proof. repeat split; reflexivity. Qed.

Lemma cmpb_zero_taken (b : Z) :
  taken CondE (flags_sub 8 (low8 b) 0) = (low8 b =? 0).
Proof.
  unfold taken, flags_sub. cbn [ZF]. rewrite Z.sub_0_r.
  rewrite Z.mod_small; [reflexivity|]. unfold low8. apply Z.mod_pos_bound. lia.
Qed.

Ltac clear_step E q :=
  erewrite (checked_step_at A clear_code h _ q);
  [ | machine_simpl; try eassumption; reflexivity | exact E
    | cbn [access_width]; machine_simpl; first [ exact I | eassumption ] ];
  cbn [exec check].

(** One turn of the loop, from the test back to the test. *)
Lemma clear_iteration (m : machine) :
  pc m = 34 -> in_arena A (regs m RBX) 1 = true ->
  low8 (mem m (regs m RBX)) <> 0 ->
  exists m',
    checked_run A clear_code h 6 m = Running m' /\ pc m' = 34 /\
    regs m' RBX = regs m RBX /\
    mem m' (regs m RBX) = (mem m (regs m RBX) - 1) mod 256 /\
    (forall a, a <> regs m RBX -> mem m' a = mem m a) /\
    stack m' = stack m /\ trace m' = trace m.
Proof.
  destruct clear_fetch as (F34 & F37 & F43 & F45 & F47 & F49 & _).
  intros Hpc Ha Hnz. eexists. split.
  - cbn [checked_run].
    clear_step F34 34. clear_step F37 37.
    machine_simpl. rewrite cmpb_zero_taken.
    destruct (Z.eqb_spec (low8 (mem m (regs m RBX))) 0) as [E|_]; [contradiction|].
    change (37 + 6) with 43.
    clear_step F43 43. clear_step F45 45. clear_step F47 47. clear_step F49 49.
    reflexivity.
  - machine_simpl. repeat split.
    + rewrite store_same, !low8_with_low8. unfold low8.
      now rewrite Zminus_mod_idemp_l.
    + intros a Ha'. now apply store_other.
Qed.

(** From the test with the value [v] in the cell to the end of the loop. *)
Lemma clear_loop (v : nat) : forall m,
  pc m = 34 -> in_arena A (regs m RBX) 1 = true ->
  low8 (mem m (regs m RBX)) = Z.of_nat v ->
  exists m',
    checked_run A clear_code h (6 * v + 2) m = Running m' /\ pc m' = 54 /\
    low8 (mem m' (regs m RBX)) = 0 /\
    (forall a, a <> regs m RBX -> mem m' a = mem m a) /\
    stack m' = stack m /\ trace m' = trace m.
Proof.
  destruct clear_fetch as (F34 & F37 & _).
  induction v as [|v IH]; intros m Hpc Ha Hv.
  - eexists. split.
    + cbn [Nat.mul Nat.add checked_run].
      clear_step F34 34. clear_step F37 37.
      machine_simpl. rewrite cmpb_zero_taken, Hv. cbn [Z.of_nat Z.eqb].
      reflexivity.
    + machine_simpl. repeat split. exact Hv.
  - destruct (clear_iteration m Hpc Ha)
      as (m1 & Hr1 & Hpc1 & Hb1 & Hm1 & Hf1 & Hs1 & Ht1); [rewrite Hv; lia|].
    assert (Hv1 : low8 (mem m1 (regs m1 RBX)) = Z.of_nat v).
    { rewrite Hb1, Hm1. unfold low8 in *. rewrite Z.mod_mod by lia.
      rewrite <- Zminus_mod_idemp_l, Hv.
      pose proof (Z.mod_pos_bound (mem m (regs m RBX)) 256 ltac:(lia)).
      rewrite Z.mod_small by lia. lia. }
    destruct (IH m1 Hpc1 ltac:(now rewrite Hb1) Hv1) as (m' & Hr & Hpc' & Hz & Hf & Hs & Ht).
    exists m'. split.
    + replace (6 * S v + 2)%nat with (6 + (6 * v + 2))%nat by lia.
      rewrite checked_run_add, Hr1. exact Hr.
    + rewrite Hb1 in *. repeat split; try assumption; try congruence.
      intros a Ha'. rewrite Hf by exact Ha'. now apply Hf1.
Qed.

(** X14.  The compiled program "[-]", entered as [run] enters it with the
    pointer on a cell of the arena that holds [v]: it turns the loop [v]
    times and returns after exactly 20 + 6 v instructions (after 19 + 6 v it
    is at the [retq], which is the next one), with 0 in that cell, every
    other cell as it was, no access outside the arena and no call of a
    capability. *)
Theorem clear_program_terminates
    (memory : Z) (others : reg -> Z) (tape : Z -> Z) (v : nat) :
  in_arena A memory 1 = true ->
  low8 (tape memory) = Z.of_nat v ->
  exists m,
    checked_run A clear_code h (19 + 6 * v) (entry h memory others tape) = Running m /\
    pc m = 33 /\
    checked_run A clear_code h (20 + 6 * v) (entry h memory others tape) = Returned m /\
    low8 (mem m memory) = 0 /\
    (forall a, a <> memory -> mem m a = tape a) /\
    trace m = [].
Proof.
  intros Ha Hv.
  destruct (checked_prologue A clear_code h) with (m0 := entry h memory others tape)
    as (m1 & Hr1 & Hpc1 & Hst1 & Hb1 & Hm1 & Ht1);
    [repeat split; reflexivity | reflexivity | reflexivity |].
  cbn [entry regs mem trace] in Hb1, Hm1, Ht1.
  destruct (clear_loop v m1 Hpc1) as (m2 & Hr2 & Hpc2 & Hz2 & Hf2 & Hs2 & Ht2);
    [now rewrite Hb1 | now rewrite Hb1, Hm1|].
  destruct clear_fetch as (_ & _ & _ & _ & _ & _ & F54).
  destruct (checked_epilogue A clear_code h ltac:(repeat split; reflexivity)
              (set_pc 25 m2) _ _ _ _ _ eq_refl ltac:(machine_simpl; rewrite Hs2; exact Hst1))
    as (m3 & Hr5 & Hpc3 & Hr6 & Hm3 & Ht3).
  assert (Hjmp : checked_step A clear_code h m2 = Running (set_pc 25 m2)).
  { now rewrite (checked_step_at A clear_code h m2 54 _ _ Hpc2 F54 I). }
  exists m3. split; [|split; [exact Hpc3|split]].
  - replace (19 + 6 * v)%nat with (11 + ((6 * v + 2) + (1 + 5)))%nat by lia.
    rewrite checked_run_add, Hr1, checked_run_add, Hr2, checked_run_add.
    cbn [checked_run]. rewrite Hjmp. exact Hr5.
  - replace (20 + 6 * v)%nat with (11 + ((6 * v + 2) + (1 + 6)))%nat by lia.
    rewrite checked_run_add, Hr1, checked_run_add, Hr2, checked_run_add.
    cbn [checked_run]. rewrite Hjmp. exact Hr6.
  - rewrite Hm3, Ht3. machine_simpl. rewrite Hb1 in *. rewrite Ht2, Ht1.
    repeat split; [exact Hz2|].
    intros a Ha'. rewrite Hf2 by exact Ha'. now rewrite Hm1.
Qed.

End ClearLoop.

Lemma clear_program_terminates_witness :
  exists m,
    checked_run tape_arena clear_code host_reads_A (19 + 6 * 200)
        (entry host_reads_A 8192 (fun _ => 0) (fun a => if a =? 8192 then 200 else 7))
    = Running m /\
    pc m = 33 /\
    checked_run tape_arena clear_code host_reads_A (20 + 6 * 200)
        (entry host_reads_A 8192 (fun _ => 0) (fun a => if a =? 8192 then 200 else 7))
    = Returned m /\
    low8 (mem m 8192) = 0.
Proof.
  destruct (clear_program_terminates host_reads_A tape_arena 8192 (fun _ => 0)
              (fun a => if a =? 8192 then 200 else 7) 200 eq_refl eq_refl)
    as (m & Hr & Hpc & Hret & Hz & _).
  exists m. repeat split; assumption.
Defined.

(** ** Where the code of a character is *)

(** What one character adds to the buffer, by the number [pending] of loops
    that are open where it stands: the fragment of an instruction character,
    the test and the conditional jump (3 + 6 bytes) of an open bracket, the
    jump back (1 + 4 bytes) of the close bracket of a loop, nothing for any
    other character. *)
Definition char_size (pending : nat) (c : ascii) : Z :=
  match fragment_of c with
  | None => size LOOP_CMP + size PLACEHOLDER
  | Some FNone =>
      if is_close c then match pending with O => 0 | S _ => size JMP + 4 end else 0
  | Some f => fragment_size f
  end.

Definition pending_after (pending : nat) (c : ascii) : nat :=
  if is_open c then S pending else if is_close c then pred pending else pending.

(** The size of what is emitted for the characters of [s], in a source
    whose open brackets are all closed: a close bracket met while no loop is
    open is one that the sequence generator skips. *)
Fixpoint emitted_size (pending : nat) (s : source) : Z :=
  match s with
  | [] => 0
  | c :: s' => char_size pending c + emitted_size (pending_after pending c) s'
  end.

Fixpoint pending_at_end (pending : nat) (s : source) : nat :=
  match s with
  | [] => pending
  | c :: s' => pending_at_end (pending_after pending c) s'
  end.

(** The offset in the finished code of what is emitted for the character
    that follows the characters [before]: the prologue and the epilogue take
    the first 34 bytes. *)
Definition code_offset (before : source) : Z := size init_prefix + emitted_size 0 before.

Section SourceMap.

Lemma char_size_bounds d c : 0 <= char_size d c <= 20.
Proof.
  unfold char_size. destruct (fragment_of c) as [[]|]; cbn; try lia.
  destruct (is_close c); [destruct d|]; cbn; lia.
Qed.

Lemma emitted_size_bounds s : forall d, 0 <= emitted_size d s <= 20 * Z.of_nat (length s).
Proof.
  induction s as [|c s IH]; intro d; cbn [emitted_size length]; [lia|].
  pose proof (char_size_bounds d c). specialize (IH (pending_after d c)). lia.
Qed.

Lemma emitted_size_app a : forall d b,
  emitted_size d (a ++ b) = emitted_size d a + emitted_size (pending_at_end d a) b.
Proof.
  induction a as [|c a IH]; intros d b; cbn [app emitted_size pending_at_end]; [lia|].
  rewrite IH. lia.
Qed.

Lemma fragment_of_is_open c : is_open c = true <-> fragment_of c = None.
Proof.
  unfold is_open, fragment_of.
  repeat match goal with
         | |- context [Ascii.eqb c ?x] => destruct (Ascii.eqb_spec c x)
         end; subst; split; try congruence; try discriminate.
Qed.

(** The level of a character, counted from [d], as long as no close bracket
    is met at level 0. *)
Definition above (d : nat) (l : source) : Prop :=
  forall m : nat, 0 <= Z.of_nat d + depth (firstn m l).

Lemma above_cons d c l :
  above d (c :: l) ->
  Z.of_nat (pending_after d c) = Z.of_nat d + bracket_value c /\
  (is_close c = true -> (0 < d)%nat) /\
  above (pending_after d c) l.
Proof.
  intro H.
  assert (H1 : 0 <= Z.of_nat d + bracket_value c).
  { specialize (H 1%nat). cbn [firstn depth] in H. lia. }
  assert (E : Z.of_nat (pending_after d c) = Z.of_nat d + bracket_value c).
  { unfold pending_after, bracket_value in *.
    destruct (is_open c); [lia|]. destruct (is_close c); lia. }
  split; [exact E|]. split.
  - intro Hc. unfold bracket_value in H1.
    destruct (is_open c) eqn:Ho.
    + apply is_open_true in Ho. apply is_close_true in Hc. congruence.
    + rewrite Hc in H1. lia.
  - intro m. specialize (H (S m)). cbn [firstn depth] in H. lia.
Qed.

Lemma emitted_size_level l : forall d d',
  above d l -> above d' l -> emitted_size d l = emitted_size d' l.
Proof.
  induction l as [|c l IH]; intros d d' H H'; [reflexivity|].
  cbn [emitted_size].
  destruct (above_cons _ _ _ H) as (_ & Hc & Ht).
  destruct (above_cons _ _ _ H') as (_ & Hc' & Ht').
  rewrite (IH _ _ Ht Ht'). f_equal.
  unfold char_size. destruct (fragment_of c) as [[]|]; try reflexivity.
  destruct (is_close c); [|reflexivity].
  specialize (Hc eq_refl). specialize (Hc' eq_refl).
  destruct d, d'; first [lia | reflexivity].
Qed.

Lemma pending_at_end_level l : forall d,
  above d l -> Z.of_nat (pending_at_end d l) = Z.of_nat d + depth l.
Proof.
  induction l as [|c l IH]; intros d H; cbn [pending_at_end depth]; [lia|].
  destruct (above_cons _ _ _ H) as (E & _ & Ht).
  rewrite (IH _ Ht). lia.
Qed.

Lemma above_prefix d a b : above d (a ++ b) -> above d a.
Proof.
  intros H m. specialize (H (Nat.min m (length a))).
  rewrite firstn_app in H.
  replace (Nat.min m (length a) - length a)%nat with 0%nat in H by lia.
  cbn [firstn] in H. rewrite app_nil_r in H.
  destruct (Nat.le_gt_cases m (length a)) as [L|L].
  - now replace (Nat.min m (length a)) with m in H by lia.
  - rewrite firstn_all2 by lia.
    replace (Nat.min m (length a)) with (length a) in H by lia.
    now rewrite firstn_all in H.
Qed.


Lemma char_size_fragment c f :
  fragment_of c = Some f -> char_size 0 c = fragment_size f /\ pending_after 0 c = 0%nat.
Proof.
  intro H. unfold char_size, pending_after. rewrite H.
  destruct (is_open c) eqn:Ho.
  { apply fragment_of_is_open in Ho. congruence. }
  split.
  - destruct f; try reflexivity. now destruct (is_close c).
  - now destruct (is_close c).
Qed.

Lemma emitted_size_open t :
  above 0 t -> emitted_size 0 ("["%char :: t) = 9 + emitted_size 0 t.
Proof.
  intro H. cbn [emitted_size]. change (char_size 0 "[") with 9.
  change (pending_after 0 "[") with 1%nat. f_equal.
  apply emitted_size_level; [|exact H]. intro m. specialize (H m). lia.
Qed.

Lemma emitted_size_loop body t :
  above 0 body -> depth body = 0 ->
  emitted_size 0 ("["%char :: body ++ "]"%char :: t)
  = 9 + emitted_size 0 body + 5 + emitted_size 0 t.
Proof.
  intros H Hd. cbn [emitted_size]. change (char_size 0 "[") with 9.
  change (pending_after 0 "[") with 1%nat.
  assert (H1 : above 1 body) by (intro m; specialize (H m); lia).
  rewrite emitted_size_app, (emitted_size_level body 1 0 H1 H).
  assert (E : pending_at_end 1 body = 1%nat).
  { pose proof (pending_at_end_level body 1 H1). lia. }
  rewrite E. cbn [emitted_size]. change (char_size 1 "]") with 5.
  change (pending_after 1 "]") with 0%nat. lia.
Qed.

End SourceMap.

Section Places.

Variable exit : Z.

Local Abbreviation gen := (generate_sequence_code_fuel exit).

Lemma slice_skip (a b : code_buffer) (x n : nat) :
  slice (length a + x) n (a ++ b) = slice x n b.
Proof.
  unfold slice. rewrite skipn_app, skipn_all2 by lia. cbn [app].
  now replace (length a + x - length a)%nat with x by lia.
Qed.

Lemma slice_keep (b c : code_buffer) (x n : nat) :
  (x + n <= length b)%nat -> slice x n (b ++ c) = slice x n b.
Proof.
  intro H. unfold slice. rewrite skipn_app, firstn_app, length_skipn.
  replace (n - (length b - x))%nat with 0%nat by lia.
  cbn [firstn]. now rewrite app_nil_r.
Qed.

Lemma slice_whole (b : code_buffer) (x n : nat) (r : code_buffer) :
  slice x n b = r -> length r = n -> (0 < n)%nat -> (x + n <= length b)%nat.
Proof.
  intros <- H Hn. unfold slice in H. rewrite length_firstn, length_skipn in H. lia.
Qed.

Lemma loop_split (c0 : ascii) (rest : source) (k : nat) :
  find_loop_end (c0 :: rest) = Some k ->
  rest = firstn (k - 1) rest ++ "]"%char :: skipn k rest /\
  above 0 (firstn (k - 1) rest) /\ depth (firstn (k - 1) rest) = 0.
Proof.
  intro E. pose proof (loop_body_depth _ _ _ E) as Hd0.
  apply find_loop_end_some in E. destruct E as (Hk & Hn & Hd & Hpos).
  repeat split; [| |exact Hd0].
  - rewrite <- (firstn_skipn k rest) at 1.
    replace k with (S (k - 1)) at 1 by lia.
    rewrite (firstn_succ_nth _ _ "0"%char) by lia.
    rewrite Hn, <- app_assoc. reflexivity.
  - intro m. rewrite firstn_firstn. cbn [Z.of_nat Z.add]. apply Hpos. lia.
Qed.

(** The code of a finished sequence, character by character: what is
    emitted for a character that has a fragment lies, in what the sequence
    appends to the buffer, at the size of what is emitted for the characters
    before it. *)
Lemma generate_sequence_code_places (fuel : nat) :
  forall s code out,
    (length s < fuel)%nat ->
    size code + 20 * Z.of_nat (length s) <= INT_MAX ->
    gen fuel s code = Done out ->
    exists ext,
      out = code ++ ext /\ size ext = emitted_size 0 s /\
      forall s1 c s2 f,
        s = s1 ++ c :: s2 -> fragment_of c = Some f ->
        slice (Z.to_nat (emitted_size 0 s1)) (Z.to_nat (fragment_size f)) ext
        = fragment_bytes exit (size code + emitted_size 0 s1) f.
Proof.
  induction fuel as [|fuel IH]; intros s code out Hf Hsz H; [lia|].
  destruct s as [|c rest].
  - simpl in H. injection H as <-. exists []. split; [now rewrite app_nil_r|].
    split; [reflexivity|]. intros [|? ?] ? ? ? E; discriminate.
  - rewrite generate_sequence_code_step in H. cbn [length] in Hf, Hsz.
    pose proof (size_nonneg code) as Hc0.
    destruct (fragment_of c) as [f|] eqn:Ef.
    + assert (Hfs : 0 <= fragment_size f <= 20) by (destruct f; simpl; lia).
      destruct (IH rest (code ++ fragment_bytes exit (size code) f) out ltac:(lia))
        as (ext & -> & Hsize & Hat); [|exact H|].
      { rewrite size_app, size_fragment_bytes. lia. }
      destruct (char_size_fragment _ _ Ef) as [Hw Hp].
      exists (fragment_bytes exit (size code) f ++ ext).
      split; [now rewrite <- app_assoc|]. split.
      { rewrite size_app, size_fragment_bytes, Hsize. cbn [emitted_size].
        now rewrite Hw, Hp. }
      intros s1 c1 s2 f1 E Ef1.
      destruct s1 as [|c' s1]; cbn [app] in E; injection E as <- E.
      * assert (f1 = f) by congruence. subst f1.
        cbn [emitted_size Z.to_nat]. rewrite Z.add_0_r.
        pose proof (size_fragment_bytes exit (size code) f) as Hl. unfold size in Hl at 1.
        replace (Z.to_nat (fragment_size f))
          with (length (fragment_bytes exit (size code) f)) by lia.
        unfold slice. cbn [skipn]. rewrite firstn_app, firstn_all, Nat.sub_diag.
        cbn [firstn]. now rewrite app_nil_r.
      * specialize (Hat s1 c1 s2 f1 E Ef1).
        cbn [emitted_size]. rewrite Hw, Hp.
        pose proof (emitted_size_bounds s1 0) as Hb.
        pose proof (size_fragment_bytes exit (size code) f) as Hl. unfold size in Hl at 1.
        replace (Z.to_nat (fragment_size f + emitted_size 0 s1))
          with (length (fragment_bytes exit (size code) f)
                + Z.to_nat (emitted_size 0 s1))%nat by lia.
        rewrite slice_skip, Hat. f_equal.
        rewrite size_app, size_fragment_bytes. lia.
    + destruct (find_loop_end (c :: rest)) as [k|] eqn:E; [|discriminate].
      pose proof (find_loop_end_some _ _ _ E) as (Hk & _).
      destruct (loop_ranges c rest k ltac:(lia)) as [Hbody Hrest].
      destruct (loop_split _ _ _ E) as (Hsplit & Hab & Hd0).
      apply fragment_of_open in Ef. subst c.
      rewrite Hrest in H.
      set (body := firstn (k - 1) rest) in *. set (tail := skipn k rest) in *.
      assert (Hlb : length body = (k - 1)%nat) by (unfold body; rewrite length_firstn; lia).
      assert (Hlt : length tail = (length rest - k)%nat)
        by (unfold tail; now rewrite length_skipn).
      destruct (gen fuel body ((code ++ LOOP_CMP) ++ PLACEHOLDER)) as [out1| | |] eqn:Eb;
        try (unfold generate_loop_code_with in H; rewrite Hbody, Eb in H; discriminate).
      destruct (IH body ((code ++ LOOP_CMP) ++ PLACEHOLDER) out1 ltac:(lia))
        as (extb & -> & Hsb & Hatb); [|exact Eb|].
      { rewrite !size_app. change (size LOOP_CMP) with 3.
        change (size PLACEHOLDER) with 6. lia. }
      pose proof (emitted_size_bounds body 0) as Hbb.
      rewrite (generate_loop_code_with_done (gen fuel) _ code extb) in H;
        [|lia|rewrite Hbody; exact Eb].
      match type of H with gen fuel _ (code ++ ?x) = _ => set (pre3 := x) in * end.
      assert (Hs3 : size pre3 = 9 + size extb + 5).
      { unfold pre3, rel32. rewrite !size_app, !size_le_bytes.
        change (size LOOP_CMP) with 3. change (size JE) with 2.
        change (size JMP) with 1. lia. }
      destruct (IH tail (code ++ pre3) out ltac:(lia)) as (extr & -> & Hsr & Hatr);
        [|exact H|].
      { rewrite size_app. lia. }
      exists (pre3 ++ extr). split; [now rewrite <- app_assoc|].
      split.
      { rewrite size_app, Hs3, Hsb, Hsr.
        replace (emitted_size 0 ("["%char :: rest))
          with (emitted_size 0 ("["%char :: body ++ "]"%char :: tail))
          by (now rewrite <- Hsplit).
        rewrite emitted_size_loop by assumption. lia. }
      intros s1 c1 s2 f1 E1 Ef1.
      assert (Hn0 : f1 = FNone \/ 0 < fragment_size f1)
        by (destruct f1; auto; right; cbn; lia).
      destruct Hn0 as [->|Hpos]; [reflexivity|].
      destruct s1 as [|c' t1]; cbn [app] in E1; injection E1 as <- E1.
      { discriminate. }
      rewrite Hsplit in E1. fold body tail in E1.
      apply app_eq_app in E1. destruct E1 as (l & [[E1 E2]|[E1 E2]]).
      * (* the character is in the body *)
        destruct l as [|x l]; cbn [app] in E2; injection E2 as E2 E3.
        { subst c1. cbv in Ef1. injection Ef1 as <-. cbn in Hpos. lia. }
        subst x. specialize (Hatb t1 c1 l f1 E1 Ef1).
        assert (Hat1 : above 0 t1)
          by (apply (above_prefix 0 t1 (c1 :: l)); now rewrite <- E1).
        rewrite emitted_size_open by exact Hat1.
        pose proof (emitted_size_bounds t1 0) as Hb1.
        pose proof (slice_whole _ _ _ _ Hatb) as Hw.
        pose proof (size_fragment_bytes exit
                      (size ((code ++ LOOP_CMP) ++ PLACEHOLDER) + emitted_size 0 t1) f1)
          as Hl. unfold size in Hl at 1.
        specialize (Hw ltac:(lia) ltac:(lia)).
        unfold pre3.
        replace (LOOP_CMP ++ (JE ++ rel32 (size code + 9 + size extb + 5) (size code + 5))
                   ++ extb ++ JMP ++ rel32 (size code) (size code + 9 + size extb + 1))
          with ((LOOP_CMP ++ JE ++ rel32 (size code + 9 + size extb + 5) (size code + 5))
                  ++ extb ++ JMP ++ rel32 (size code) (size code + 9 + size extb + 1))
          by (now rewrite <- !app_assoc).
        rewrite <- app_assoc.
        replace (Z.to_nat (9 + emitted_size 0 t1))
          with (length (LOOP_CMP ++ JE ++ rel32 (size code + 9 + size extb + 5)
                                             (size code + 5))
                + Z.to_nat (emitted_size 0 t1))%nat.
        2:{ rewrite !length_app. unfold rel32. rewrite length_le_bytes.
            change (length LOOP_CMP) with 3%nat. change (length JE) with 2%nat. lia. }
        rewrite slice_skip. rewrite <- app_assoc. rewrite slice_keep by exact Hw.
        rewrite Hatb. f_equal. rewrite !size_app. change (size LOOP_CMP) with 3.
        change (size PLACEHOLDER) with 6. lia.
      * (* the character comes after the loop *)
        destruct l as [|x l]; cbn [app] in E2; injection E2 as E2 E3.
        { subst c1. cbv in Ef1. injection Ef1 as <-. cbn in Hpos. lia. }
        subst x t1. specialize (Hatr l c1 s2 f1 E3 Ef1).
        rewrite emitted_size_loop by assumption.
        pose proof (emitted_size_bounds l 0) as Hb1.
        replace (Z.to_nat (9 + emitted_size 0 body + 5 + emitted_size 0 l))
          with (length pre3 + Z.to_nat (emitted_size 0 l))%nat
          by (unfold size in Hs3, Hsb; lia).
        rewrite slice_skip, Hatr. f_equal. rewrite size_app. lia.
Qed.

End Places.

Lemma char_size_fragment_le d c f :
  fragment_of c = Some f -> fragment_size f <= char_size d c.
Proof.
  intro H. unfold char_size. rewrite H. destruct f; try lia.
  cbn [fragment_size]. destruct (is_close c); [destruct d|]; cbn; lia.
Qed.

Lemma slice_split (b : code_buffer) (x n : nat) :
  b = firstn x b ++ slice x n b ++ skipn (x + n) b.
Proof.
  unfold slice. rewrite (Nat.add_comm x n), <- skipn_skipn.
  now rewrite !firstn_skipn.
Qed.

(** The finished code of [init], character by character: the fragment of a
    character lies at its [code_offset]. *)
Lemma init_code_places (s : source) (code : code_buffer) :
  34 + 20 * Z.of_nat (length s) <= INT_MAX ->
  init_code s = Done code ->
  forall s1 c s2 f,
    s = s1 ++ c :: s2 -> fragment_of c = Some f ->
    exists pre post,
      code = pre ++ fragment_bytes 25 (size pre) f ++ post /\
      size pre = code_offset s1.
Proof.
  intros Hsz Hc s1 c s2 f Hs Hf. unfold init_code in Hc.
  destruct (generate_sequence_code init_exit_offset s init_prefix) as [out| | |] eqn:G;
    try discriminate.
  assert (E : code = add_jmp_to_exit init_exit_offset out) by congruence.
  clear Hc. unfold generate_sequence_code in G.
  destruct (generate_sequence_code_places init_exit_offset (S (length s)) s init_prefix out
              ltac:(lia) ltac:(rewrite size_init_prefix; lia) G)
    as (ext & Hout & Hsize & Hat).
  specialize (Hat s1 c s2 f Hs Hf).
  pose proof (emitted_size_bounds s1 0) as Hb1.
  assert (Hfs : 0 <= fragment_size f) by (destruct f; cbn; lia).
  assert (Hfit : emitted_size 0 s1 + fragment_size f <= size ext).
  { rewrite Hsize, Hs, emitted_size_app. cbn [emitted_size].
    pose proof (char_size_fragment_le (pending_at_end 0 s1) c f Hf).
    pose proof (emitted_size_bounds s2 (pending_after (pending_at_end 0 s1) c)). lia. }
  exists (init_prefix ++ firstn (Z.to_nat (emitted_size 0 s1)) ext),
         (skipn (Z.to_nat (emitted_size 0 s1) + Z.to_nat (fragment_size f)) ext
            ++ JMP ++ rel32 init_exit_offset (size out + 1)).
  assert (Hpre : size (init_prefix ++ firstn (Z.to_nat (emitted_size 0 s1)) ext)
                 = code_offset s1).
  { unfold code_offset. rewrite size_app. f_equal. unfold size in *.
    rewrite length_firstn, Nat.min_l by lia. lia. }
  split; [|exact Hpre].
  rewrite Hpre. unfold code_offset. rewrite size_init_prefix in *.
  change init_exit_offset with 25 in *. rewrite <- Hat.
  rewrite E. unfold add_jmp_to_exit. rewrite add_jmp_to_offset_eq, Hout.
  rewrite <- !app_assoc. f_equal.
  rewrite (slice_split ext (Z.to_nat (emitted_size 0 s1)) (Z.to_nat (fragment_size f)))
    at 1.
  now rewrite <- !app_assoc.
Qed.

(** In the code of "+[>.<-]" the fragment of the "." comes after the 6
    bytes of "+", the 9 of "[" and the 4 of ">". *)
Example code_offset_example :
  code_offset (src "+[>") = 53 /\
  slice 53 20 (compiled "+[>.<-]") = WRITE ++ JNE ++ rel32 25 (53 + 16).
Proof. split; reflexivity. Qed.

(** ** A "." under a failing write *)

Lemma low8_low8 (x : Z) : low8 (low8 x) = low8 x.
Proof. unfold low8. apply Z.mod_mod. lia. Qed.

Section WriteExit.

Variable A : arena.
Variable code : code_buffer.
Variable h : host.
Variable o : Z.

Hypothesis Hfail : write_always_fails h.
Hypothesis Ho : 0 <= o /\ o + 20 <= INT_MAX.
Hypothesis Hwrite :
  forall q i len,
    In (q, i, len)
       [(o, Imov R13 RDI, 3); (o + 3, Imovzbq_rsi, 4); (o + 7, Icall R12, 3);
        (o + 10, Icmp_rax 1, 4);
        (o + 14, Ijcc CondNE (le_signed32 (rel32 25 (o + 16))), 6)] ->
    fetch code q = Some (i, len).
Hypothesis Hexit :
  fetch code 25 = Some (Ipop RBX, 1) /\ fetch code 26 = Some (Ipop RBP, 1) /\
  fetch code 27 = Some (Ipop R14, 2) /\ fetch code 29 = Some (Ipop R13, 2) /\
  fetch code 31 = Some (Ipop R12, 2) /\ fetch code 33 = Some (Iret, 1).

Ltac here := cbn [In]; repeat first [ left; reflexivity | right ].

(** From the first instruction of the fragment of a "." to the return: the
    two moves, the call, the compare, the [jne], which is taken, the five
    pops and the [retq]. *)
Lemma failing_write_path (m : machine) (a b c d e : Z) :
  pc m = o -> stack m = [a; b; c; d; e] -> regs m R12 = write_addr h ->
  in_arena A (regs m RBX) 1 = true ->
  let ch := low8 (mem m (regs m RBX)) in
  let r := host_write h (trace m) (regs m R13) ch mod 2 ^ 64 in
  (forall k, (k <= 10)%nat ->
     exists mk,
       checked_run A code h k m = Running mk /\
       pc mk = nth k [o; o + 3; o + 7; o + 10; o + 14; 25; 26; 27; 29; 31; 33] 0 /\
       trace mk = trace m ++ (if (k <? 3)%nat then [] else [IoWrite ch r]) /\
       mem mk = mem m) /\
  exists m',
    checked_run A code h 11 m = Returned m' /\
    trace m' = trace m ++ [IoWrite ch r] /\ mem m' = mem m.
Proof.
  intros Hpc Hst H12 Ha ch r.
  destruct Hexit as (E25 & E26 & E27 & E29 & E31 & E33).
  unfold INT_MAX in Ho.
  assert (F0 : fetch code o = Some (Imov R13 RDI, 3)) by (apply Hwrite; here).
  assert (F3 : fetch code (o + 3) = Some (Imovzbq_rsi, 4)) by (apply Hwrite; here).
  assert (F7 : fetch code (o + 7) = Some (Icall R12, 3)) by (apply Hwrite; here).
  assert (F10 : fetch code (o + 10) = Some (Icmp_rax 1, 4)) by (apply Hwrite; here).
  assert (F14 : fetch code (o + 14)
                = Some (Ijcc CondNE (le_signed32 (rel32 25 (o + 16))), 6))
    by (apply Hwrite; here).
  set (m1 := set_reg RDI (regs m R13) (set_pc (o + 3) m)).
  set (m2 := set_reg RSI (low8 (mem m1 (regs m1 RBX))) (set_pc (o + 3 + 4) m1)).
  set (m3 := after_call h (o + 7 + 3) r (IoWrite ch r) m2).
  set (m4 := set_fl (flags_sub 64 (regs m3 RAX) 1) (set_pc (o + 10 + 4) m3)).
  set (m5 := set_pc 25 m4).
  set (m6 := set_stack [b; c; d; e] (set_reg RBX a (set_pc (25 + 1) m5))).
  set (m7 := set_stack [c; d; e] (set_reg RBP b (set_pc (26 + 1) m6))).
  set (m8 := set_stack [d; e] (set_reg R14 c (set_pc (27 + 2) m7))).
  set (m9 := set_stack [e] (set_reg R13 d (set_pc (29 + 2) m8))).
  set (m10 := set_stack [] (set_reg R12 e (set_pc (31 + 2) m9))).
  assert (C : chain A code h m [m1; m2; m3; m4; m5; m6; m7; m8; m9; m10]).
  { cbn [chain]. repeat split.
    - now rewrite (checked_step_at A code h m o _ _ Hpc F0 I).
    - now rewrite (checked_step_at A code h m1 (o + 3) _ _ eq_refl F3 Ha).
    - rewrite (checked_step_at A code h m2 (o + 7) _ _ ltac:(cbn; lia) F7 I).
      cbn [exec]. unfold call_host.
      change (regs m2 R12) with (regs m R12). rewrite H12, Z.eqb_refl. cbv zeta.
      change (low8 (regs m2 RSI)) with (low8 ch). unfold ch.
      rewrite !low8_low8. reflexivity.
    - now rewrite (checked_step_at A code h m3 (o + 10) _ _ ltac:(cbn; lia) F10 I).
    - rewrite (checked_step_at A code h m4 (o + 14) _ _ ltac:(cbn; lia) F14 I).
      cbn [exec check]. change (fl m4) with (flags_sub 64 r 1). unfold r at 1.
      rewrite failing_write_not_one by apply Hfail.
      rewrite le_signed32_rel32 by lia.
      replace (o + 14 + 6 + (25 - (o + 16 + 4))) with 25 by lia. reflexivity.
    - rewrite (checked_step_at A code h m5 25 _ _ eq_refl E25 I).
      cbn [exec]. change (stack m5) with (stack m). now rewrite Hst.
    - now rewrite (checked_step_at A code h m6 26 _ _ eq_refl E26 I).
    - now rewrite (checked_step_at A code h m7 27 _ _ eq_refl E27 I).
    - now rewrite (checked_step_at A code h m8 29 _ _ eq_refl E29 I).
    - now rewrite (checked_step_at A code h m9 31 _ _ eq_refl E31 I). }
  pose proof (chain_run A code h _ m C) as R. cbn [length] in R.
  split.
  - intros k Hk. exists (nth k [m; m1; m2; m3; m4; m5; m6; m7; m8; m9; m10] m).
    split; [apply R; lia|].
    do 11 (destruct k as [|k];
           [ cbn [nth Nat.ltb Nat.leb];
             unfold m10, m9, m8, m7, m6, m5, m4, m3, m2, m1; machine_simpl;
             repeat split; try lia; now rewrite ?app_nil_r
           | ]).
    lia.
  - exists m10. split; [|split; reflexivity].
    change 11%nat with (10 + 1)%nat. rewrite checked_run_add, (R 10%nat) by lia.
    cbn [nth checked_run].
    now rewrite (checked_step_at A code h m10 33 _ _ eq_refl E33 I).
Qed.

End WriteExit.

Lemma code_offset_bounds (s1 : source) :
  34 <= code_offset s1 <= 34 + 20 * Z.of_nat (length s1).
Proof.
  unfold code_offset. rewrite size_init_prefix.
  pose proof (emitted_size_bounds s1 0). lia.
Qed.

(** C9.  A compiled program whose source (short enough for [int] offsets)
    has a "." after the characters [s1], entered as [run] enters it with a
    write capability that always reports failure.

    The code of that "." is in the program: the bytes [generate_write_code]
    appends, at the offset [code_offset s1] of what is emitted for the
    characters before it.

    Whenever the machine arrives there with the pointer on a cell of the
    arena, no write has been called before; the next three instructions call
    the write capability with the byte under the pointer; then come the
    compare and the [jne] of the same fragment, the five pops and the
    [retq] of the shared exit at offset 25, and the machine has returned:
    eleven instructions in all, none of them of another fragment, the tape
    as it was, and the call the only event.

    And at no point of any run has the write capability been called more
    than once, nor is the machine ever stuck. *)
Theorem failing_write_stops
    (s1 s2 : source) (code : code_buffer) (h : host) (A : arena)
    (memory : Z) (others : reg -> Z) (tape : Z -> Z) :
  let s := s1 ++ "."%char :: s2 in
  let o := code_offset s1 in
  let start := entry h memory others tape in
  init_code s = Done code ->
  39 + 20 * Z.of_nat (length s) <= INT_MAX ->
  write_addr h <> read_addr h ->
  write_always_fails h ->
  (exists pre post,
     code = pre ++ (WRITE ++ JNE ++ rel32 init_exit_offset (o + 16)) ++ post /\
     size pre = o /\
     generate_write_code init_exit_offset pre
     = pre ++ WRITE ++ JNE ++ rel32 init_exit_offset (o + 16)) /\
  (forall n m,
     checked_run A code h n start = Running m ->
     pc m = o ->
     in_arena A (regs m RBX) 1 = true ->
     let ch := low8 (mem m (regs m RBX)) in
     let r := host_write h (trace m) (regs m R13) ch mod 2 ^ 64 in
     writes (trace m) = 0%nat /\
     (forall k, (k <= 10)%nat ->
        exists mk,
          checked_run A code h (n + k) start = Running mk /\
          pc mk = nth k [o; o + 3; o + 7; o + 10; o + 14; 25; 26; 27; 29; 31; 33] 0 /\
          trace mk = trace m ++ (if (k <? 3)%nat then [] else [IoWrite ch r]) /\
          mem mk = mem m) /\
     exists m',
       checked_run A code h (n + 11) start = Returned m' /\
       trace m' = trace m ++ [IoWrite ch r] /\ mem m' = mem m) /\
  (forall n,
     match checked_run A code h n start with
     | Running m | Returned m | Outside m => (writes (trace m) <= 1)%nat
     | Stuck => False
     end).
Proof.
  intros s o start Hc Hsz Hneq Hfail.
  assert (Hlen : length s = (length s1 + S (length s2))%nat)
    by (unfold s; now rewrite length_app).
  pose proof (code_offset_bounds s1) as Hob. fold o in Hob.
  destruct (init_code_places s code ltac:(lia) Hc s1 "."%char s2 FWrite eq_refl eq_refl)
    as (pre & post & Hcode & Hpre).
  fold o in Hpre.
  assert (Hmost : forall n,
             match checked_run A code h n start with
             | Running m | Returned m | Outside m => (writes (trace m) <= 1)%nat
             | Stuck => False
             end).
  { intro n. pose proof (checked_run_plain A code h n start) as P.
    destruct (checked_run A code h n start) as [m|m| |m].
    - pose proof (failing_write_at_most_once s code h memory others tape Hc Hsz Hneq Hfail n) as W.
      fold start in W. rewrite P in W. apply W.
    - pose proof (failing_write_at_most_once s code h memory others tape Hc Hsz Hneq Hfail n) as W.
      fold start in W. now rewrite P in W.
    - pose proof (failing_write_at_most_once s code h memory others tape Hc Hsz Hneq Hfail n) as W.
      fold start in W. now rewrite P in W.
    - destruct P as (k & _ & P & _).
      pose proof (failing_write_at_most_once s code h memory others tape Hc Hsz Hneq Hfail k) as W.
      fold start in W. rewrite P in W. apply W. }
  split; [|split; [|exact Hmost]].
  - exists pre, post. rewrite generate_write_code_eq.
    change init_exit_offset with 25. rewrite <- Hpre.
    split; [exact Hcode | split; reflexivity].
  - intros n m Hrun Hpc Ha ch r.
    pose proof (checked_run_plain A code h n start) as P. rewrite Hrun in P.
    pose proof (run_invariant s code h memory others tape Hc Hsz Hneq n) as I.
    fold start in I. rewrite P in I.
    destruct I as [Hlt|(Hst & H12 & _)]; [lia|].
    assert (Hwrite : forall q i len,
               In (q, i, len)
                  [(o, Imov R13 RDI, 3); (o + 3, Imovzbq_rsi, 4); (o + 7, Icall R12, 3);
                   (o + 10, Icmp_rax 1, 4);
                   (o + 14, Ijcc CondNE (le_signed32 (rel32 25 (o + 16))), 6)] ->
               fetch code q = Some (i, len)).
    { intros q i len Hin. rewrite Hcode. apply fetch_fragment.
      rewrite place_fragment, Hpre. exact Hin. }
    assert (Hexit :
              fetch code 25 = Some (Ipop RBX, 1) /\ fetch code 26 = Some (Ipop RBP, 1) /\
              fetch code 27 = Some (Ipop R14, 2) /\ fetch code 29 = Some (Ipop R13, 2) /\
              fetch code 31 = Some (Ipop R12, 2) /\ fetch code 33 = Some (Iret, 1)).
    { destruct (init_code_program s code ltac:(lia) Hc) as (p & Hp & _).
      rewrite Hp. apply program_fetch_exit. }
    destruct (failing_write_path A code h o Hfail ltac:(lia) Hwrite Hexit m
                _ _ _ _ _ Hpc Hst H12 Ha) as (Hpath & m' & Hret & Ht' & Hm').
    fold ch r in Hpath, Ht'.
    split; [|split].
    + destruct (Hpath 3%nat ltac:(lia)) as (m3 & Hr3 & _ & Ht3 & _).
      pose proof (Hmost (n + 3)%nat) as W.
      rewrite checked_run_add, Hrun, Hr3 in W.
      rewrite Ht3 in W. cbn [Nat.ltb Nat.leb] in W.
      rewrite writes_app in W. lia.
    + intros k Hk. destruct (Hpath k Hk) as (mk & Hrk & Hk').
      exists mk. split; [|exact Hk'].
      now rewrite checked_run_add, Hrun.
    + exists m'. split; [|now split].
      now rewrite checked_run_add, Hrun.
Qed.

(** The state in which the program "+.+." arrives at its first ".". *)
Definition at_first_dot : machine :=
  match checked_run tape_arena (compiled "+.+.") host_failing_write 14
          (entry host_failing_write 8192 (fun _ => 0) (fun _ => 0)) with
  | Running m => m
  | _ => entry host_failing_write 8192 (fun _ => 0) (fun _ => 0)
  end.

Lemma failing_write_stops_witness :
  exists m',
    checked_run tape_arena (compiled "+.+.") host_failing_write (14 + 11)
      (entry host_failing_write 8192 (fun _ => 0) (fun _ => 0)) = Returned m' /\
    trace m' = trace at_first_dot ++ [IoWrite 1 0] /\
    mem m' = mem at_first_dot.
Proof.
  destruct (failing_write_stops (src "+") (src "+.") (compiled "+.+.")
              host_failing_write tape_arena 8192 (fun _ => 0) (fun _ => 0))
    as (_ & H & _).
  - reflexivity.
  - vm_compute. discriminate.
  - vm_compute. discriminate.
  - intros t ctx c. reflexivity.
  - destruct (H 14%nat at_first_dot) as (_ & _ & m' & Hr & Ht & Hm).
    + vm_compute. reflexivity.
    + vm_compute. reflexivity.
    + vm_compute. reflexivity.
    + exists m'. repeat split; [exact Hr | exact Ht | exact Hm].
Defined.

(** The second "." of that program is in the code as well, at offset 66, and
    is never reached. *)
Example second_dot_example :
  code_offset (src "+.+") = 66 /\
  forall n m,
    checked_run tape_arena (compiled "+.+.") host_failing_write n
      (entry host_failing_write 8192 (fun _ => 0) (fun _ => 0)) = Running m ->
    pc m <> 66.
Proof.
  split; [reflexivity|].
  intros n m Hrun Hpc.
  destruct (Nat.le_gt_cases 25 n) as [Hn|Hn].
  - replace n with (25 + (n - 25))%nat in Hrun by lia.
    rewrite checked_run_add in Hrun. vm_compute in Hrun. discriminate.
  - do 25 (destruct n as [|n];
           [vm_compute in Hrun; injection Hrun as <-; vm_compute in Hpc; discriminate|]).
    lia.
Qed.
